(** * alfred: the network protocol core (recv.c, send.c)

    A shallow embedding of the receive path (transaction reassembly and the
    provenance-aware merge into the dataset store) and of the send path (the
    push scheduler and the datagram sender), with the properties the
    specification states about them. *)

From Stdlib Require Import ZArith List Bool Lia.
Import ListNotations.
Open Scope Z_scope.

(** ** Bytes and wire fields *)

(** A byte is a [Z] in [0, 256); a buffer is a list of bytes.  Reading past
    the end of a buffer yields 0. *)
Definition bytes := list Z.

Definition get_u8 (b : bytes) (off : nat) : Z := (nth off b 0) mod 256.

(** [ntohs] of the 16-bit field stored at [off]: the wire is big-endian. *)
Definition get_u16 (b : bytes) (off : nat) : Z :=
  get_u8 b off * 256 + get_u8 b (S off).

Fixpoint bytes_eqb (a b : bytes) : bool :=
  match a, b with
  | [], [] => true
  | x :: a', y :: b' => (x =? y) && bytes_eqb a' b'
  | _, _ => false
  end.

(** Wrap-around of [uint16_t] arithmetic. *)
Definition u16 (z : Z) : Z := z mod 65536.

(** Modelled from the spec: the packed layouts of packet.h, which this part of the
    repository does not hold (section 4.1: framing header [type: u8],
    [version: u8], [length: u16]; a data record is [src_hwaddr: 6 bytes]
    followed by a framing header and the payload; PUSH_DATA and STATUS_TXEND
    carry [tx_id: u16], [seqno: u16] after the header; REQUEST carries
    [requested_type: u8], [tx_id: u16]). *)
Definition ETH_ALEN : Z := 6.
Definition sizeof_tlv : Z := 4.
Definition sizeof_transaction_mgmt : Z := 4.
Definition sizeof_push : Z := sizeof_tlv + sizeof_transaction_mgmt.
Definition sizeof_data : Z := ETH_ALEN + sizeof_tlv.
Definition sizeof_request : Z := sizeof_tlv + 3.
Definition sizeof_status : Z := sizeof_tlv + sizeof_transaction_mgmt.

(** Field offsets inside a datagram ([struct alfred_tlv] comes first). *)
Definition off_type : nat := 0.
Definition off_version : nat := 1.
Definition off_length : nat := 2.
Definition off_tx_id : nat := 4.
Definition off_tx_seqno : nat := 6.
Definition off_push_data : nat := 8.
Definition off_requested_type : nat := 4.
Definition off_request_tx_id : nat := 5.

(** Field offsets inside a data record ([struct alfred_data]). *)
Definition off_data_type : nat := 6.
Definition off_data_version : nat := 7.
Definition off_data_length : nat := 8.
Definition off_data_data : nat := 10.

(** ** In-memory structures *)

Definition ether_addr := bytes.
Definition alfred_addr := bytes.

Definition ether_addr_eqb (a b : ether_addr) : bool := bytes_eqb a b.

Record alfred_tlv := {
  tlv_type : Z;
  tlv_version : Z;
  tlv_length : Z
}.

Record alfred_data := {
  source : ether_addr;
  header : alfred_tlv
}.

Inductive data_source_t :=
| SOURCE_LOCAL
| SOURCE_FIRST_HAND
| SOURCE_SYNCED.

Definition data_source_eqb (a b : data_source_t) : bool :=
  match a, b with
  | SOURCE_LOCAL, SOURCE_LOCAL => true
  | SOURCE_FIRST_HAND, SOURCE_FIRST_HAND => true
  | SOURCE_SYNCED, SOURCE_SYNCED => true
  | _, _ => false
  end.

(** [buf] is [None] for a NULL pointer. *)
Record dataset := {
  data : alfred_data;
  buf : option bytes;
  data_source : data_source_t;
  last_seen : Z
}.

(** A [transaction_packet] is the private copy of a PUSH_DATA datagram; the
    list is in insertion order ([list_add_tail]). *)
Record transaction_head := {
  server_addr : ether_addr;
  id : Z;
  requested_type : Z;
  txend_packets : Z;
  num_packet : Z;
  client_socket : Z;
  last_rx_time : Z;
  packet_list : list bytes
}.

Inductive opmode_t :=
| OPMODE_SLAVE
| OPMODE_MASTER.

Record globals := {
  opmode : opmode_t;
  ipv4mode : bool;
  data_hash : list dataset;
  transaction_hash : list transaction_head
}.

Record server := {
  hwaddr : ether_addr;
  address : alfred_addr;
  tq : Z;
  srv_last_seen : Z
}.

Record interface := {
  netsock : Z;
  netsock_mcast : Z;
  scope_id : Z;
  server_hash : list server
}.

(** ** The world outside the core *)

Inductive alfred_packet_type :=
| ALFRED_PUSH_DATA
| ALFRED_ANNOUNCE_MASTER
| ALFRED_REQUEST
| ALFRED_STATUS_TXEND.

(** A datagram as [push_data] and [announce_master] build it.  [pkt_length]
    is the wire value of [header.length]; [pkt_tx_id] is passed through as
    the caller gave it; [pkt_seqno] is the wire value of [tx.seqno];
    [pkt_records] are the records copied into the buffer, in order. *)
Record packet := {
  pkt_type : alfred_packet_type;
  pkt_length : Z;
  pkt_tx_id : Z;
  pkt_seqno : Z;
  pkt_records : list dataset
}.

(** [sendto(2)]: the number of bytes sent, or -1 with [errno] set. *)
Inductive sendto_result :=
| Sent (n : Z)
| Failed (errno : Z).

Definition sendto_ret (r : sendto_result) : Z :=
  match r with
  | Sent n => n
  | Failed _ => -1
  end.

(** errno.h *)
Definition EPERM : Z := 1.
Definition ENETUNREACH : Z := 101.

Inductive event :=
| EvChanged (type : Z)                        (* changed_data_type *)
| EvReqFinish (head : transaction_head)       (* unix_sock_req_data_finish *)
| EvSendPacket (dest : alfred_addr) (p : packet) (length : Z)
                                              (* send_alfred_packet entered *)
| EvSendto (sock : Z) (dest : alfred_addr) (p : packet) (length : Z)
                                              (* sendto *)
| EvClose (sock : Z).                         (* close *)

(** [clock]: what [clock_gettime(CLOCK_MONOTONIC)] reads; [heap]: the outcome
    of the allocations to come ([false]: NULL), all succeeding once the list
    is used up; [wire]: the outcome of the [sendto] calls to come, likewise;
    [trace]: what the core has done to the outside so far, the latest
    event first.  One environment has one clock reading: the reads of one
    run are taken to give the same instant, and a run that comes later is
    given an environment of its own, with its own clock. *)
Record environ := {
  clock : Z;
  heap : list bool;
  wire : list sendto_result;
  trace : list event
}.

Definition malloc (e : environ) : bool * environ :=
  match heap e with
  | [] => (true, e)
  | ok :: rest =>
      (ok, {| clock := clock e; heap := rest; wire := wire e;
              trace := trace e |})
  end.

Definition emit (e : environ) (ev : event) : environ :=
  {| clock := clock e; heap := heap e; wire := wire e;
     trace := ev :: trace e |}.

Definition sendto (e : environ) (sock : Z) (dest : alfred_addr) (p : packet)
    (length : Z) : sendto_result * environ :=
  let e' := emit e (EvSendto sock dest p length) in
  match wire e' with
  | [] => (Sent length, e')
  | r :: rest =>
      (r, {| clock := clock e'; heap := heap e'; wire := rest;
             trace := trace e' |})
  end.

(** ** Hash tables *)

Section Hash.
Context {A : Type} (same : A -> bool).

(** Modelled from the spec: hash.c and the compare callbacks of the two
    tables are missing.  A table is a keyed list (section 9: explicit maps
    keyed by [(type, hwaddr)] for datasets and [(hwaddr, tx_id)] for
    transactions); [same] is the compare callback applied to the search key;
    [hash_find] returns the first element with the key and [hash_iterate]
    walks the list. *)
Definition hash_find (h : list A) : option A := find same h.

(** Modelled from the spec: a write through the pointer that [hash_find]
    returned, the table of hash.c holding pointers to its elements. *)
Fixpoint hash_set (h : list A) (v : A) : list A :=
  match h with
  | [] => []
  | x :: h' => if same x then v :: h' else x :: hash_set h' v
  end.

(** Modelled from the spec: [hash_remove] of hash.c takes the element with
    the key out of the table. *)
Fixpoint hash_remove (h : list A) : list A :=
  match h with
  | [] => []
  | x :: h' => if same x then h' else x :: hash_remove h'
  end.
End Hash.

(** Modelled from the spec: [hash_add] of hash.c allocates a bucket for the
    new element and reports failure when it cannot. *)
Definition hash_add {A : Type} (h : list A) (v : A) (e : environ)
    : option (list A) * environ :=
  let (ok, e') := malloc e in
  if ok then (Some (h ++ [v]), e') else (None, e').

Definition data_key (d : alfred_data) : ether_addr * Z :=
  (source d, tlv_type (header d)).

Definition data_key_eqb (k1 k2 : ether_addr * Z) : bool :=
  ether_addr_eqb (fst k1) (fst k2) && (snd k1 =? snd k2).

Definition same_data (k : alfred_data) (d : dataset) : bool :=
  data_key_eqb (data_key (data d)) (data_key k).

Definition same_transaction (mac : ether_addr) (tx_id : Z)
    (h : transaction_head) : bool :=
  ether_addr_eqb (server_addr h) mac && (id h =? tx_id).

(** ** What the core takes from its surroundings

    Constants of packet.h and alfred.h and the collaborators' functions,
    none of which this part of the repository holds: the protocol version, the
    datagram ceiling, the "no filter" marker, the numbering of the packet
    types and of the provenance levels, the host's [htons], the resolution of
    a sender's hardware address, and the two address predicates. *)
Class Platform := {
  ALFRED_VERSION : Z;
  MAX_PAYLOAD : Z;
  NO_FILTER : Z;
  packet_type_of : Z -> option alfred_packet_type;
  source_level : data_source_t -> Z;
  htons : Z -> Z;
  ipv4_to_mac : interface -> alfred_addr -> option ether_addr;
  ipv6_to_mac : alfred_addr -> option ether_addr;
  is_ipv6_eui64 : alfred_addr -> bool;
  netsock_own_address : globals -> alfred_addr -> bool
}.

(** Wrap-around of [size_t] arithmetic. *)
Definition size_t (z : Z) : Z := z mod 2 ^ 64.

Definition set_data_hash (g : globals) (h : list dataset) : globals :=
  {| opmode := opmode g; ipv4mode := ipv4mode g; data_hash := h;
     transaction_hash := transaction_hash g |}.

Definition set_transaction_hash (g : globals) (h : list transaction_head)
    : globals :=
  {| opmode := opmode g; ipv4mode := ipv4mode g; data_hash := data_hash g;
     transaction_hash := h |}.

Definition set_last_rx_time (h : transaction_head) (t : Z)
    : transaction_head :=
  {| server_addr := server_addr h; id := id h;
     requested_type := requested_type h; txend_packets := txend_packets h;
     num_packet := num_packet h; client_socket := client_socket h;
     last_rx_time := t; packet_list := packet_list h |}.

Definition set_txend_packets (h : transaction_head) (n : Z)
    : transaction_head :=
  {| server_addr := server_addr h; id := id h;
     requested_type := requested_type h; txend_packets := n;
     num_packet := num_packet h; client_socket := client_socket h;
     last_rx_time := last_rx_time h; packet_list := packet_list h |}.

Definition set_packets (h : transaction_head) (n : Z) (l : list bytes)
    : transaction_head :=
  {| server_addr := server_addr h; id := id h;
     requested_type := requested_type h; txend_packets := txend_packets h;
     num_packet := n; client_socket := client_socket h;
     last_rx_time := last_rx_time h; packet_list := l |}.

Definition set_sockets (i : interface) (s m : Z) : interface :=
  {| netsock := s; netsock_mcast := m; scope_id := scope_id i;
     server_hash := server_hash i |}.

Definition set_server_hash (i : interface) (h : list server) : interface :=
  {| netsock := netsock i; netsock_mcast := netsock_mcast i;
     scope_id := scope_id i; server_hash := h |}.

(** ** send.c *)

Section Send.
Context {P : Platform}.

(** [send_alfred_packet].  The destination address is only copied into the
    socket address, so [globals->ipv4mode] does not show here. *)
Definition send_alfred_packet (iface : interface) (e : environ)
    (dest : alfred_addr) (p : packet) (length : Z)
    : Z * interface * environ :=
  let e0 := emit e (EvSendPacket dest p length) in
  if netsock iface <? 0 then (0, iface, e0)
  else
    let (r, e1) := sendto e0 (netsock iface) dest p length in
    let ret := sendto_ret r in
    if ret =? - EPERM then
      let e2 := emit e1 (EvClose (netsock iface)) in
      let e3 := emit e2 (EvClose (netsock_mcast iface)) in
      (ret, set_sockets iface (-1) (-1), e3)
    else (ret, iface, e1).

(** The locals of [push_data] that live across iterations: the fill of the
    buffer, the records in it, the next sequence number. *)
Record push_buffer := {
  total_length : Z;
  seqno : Z;
  records : list dataset
}.

Definition push_packet (tx_id : Z) (b : push_buffer) : packet :=
  {| pkt_type := ALFRED_PUSH_DATA;
     pkt_length := u16 (total_length b + (sizeof_push - sizeof_tlv));
     pkt_tx_id := tx_id;
     pkt_seqno := seqno b;
     pkt_records := records b |}.

Definition status_end_packet (tx_id : Z) (seqno : Z) : packet :=
  {| pkt_type := ALFRED_STATUS_TXEND;
     pkt_length := u16 (sizeof_status - sizeof_tlv);
     pkt_tx_id := tx_id;
     pkt_seqno := seqno;
     pkt_records := [] |}.

(** Lines 76-82 and 100-105: send the aggregated data. *)
Definition flush (iface : interface) (e : environ) (dest : alfred_addr)
    (tx_id : Z) (b : push_buffer) : push_buffer * interface * environ :=
  let '(_, iface', e') :=
    send_alfred_packet iface e dest (push_packet tx_id b)
                       (sizeof_push + total_length b) in
  ({| total_length := 0; seqno := u16 (seqno b + 1); records := [] |},
   iface', e').

Definition too_big (b : push_buffer) (d : dataset) : bool :=
  size_t (total_length b + tlv_length (header (data d)) + sizeof_data)
  >? size_t (MAX_PAYLOAD - sizeof_push).

(** Lines 61-66: the two tests that pass over a dataset. *)
Definition passed_over (max_source_level : data_source_t) (type_filter : Z)
    (d : dataset) : bool :=
  (source_level (data_source d) >? source_level max_source_level)
  || ((type_filter >=? 0)
      && negb (tlv_type (header (data d)) =? type_filter)).

(** The [while] loop over [hash_iterate(globals->data_hash)].  The datagram
    is followed by the datasets in it and not by its bytes: the copy of
    line 94, which reads [header.length] bytes of [dataset->buf], is not
    followed.  Where a statement says that a dataset is sent, the entries of
    the store are assumed to have a buffer as long as their length field,
    on which that copy stays inside the buffer. *)
Fixpoint push_data_loop (h : list dataset) (iface : interface)
    (e : environ) (dest : alfred_addr) (max_source_level : data_source_t)
    (type_filter : Z) (tx_id : Z) (b : push_buffer)
    : push_buffer * interface * environ :=
  match h with
  | [] => (b, iface, e)
  | d :: h' =>
      let continue := fun '(b', iface', e') =>
        push_data_loop h' iface' e' dest max_source_level type_filter
                       tx_id b' in
      if passed_over max_source_level type_filter d
      then continue (b, iface, e)
      else
        match
          (if too_big b d then
             if total_length b =? 0 then None
             else Some (flush iface e dest tx_id b)
           else Some (b, iface, e))
        with
        | None => continue (b, iface, e)
        | Some (b1, iface1, e1) =>
            if too_big b1 d then continue (b1, iface1, e1)
            else
              continue
                ({| total_length :=
                      u16 (total_length b1
                           + (tlv_length (header (data d)) + sizeof_data));
                    seqno := seqno b1;
                    records := records b1 ++ [d] |}, iface1, e1)
        end
  end.

Definition push_data (g : globals) (iface : interface) (e : environ)
    (dest : alfred_addr) (max_source_level : data_source_t)
    (type_filter : Z) (tx_id : Z) : Z * interface * environ :=
  let b0 := {| total_length := 0; seqno := 0; records := [] |} in
  let '(b1, iface1, e1) :=
    push_data_loop (data_hash g) iface e dest max_source_level type_filter
                   tx_id b0 in
  let '(b2, iface2, e2) :=
    if total_length b1 =? 0 then (b1, iface1, e1)
    else flush iface1 e1 dest tx_id b1 in
  if (seqno b2 >? 0) || negb (type_filter =? NO_FILTER) then
    let '(_, iface3, e3) :=
      send_alfred_packet iface2 e2 dest
                         (status_end_packet tx_id (seqno b2))
                         sizeof_status in
    (0, iface3, e3)
  else (0, iface2, e2).
End Send.

(** ** recv.c *)

(** One datagram as [recvfrom] delivers it, and the environment it meets. *)
Record arrival := {
  arrival_environ : environ;
  arrival_source : alfred_addr;
  arrival_buf : bytes;
  arrival_length : Z
}.

Section Recv.
Context {P : Platform}.

(** alfred.h is missing: the completion test of [finish_alfred_transaction]
    is a parameter of the receive path. *)
Variable transaction_finished : transaction_head -> bool.

(** The record header at [pos] as [memcpy(&dataset->data, data,
    sizeof( *data))] leaves it: the length field still in network byte
    order. *)
Definition read_data (pos : bytes) : alfred_data :=
  {| source := firstn (Z.to_nat ETH_ALEN) pos;
     header := {| tlv_type := get_u8 pos off_data_type;
                  tlv_version := get_u8 pos off_data_version;
                  tlv_length := htons (get_u16 pos off_data_length) |} |}.

Definition read_payload (pos : bytes) (data_len : Z) : bytes :=
  firstn (Z.to_nat data_len) (skipn off_data_data pos).

(** [memcmp(dataset->buf, data->data, data_len) != 0].  With a NULL [buf]
    the call is undefined for a positive length; it is taken to report a
    difference then.  Line 79 comes to the call only for an entry that was
    found with the stored length equal to [data_len]; where a statement says
    that a merge yields a result, the entries of the store are assumed to
    have a buffer as long as their length field, which keeps the merge away
    from that call on a NULL buffer. *)
Definition memcmp_ne (b : option bytes) (payload : bytes) (n : Z) : bool :=
  match b with
  | Some old => negb (bytes_eqb (firstn (Z.to_nat n) old) payload)
  | None => 0 <? n
  end.

(** Lines 54-69: find the dataset or create it.  [None] is [goto err]. *)
Definition find_or_create (rec : alfred_data) (g : globals) (e : environ)
    : option (dataset * bool) * globals * environ :=
  match hash_find (same_data rec) (data_hash g) with
  | Some ds => (Some (ds, false), g, e)
  | None =>
      let (ok, e1) := malloc e in
      if negb ok then (None, g, e1)
      else
        let ds :=
          {| data := rec; buf := None; data_source := SOURCE_SYNCED;
             last_seen := 0 |} in
        match hash_add (data_hash g) ds e1 with
        | (None, e2) => (None, g, e2)
        | (Some h, e2) => (Some (ds, true), set_data_hash g h, e2)
        end
  end.

(** Lines 53-103: the body of the loop for the record at [pos].  The
    boolean is [false] for [goto err]. *)
Definition merge_record (mac : ether_addr) (pos : bytes) (data_len : Z)
    (g : globals) (e : environ) : bool * globals * environ :=
  let rec := read_data pos in
  let payload := read_payload pos data_len in
  match find_or_create rec g e with
  | (None, g1, e1) => (false, g1, e1)
  | (Some (ds, new_entry_created), g1, e1) =>
      if data_source_eqb (data_source ds) SOURCE_LOCAL
      then (true, g1, e1)
      else
        let now := clock e1 in
        let e2 :=
          if new_entry_created
             || negb (tlv_length (header (data ds)) =? data_len)
             || memcmp_ne (buf ds) payload data_len
          then emit e1 (EvChanged (tlv_type (header rec)))
          else e1 in
        let length1 :=
          match buf ds with
          | Some _ => 0
          | None => tlv_length (header (data ds))
          end in
        let (ok, e3) := malloc e2 in
        let write := fun d =>
          set_data_hash g1 (hash_set (same_data rec) (data_hash g1) d) in
        if negb ok then
          (false,
           write {| data := {| source := source (data ds);
                               header :=
                                 {| tlv_type := tlv_type (header (data ds));
                                    tlv_version :=
                                      tlv_version (header (data ds));
                                    tlv_length := length1 |} |};
                    buf := None;
                    data_source := data_source ds;
                    last_seen := now |},
           e3)
        else
          (true,
           write {| data := {| source := source (data ds);
                               header :=
                                 {| tlv_type := tlv_type (header (data ds));
                                    tlv_version := tlv_version (header rec);
                                    tlv_length := data_len |} |};
                    buf := Some payload;
                    data_source :=
                      if ether_addr_eqb mac (source rec)
                      then SOURCE_FIRST_HAND else SOURCE_SYNCED;
                    last_seen := now |},
           e3)
  end.

(** The [while] loop of [finish_alfred_push_data]; [len] loses at least
    [sizeof_data] a turn, so [fuel] from [len] is enough. *)
Fixpoint finish_alfred_push_data_loop (fuel : nat) (mac : ether_addr)
    (pos : bytes) (len : Z) (g : globals) (e : environ)
    : Z * globals * environ :=
  match fuel with
  | O => (0, g, e)
  | S fuel' =>
      if len <? sizeof_data then (0, g, e)
      else
        let data_len := get_u16 pos off_data_length in
        if data_len + sizeof_data >? len then (0, g, e)
        else
          match merge_record mac pos data_len g e with
          | (false, g', e') => (-1, g', e')
          | (true, g', e') =>
              finish_alfred_push_data_loop fuel' mac
                (skipn (Z.to_nat (sizeof_data + data_len)) pos)
                (len - (sizeof_data + data_len)) g' e'
          end
  end.

Definition finish_alfred_push_data (g : globals) (e : environ)
    (mac : ether_addr) (push : bytes) : Z * globals * environ :=
  let len := get_u16 push off_length in
  if len <? sizeof_push - sizeof_tlv then (-1, g, e)
  else
    let len := len - (sizeof_push - sizeof_tlv) in
    finish_alfred_push_data_loop (Z.to_nat len) mac
      (skipn off_push_data push) len g e.

Definition transaction_add (g : globals) (e : environ) (mac : ether_addr)
    (tx_id : Z) : option transaction_head * globals * environ :=
  let (ok, e1) := malloc e in
  if negb ok then (None, g, e1)
  else
    let head :=
      {| server_addr := mac; id := tx_id; requested_type := 0;
         txend_packets := 0; num_packet := 0; client_socket := -1;
         last_rx_time := clock e1; packet_list := [] |} in
    match hash_add (transaction_hash g) head e1 with
    | (None, e2) => (None, g, e2)
    | (Some h, e2) => (Some head, set_transaction_hash g h, e2)
    end.

Definition transaction_clean (g : globals) (head : transaction_head)
    : transaction_head * globals :=
  (set_packets head (num_packet head) [],
   set_transaction_hash g
     (hash_remove (same_transaction (server_addr head) (id head))
                  (transaction_hash g))).

(** The delivery loop of [finish_alfred_transaction]: every stored push goes
    to [finish_alfred_push_data], whose result is dropped. *)
Fixpoint deliver (l : list bytes) (mac : ether_addr) (g : globals)
    (e : environ) : globals * environ :=
  match l with
  | [] => (g, e)
  | push :: l' =>
      let '(_, g', e') := finish_alfred_push_data g e mac push in
      deliver l' mac g' e'
  end.

(** [head] is the record as the caller last wrote it to the table. *)
Definition finish_alfred_transaction (g : globals) (e : environ)
    (head : transaction_head) (mac : ether_addr) : Z * globals * environ :=
  if negb (transaction_finished head) then (0, g, e)
  else
    let '(g1, e1) := deliver (packet_list head) mac g e in
    let '(head1, g2) :=
      transaction_clean g1 (set_packets head (num_packet head) []) in
    if client_socket head1 <? 0 then (1, g2, e1)
    else (1, g2, emit e1 (EvReqFinish head1)).

Definition resolve_mac (g : globals) (iface : interface)
    (source : alfred_addr) : option ether_addr :=
  if ipv4mode g then ipv4_to_mac iface source else ipv6_to_mac source.

(** Lines 209-219 and 348-362: the transaction of [(mac, tx_id)], created on
    a master when it is unknown and [may_create] holds.  [None] is
    [goto err]. *)
Definition find_or_add_transaction (g : globals) (e : environ)
    (mac : ether_addr) (tx_id : Z) (may_create : bool)
    : option transaction_head * globals * environ :=
  match hash_find (same_transaction mac tx_id) (transaction_hash g) with
  | Some head => (Some head, g, e)
  | None =>
      match opmode g with
      | OPMODE_MASTER =>
          if may_create then transaction_add g e mac tx_id
          else (None, g, e)
      | OPMODE_SLAVE => (None, g, e)
      end
  end.

Definition write_head (g : globals) (mac : ether_addr) (tx_id : Z)
    (head : transaction_head) : globals :=
  set_transaction_hash g
    (hash_set (same_transaction mac tx_id) (transaction_hash g) head).

Definition same_seqno (push : bytes) (stored : bytes) : bool :=
  get_u16 stored off_tx_seqno =? get_u16 push off_tx_seqno.

Definition process_alfred_push_data (g : globals) (iface : interface)
    (e : environ) (source : alfred_addr) (push : bytes)
    : Z * globals * environ :=
  match resolve_mac g iface source with
  | None => (-1, g, e)
  | Some mac =>
      let len := get_u16 push off_length in
      if len <? sizeof_push - sizeof_tlv then (-1, g, e)
      else
        let tx_id := get_u16 push off_tx_id in
        match find_or_add_transaction g e mac tx_id true with
        | (None, g1, e1) => (-1, g1, e1)
        | (Some head, g1, e1) =>
            let head1 := set_last_rx_time head (clock e1) in
            let g2 := write_head g1 mac tx_id head1 in
            if existsb (same_seqno push) (packet_list head1)
            then (0, g2, e1)
            else
              let (ok1, e2) := malloc e1 in
              if negb ok1 then (-1, g2, e2)
              else
                let (ok2, e3) := malloc e2 in
                if negb ok2 then (-1, g2, e3)
                else
                  let copy :=
                    firstn (Z.to_nat (len + sizeof_tlv)) push in
                  let head2 :=
                    set_packets head1 (num_packet head1 + 1)
                                (packet_list head1 ++ [copy]) in
                  let g3 := write_head g2 mac tx_id head2 in
                  let '(_, g4, e4) :=
                    finish_alfred_transaction g3 e3 head2 mac in
                  (0, g4, e4)
        end
  end.

Definition same_server (mac : ether_addr) (s : server) : bool :=
  ether_addr_eqb (hwaddr s) mac.

Definition process_alfred_announce_master (g : globals) (iface : interface)
    (e : environ) (source : alfred_addr) (announce : bytes)
    : Z * interface * environ :=
  match resolve_mac g iface source with
  | None => (-1, iface, e)
  | Some mac =>
      if negb (get_u8 announce off_version =? ALFRED_VERSION)
      then (-1, iface, e)
      else
        match hash_find (same_server mac) (server_hash iface) with
        | Some srv =>
            (0,
             set_server_hash iface
               (hash_set (same_server mac) (server_hash iface)
                  {| hwaddr := hwaddr srv; address := address srv;
                     tq := tq srv; srv_last_seen := clock e |}),
             e)
        | None =>
            let (ok, e1) := malloc e in
            if negb ok then (-1, iface, e1)
            else
              let srv :=
                {| hwaddr := mac; address := source; tq := 0;
                   srv_last_seen := clock e1 |} in
              match hash_add (server_hash iface) srv e1 with
              | (None, e2) => (-1, iface, e2)
              | (Some h, e2) => (0, set_server_hash iface h, e2)
              end
        end
  end.

Definition process_alfred_request (g : globals) (iface : interface)
    (e : environ) (source : alfred_addr) (request : bytes)
    : Z * interface * environ :=
  let len := get_u16 request off_length in
  if negb (get_u8 request off_version =? ALFRED_VERSION) then (-1, iface, e)
  else if len <? sizeof_request - sizeof_tlv then (-1, iface, e)
  else
    let '(_, iface', e') :=
      push_data g iface e source SOURCE_SYNCED
                (get_u8 request off_requested_type)
                (get_u16 request off_request_tx_id) in
    (0, iface', e').

Definition process_alfred_status_txend (g : globals) (iface : interface)
    (e : environ) (source : alfred_addr) (request : bytes)
    : Z * globals * environ :=
  let len := get_u16 request off_length in
  if negb (get_u8 request off_version =? ALFRED_VERSION) then (-1, g, e)
  else if len <? sizeof_status - sizeof_tlv then (-1, g, e)
  else
    match resolve_mac g iface source with
    | None => (-1, g, e)
    | Some mac =>
        let tx_id := get_u16 request off_tx_id in
        let txend := get_u16 request off_tx_seqno in
        match find_or_add_transaction g e mac tx_id
                                      (negb (txend =? 0)) with
        | (None, g1, e1) => (-1, g1, e1)
        | (Some head, g1, e1) =>
            let head1 := set_last_rx_time head (clock e1) in
            let head2 := set_txend_packets head1 txend in
            let g2 := write_head g1 mac tx_id head2 in
            let '(_, g3, e3) :=
              finish_alfred_transaction g2 e1 head2 mac in
            (0, g3, e3)
        end
    end.

(** Lines 385-427 of [recv_alfred_packet], once [recvfrom] has returned
    [length] bytes in [buf] from [source] ([length <= 0]: the read failed):
    the tests that drop a datagram before the dispatch. *)
Definition recv_dropped (g : globals) (iface : interface)
    (source : alfred_addr) (buf : bytes) (length : Z) : bool :=
  (netsock iface <? 0)
  || (length <=? 0)
  || (negb (ipv4mode g) && negb (is_ipv6_eui64 source))
  || netsock_own_address g source
  || (length <? sizeof_tlv)
  || (length <? get_u16 buf off_length + sizeof_tlv)
  || negb (get_u8 buf off_version =? ALFRED_VERSION).

Definition recv_alfred_packet (g : globals) (iface : interface)
    (e : environ) (source : alfred_addr) (buf : bytes) (length : Z)
    : Z * globals * interface * environ :=
  if recv_dropped g iface source buf length then (-1, g, iface, e)
  else
    match packet_type_of (get_u8 buf off_type) with
    | Some ALFRED_PUSH_DATA =>
        let '(_, g', e') := process_alfred_push_data g iface e source buf in
        (0, g', iface, e')
    | Some ALFRED_ANNOUNCE_MASTER =>
        let '(_, iface', e') :=
          process_alfred_announce_master g iface e source buf in
        (0, g, iface', e')
    | Some ALFRED_REQUEST =>
        let '(_, iface', e') :=
          process_alfred_request g iface e source buf in
        (0, g, iface', e')
    | Some ALFRED_STATUS_TXEND =>
        let '(_, g', e') :=
          process_alfred_status_txend g iface e source buf in
        (0, g', iface, e')
    | None => (-1, g, iface, e)
    end.

(** The datagrams that arrive one after the other, each in the environment
    of its arrival; what the handlers do to the outside is not followed
    here. *)
Fixpoint recv_packets (l : list arrival) (g : globals) (iface : interface)
    : globals * interface :=
  match l with
  | [] => (g, iface)
  | a :: l' =>
      let '(_, g', iface', _) :=
        recv_alfred_packet g iface (arrival_environ a) (arrival_source a)
                           (arrival_buf a) (arrival_length a) in
      recv_packets l' g' iface'
  end.

(** The records a stored push carries: the positions the loop of
    [finish_alfred_push_data] stops at, each with its payload length. *)
Fixpoint carried_loop (fuel : nat) (pos : bytes) (len : Z)
    : list (bytes * Z) :=
  match fuel with
  | O => []
  | S fuel' =>
      if len <? sizeof_data then []
      else
        let data_len := get_u16 pos off_data_length in
        if data_len + sizeof_data >? len then []
        else
          (pos, data_len)
          :: carried_loop fuel'
               (skipn (Z.to_nat (sizeof_data + data_len)) pos)
               (len - (sizeof_data + data_len))
  end.

Definition carried (push : bytes) : list (bytes * Z) :=
  let len := get_u16 push off_length in
  if len <? sizeof_push - sizeof_tlv then []
  else
    let len := len - (sizeof_push - sizeof_tlv) in
    carried_loop (Z.to_nat len) (skipn off_push_data push) len.

Definition record_key (r : bytes * Z) : ether_addr * Z :=
  data_key (read_data (fst r)).
(** The merge of a list of records, one after the other, whatever each
    returns. *)
Fixpoint merge_all (mac : ether_addr) (l : list (bytes * Z)) (g : globals)
    (e : environ) : globals * environ :=
  match l with
  | [] => (g, e)
  | (pos, data_len) :: l' =>
      let '(_, g', e') := merge_record mac pos data_len g e in
      merge_all mac l' g' e'
  end.

(** The store holds record [r], received from [mac], as it was sent. *)
Definition stored_as_sent (mac : ether_addr) (h : list dataset)
    (r : bytes * Z) : Prop :=
  exists d,
    hash_find (same_data (read_data (fst r))) h = Some d
    /\ buf d = Some (read_payload (fst r) (snd r))
    /\ tlv_length (header (data d)) = snd r
    /\ tlv_version (header (data d)) = get_u8 (fst r) off_data_version
    /\ data_source d
       = if ether_addr_eqb mac (source (read_data (fst r)))
         then SOURCE_FIRST_HAND else SOURCE_SYNCED.

(** No LOCAL entry is stored under the key of record [r]. *)
Definition no_local_entry (h : list dataset) (r : bytes * Z) : Prop :=
  forall d, hash_find (same_data (read_data (fst r))) h = Some d ->
            data_source d <> SOURCE_LOCAL.

End Recv.

(** Modelled from the spec: [transaction_finished] of alfred.h, which is
    missing (section 4.2: "Completion predicate: expected_final_seqno != 0
    && received_count == expected_final_seqno"). *)
Definition transaction_complete (head : transaction_head) : bool :=
  negb (txend_packets head =? 0) && (num_packet head =? txend_packets head).

(** The datagrams of the events that [pick] selects in a trace, the
    earliest first. *)
Definition packets_of (pick : event -> option (packet * Z))
    (t : list event) : list (packet * Z) :=
  fold_left (fun acc ev =>
               match pick ev with
               | Some pn => pn :: acc
               | None => acc
               end) t [].

Definition handed_over (ev : event) : option (packet * Z) :=
  match ev with
  | EvSendPacket _ p n => Some (p, n)
  | _ => None
  end.

Definition given_to_sendto (ev : event) : option (packet * Z) :=
  match ev with
  | EvSendto _ _ p n => Some (p, n)
  | _ => None
  end.

(** The calls of [send_alfred_packet] in a trace. *)
Definition sent_packets (t : list event) : list (packet * Z) :=
  packets_of handed_over t.

(** The calls of [sendto] in a trace. *)
Definition wire_packets (t : list event) : list (packet * Z) :=
  packets_of given_to_sendto t.

Definition is_type (t : alfred_packet_type) (p : packet) : bool :=
  match pkt_type p, t with
  | ALFRED_PUSH_DATA, ALFRED_PUSH_DATA => true
  | ALFRED_ANNOUNCE_MASTER, ALFRED_ANNOUNCE_MASTER => true
  | ALFRED_REQUEST, ALFRED_REQUEST => true
  | ALFRED_STATUS_TXEND, ALFRED_STATUS_TXEND => true
  | _, _ => false
  end.

Definition set_opmode (g : globals) (m : opmode_t) : globals :=
  {| opmode := m; ipv4mode := ipv4mode g; data_hash := data_hash g;
     transaction_hash := transaction_hash g |}.

(** What the merge may do to a stored dataset: the key stays, and an entry
    of provenance LOCAL stays as it is. *)
Definition keeps (d d' : dataset) : Prop :=
  data_key (data d') = data_key (data d)
  /\ (data_source d = SOURCE_LOCAL -> d' = d).

(** What the merge may do to the store: entries are rewritten in place and
    new ones are added behind them. *)
Definition store_ext (h h' : list dataset) : Prop :=
  exists h1 extra, h' = h1 ++ extra /\ Forall2 keeps h h1.

(** What the merge leaves alone in [globals]. *)
Definition merge_frame (g g' : globals) : Prop :=
  opmode g' = opmode g /\ ipv4mode g' = ipv4mode g
  /\ transaction_hash g' = transaction_hash g
  /\ store_ext (data_hash g) (data_hash g').

(** Every allocation to come succeeds. *)
Definition allocations_succeed (e : environ) : Prop :=
  forallb (fun ok => ok) (heap e) = true.

(** Two records of the same transaction: the key [(server_addr, id)]. *)
Definition same_key (a b : transaction_head) : Prop :=
  server_addr b = server_addr a /\ id b = id a.

(** Every transaction of [h] is still in [h'], at its place. *)
Definition table_ext (h h' : list transaction_head) : Prop :=
  exists h1 extra, h' = h1 ++ extra /\ Forall2 same_key h h1.

(** The same transaction with the same fragments received. *)
Definition same_fragments (a b : transaction_head) : Prop :=
  same_key a b /\ packet_list b = packet_list a
  /\ num_packet b = num_packet a.

(** ** Vocabulary for the send path *)

(** Every datagram in event [ev] satisfies [ok]. *)
Definition event_within (ok : packet -> Z -> Prop) (ev : event) : Prop :=
  match ev with
  | EvSendPacket _ p n => ok p n
  | EvSendto _ _ p n => ok p n
  | _ => True
  end.

(** From [e] to [e'] the core handed exactly the datagrams [l], in this
    order, to [send_alfred_packet]. *)
Definition sends (e e' : environ) (l : list (packet * Z)) : Prop :=
  exists evs, trace e' = evs ++ trace e /\ sent_packets evs = l.

(** From [e] to [e'] [sendto] was called for exactly the datagrams [l], in
    this order. *)
Definition sends_on_wire (e e' : environ) (l : list (packet * Z)) : Prop :=
  exists evs, trace e' = evs ++ trace e /\ wire_packets evs = l.

(** From [e] to [e'] [sendto] was called for exactly the datagrams that
    were handed to [send_alfred_packet]. *)
Definition all_on_wire (e e' : environ) : Prop :=
  exists evs, trace e' = evs ++ trace e
              /\ wire_packets evs = sent_packets evs.

(** The interface has its socket and every [sendto] to come succeeds. *)
Definition network_up (iface : interface) (e : environ) : Prop :=
  0 <= netsock iface
  /\ Forall (fun r => match r with
                      | Sent n => 0 <= n
                      | Failed _ => False
                      end) (wire e).

(** From [e] to [e'] every datagram handed to [send_alfred_packet] or to
    [sendto] satisfies [ok]. *)
Definition sends_within (ok : packet -> Z -> Prop) (e e' : environ) : Prop :=
  exists evs, trace e' = evs ++ trace e /\ Forall (event_within ok) evs.

(** [l] are PUSH_DATA datagrams of transaction [tx_id] whose sequence
    numbers count up from [s] in 16 bits. *)
Fixpoint numbered (tx_id : Z) (s : Z) (l : list (packet * Z)) : Prop :=
  match l with
  | [] => True
  | (p, _) :: l' =>
      pkt_type p = ALFRED_PUSH_DATA /\ pkt_tx_id p = tx_id
      /\ pkt_seqno p = s /\ numbered tx_id (u16 (s + 1)) l'
  end.

(** The record of [d] does not fit an empty buffer. *)
Definition oversize {P : Platform} (d : dataset) : bool :=
  too_big {| total_length := 0; seqno := 0; records := [] |} d.

(** The length field of a stored dataset is a [uint16_t]. *)
Definition length_in_range (d : dataset) : Prop :=
  0 <= tlv_length (header (data d)) < 65536.

(** A dataset that [push_data] may put into a datagram: one of the store
    that the two tests of the loop let through and that fits an empty
    buffer. *)
Definition pushable {P : Platform} (g : globals)
    (max_source_level : data_source_t) (type_filter : Z) (d : dataset)
    : Prop :=
  In d (data_hash g) /\ passed_over max_source_level type_filter d = false
  /\ oversize d = false.

(** A datagram within the ceiling that carries pushable datasets only. *)
Definition within_payload {P : Platform} (g : globals)
    (max_source_level : data_source_t) (type_filter : Z) (p : packet)
    (n : Z) : Prop :=
  n <= MAX_PAYLOAD
  /\ Forall (pushable g max_source_level type_filter) (pkt_records p).

(** What holds of the buffer of [push_data] between two datasets. *)
Definition buffer_ok {P : Platform} (g : globals)
    (max_source_level : data_source_t) (type_filter : Z) (b : push_buffer)
    : Prop :=
  0 <= total_length b < 65536
  /\ sizeof_push + total_length b <= MAX_PAYLOAD
  /\ Forall (pushable g max_source_level type_filter) (records b).

(** ** Concrete data to run the model on *)

(** A little-endian Linux host: protocol version 0, the packet types
    numbered in the order of the enum, the provenance levels likewise,
    a sender's hardware address read off the tail of its address. *)
Definition example_platform : Platform :=
  {| ALFRED_VERSION := 0;
     MAX_PAYLOAD := 65527;
     NO_FILTER := -1;
     packet_type_of := fun t =>
       if t =? 0 then Some ALFRED_PUSH_DATA
       else if t =? 1 then Some ALFRED_ANNOUNCE_MASTER
       else if t =? 2 then Some ALFRED_REQUEST
       else if t =? 3 then Some ALFRED_STATUS_TXEND
       else None;
     source_level := fun s =>
       match s with
       | SOURCE_LOCAL => 0
       | SOURCE_FIRST_HAND => 1
       | SOURCE_SYNCED => 2
       end;
     htons := fun x => (x mod 256) * 256 + (x / 256) mod 256;
     ipv4_to_mac := fun _ a => Some (skipn 10 a);
     ipv6_to_mac := fun a => Some (skipn 10 a);
     is_ipv6_eui64 := fun _ => true;
     netsock_own_address := fun _ _ => false |}.

Definition mac_a : ether_addr := [2; 0; 0; 0; 0; 10].
Definition mac_b : ether_addr := [2; 0; 0; 0; 0; 11].
Definition addr_a : alfred_addr := [254; 128; 0; 0; 0; 0; 0; 0; 0; 0] ++ mac_a.

Definition example_interface : interface :=
  {| netsock := 3; netsock_mcast := 4; scope_id := 0; server_hash := [] |}.

Definition example_environ : environ :=
  {| clock := 100; heap := []; wire := []; trace := [] |}.

(** A dataset of type 5 that a local client of node B stored: "hi". *)
Definition local_entry : dataset :=
  {| data := {| source := mac_b;
                header := {| tlv_type := 5; tlv_version := 0;
                             tlv_length := 2 |} |};
     buf := Some [104; 105];
     data_source := SOURCE_LOCAL;
     last_seen := 50 |}.

(** One data record: source, type, version, length, payload. *)
Definition record_bytes (src : ether_addr) (type version : Z)
    (payload : bytes) : bytes :=
  src ++ [type; version; Z.of_nat (length payload) / 256;
          Z.of_nat (length payload) mod 256] ++ payload.

(** A PUSH_DATA datagram of transaction [tx_id] with the given records. *)
Definition push_bytes (tx_id seqno : Z) (records : bytes) : bytes :=
  [0; 0; (Z.of_nat (length records) + 4) / 256;
   (Z.of_nat (length records) + 4) mod 256;
   tx_id / 256; tx_id mod 256; seqno / 256; seqno mod 256] ++ records.

(** A STATUS_TXEND datagram. *)
Definition txend_bytes (tx_id seqno : Z) : bytes :=
  [3; 0; 0; 4; tx_id / 256; tx_id mod 256; seqno / 256; seqno mod 256].

(** A REQUEST datagram. *)
Definition request_bytes (type tx_id : Z) : bytes :=
  [2; 0; 0; 3; type; tx_id / 256; tx_id mod 256].

Definition master_globals (store : list dataset)
    (table : list transaction_head) : globals :=
  {| opmode := OPMODE_MASTER; ipv4mode := false; data_hash := store;
     transaction_hash := table |}.

Definition slave_globals (store : list dataset)
    (table : list transaction_head) : globals :=
  {| opmode := OPMODE_SLAVE; ipv4mode := false; data_hash := store;
     transaction_hash := table |}.

(** Transaction 7 of peer A: its terminator announced one fragment, none
    has arrived. *)
Definition head_a7 : transaction_head :=
  {| server_addr := mac_a; id := 7; requested_type := 0; txend_packets := 1;
     num_packet := 0; client_socket := -1; last_rx_time := 90;
     packet_list := [] |}.

(** Peer A pushes a dataset under the key of B's local entry. *)
Definition push_over_local : bytes :=
  push_bytes 7 0 (record_bytes mac_b 5 0 [1; 2; 3]).

Definition arrival_over_local : arrival :=
  {| arrival_environ := example_environ; arrival_source := addr_a;
     arrival_buf := push_over_local; arrival_length := 21 |}.

(** Peer A pushes one dataset of its own. *)
Definition push_one : bytes :=
  push_bytes 7 0 (record_bytes mac_a 9 0 [1; 2; 3]).

(** Peer A pushes two records under one key in one fragment. *)
Definition rec_old : bytes := record_bytes mac_a 9 0 [1].
Definition rec_new : bytes := record_bytes mac_a 9 0 [2].
Definition push_twice : bytes := push_bytes 7 0 (rec_old ++ rec_new).

Definition head_twice : transaction_head :=
  {| server_addr := mac_a; id := 7; requested_type := 0; txend_packets := 1;
     num_packet := 1; client_socket := -1; last_rx_time := 90;
     packet_list := [push_twice] |}.

(** The dataset and its bucket are allocated, the payload buffer is not. *)
Definition environ_no_buffer_merge : environ :=
  {| clock := 100; heap := [true; true; false]; wire := []; trace := [] |}.

(** The allocations of one push succeed up to the payload buffer of its
    record: transaction packet, copy of the push, dataset, bucket, buffer. *)
Definition environ_no_buffer : environ :=
  {| clock := 100; heap := [true; true; true; true; false]; wire := [];
     trace := [] |}.

(** The transaction record and its bucket are allocated, the transaction
    packet is not. *)
Definition environ_no_packet : environ :=
  {| clock := 100; heap := [true; true; false]; wire := []; trace := [] |}.

(** The next [sendto] fails with ENETUNREACH. *)
Definition environ_unreachable : environ :=
  {| clock := 100; heap := []; wire := [Failed ENETUNREACH]; trace := [] |}.

(** A store of 65536 datasets of 40000 bytes each, no two of which fit one
    datagram. *)
Definition big_dataset (payload : bytes) (len : Z) (i : Z) : dataset :=
  {| data := {| source := [2; 0; 0; 0; i / 256; i mod 256];
                header := {| tlv_type := 9; tlv_version := 0;
                             tlv_length := len |} |};
     buf := Some payload;
     data_source := SOURCE_FIRST_HAND;
     last_seen := 0 |}.

Fixpoint big_store_from (payload : bytes) (len : Z) (n : nat) (i : Z)
    : list dataset :=
  match n with
  | O => []
  | S n' =>
      big_dataset payload len i :: big_store_from payload len n' (i + 1)
  end.

Definition big_store : list dataset :=
  let payload := repeat 0 (Z.to_nat 40000) in
  let len := Z.of_nat (length payload) in
  big_store_from payload len (Z.to_nat 65536) 0.

Definition count_type (t : alfred_packet_type) (l : list (packet * Z)) : Z :=
  Z.of_nat (length (filter (fun pn => is_type t (fst pn)) l)).

(** A REQUEST for the datasets of type 42, as transaction 7. *)
Definition request_type42 : bytes := request_bytes 42 7.

(** The store of node A: one dataset of its own of type 10. *)
Definition entry_a10 : dataset :=
  {| data := {| source := mac_a;
                header := {| tlv_type := 10; tlv_version := 0;
                             tlv_length := 3 |} |};
     buf := Some [1; 2; 3];
     data_source := SOURCE_FIRST_HAND;
     last_seen := 60 |}.

(** Transaction 7 of peer A with the fragment of seqno 0 received. *)
Definition head_with_fragment : transaction_head :=
  {| server_addr := mac_a; id := 7; requested_type := 0; txend_packets := 0;
     num_packet := 1; client_socket := -1; last_rx_time := 90;
     packet_list := [push_one] |}.

(** ** Invariants of the tables *)

Definition transaction_key (h : transaction_head) : ether_addr * Z :=
  (server_addr h, id h).

Definition fragment_seqno (push : bytes) : Z := get_u16 push off_tx_seqno.

(** A transaction record as the handlers keep it: the count is the number
    of stored fragments, no two fragments have one seqno, and every stored
    fragment has the transaction fields that [process_alfred_push_data]
    tested for. *)
Definition head_ok (h : transaction_head) : Prop :=
  num_packet h = Z.of_nat (length (packet_list h))
  /\ NoDup (map fragment_seqno (packet_list h))
  /\ Forall (fun push => sizeof_push - sizeof_tlv <= get_u16 push off_length)
            (packet_list h).

(** A transaction table with one record per [(server_addr, id)]. *)
Definition table_ok (th : list transaction_head) : Prop :=
  NoDup (map transaction_key th) /\ Forall head_ok th.

(** A dataset store with one entry per [(source, type)]. *)
Definition store_unique (h : list dataset) : Prop :=
  NoDup (map (fun d => data_key (data d)) h).

(** A peer table with one entry per hardware address. *)
Definition servers_unique (h : list server) : Prop :=
  NoDup (map hwaddr h).

(** ** What a handler does to the outside *)

(** The calls that stay on the node: [changed_data_type] and
    [unix_sock_req_data_finish]. *)
Definition local_event (ev : event) : Prop :=
  match ev with
  | EvChanged _ | EvReqFinish _ => True
  | _ => False
  end.

(** From [e] to [e'] nothing went to the network: no datagram was taken
    from the outcomes of [sendto], the clock was only read, and the calls
    made were local ones. *)
Definition quietly (e e' : environ) : Prop :=
  wire e' = wire e
  /\ clock e' = clock e
  /\ exists evs : list event,
       trace e' = evs ++ trace e /\ Forall local_event evs.

(** ** What [push_data] puts into its datagrams *)

(** The bytes a dataset takes in a PUSH_DATA datagram: its record header
    and its payload (line 96). *)
Definition record_size (d : dataset) : Z :=
  tlv_length (header (data d)) + sizeof_data.

Definition records_size (l : list dataset) : Z :=
  fold_right (fun d acc => record_size d + acc) 0 l.

(** The datasets in a sequence of datagrams, in the order of sending. *)
Definition carried_records (l : list (packet * Z)) : list dataset :=
  flat_map (fun pn => pkt_records (fst pn)) l.

(** The datasets the loop of [push_data] does not pass over: the two tests
    of lines 61-66 let them through and their record fits a datagram. *)
Definition sendable {P : Platform} (max_source_level : data_source_t)
    (type_filter : Z) (d : dataset) : bool :=
  negb (passed_over max_source_level type_filter d) && negb (oversize d).

(** A datagram whose lengths say what it holds: the length given to
    [send_alfred_packet] is the header and the records, the length field is
    what follows the TLV header, and a PUSH_DATA datagram is not empty. *)
Definition datagram_exact {P : Platform} (pn : packet * Z) : Prop :=
  snd pn <= MAX_PAYLOAD
  /\ pkt_length (fst pn) = snd pn - sizeof_tlv
  /\ match pkt_type (fst pn) with
     | ALFRED_PUSH_DATA =>
         pkt_records (fst pn) <> []
         /\ snd pn = sizeof_push + records_size (pkt_records (fst pn))
     | _ => pkt_records (fst pn) = [] /\ snd pn = sizeof_status
     end.

(** The buffer of [push_data] between two datasets, its fill being the
    size of the records in it. *)
Definition buffer_exact {P : Platform} (b : push_buffer) : Prop :=
  total_length b = records_size (records b)
  /\ sizeof_push + total_length b <= MAX_PAYLOAD
  /\ Forall length_in_range (records b).

(** ** The sockets across a push *)

Definition is_handover (ev : event) : Prop :=
  match ev with
  | EvSendPacket _ _ _ => True
  | _ => False
  end.

Definition is_close (ev : event) : Prop :=
  match ev with
  | EvClose _ => True
  | _ => False
  end.

(** What sending does to an interface from [(iface, e)] to [(iface', e')].
    On an interface without socket nothing reaches [sendto] or [close], no
    outcome of [sendto] is used up and the interface stays as it is.  On
    one with a socket either nothing is closed and the interface stays as
    it is, or both sockets are closed, once, right after a [sendto], and
    set to -1, and what follows is handed to [send_alfred_packet] and goes
    no further. *)
Definition send_phase (iface : interface) (e : environ)
    (iface' : interface) (e' : environ) : Prop :=
  exists evs : list event,
    trace e' = evs ++ trace e
    /\ if netsock iface <? 0
       then iface' = iface /\ wire e' = wire e /\ Forall is_handover evs
       else
         (iface' = iface /\ Forall (fun ev => ~ is_close ev) evs)
         \/ (iface' = set_sockets iface (-1) (-1)
             /\ exists (after before : list event) (dest : alfred_addr)
                       (p : packet) (n : Z),
                  evs = after
                        ++ EvClose (netsock_mcast iface)
                           :: EvClose (netsock iface)
                           :: EvSendto (netsock iface) dest p n :: before
                  /\ Forall is_handover after
                  /\ Forall (fun ev => ~ is_close ev) before).

(** ** The periodic triggers of send.c *)

(** The datagram of an event that goes to [send_alfred_packet] or to
    [sendto], with its destination, satisfies [ok]. *)
Definition handed_to (ok : alfred_addr -> packet -> Z -> Prop) (ev : event)
    : Prop :=
  match ev with
  | EvSendPacket dest p n => ok dest p n
  | EvSendto _ dest p n => ok dest p n
  | _ => True
  end.

(** From [e] to [e'] every datagram handed to [send_alfred_packet] or to
    [sendto] satisfies [ok]. *)
Definition all_sent (ok : alfred_addr -> packet -> Z -> Prop)
    (e e' : environ) : Prop :=
  exists evs, trace e' = evs ++ trace e /\ Forall (handed_to ok) evs.

(** Modelled from the spec: [get_random_id] of the collaborators (section 6:
    [random_tx_id() -> u16]).  [ids] are the ids to come, 0 once the list is
    used up. *)
Definition get_random_id (ids : list Z) : Z * list Z :=
  match ids with
  | [] => (0, [])
  | i :: rest => (u16 i, rest)
  end.

(** The announcement of lines 28-30: the header alone, its length field 0.
    It has neither transaction fields nor records. *)
Definition announce_packet : packet :=
  {| pkt_type := ALFRED_ANNOUNCE_MASTER;
     pkt_length := 0;
     pkt_tx_id := 0;
     pkt_seqno := 0;
     pkt_records := [] |}.

Definition has_socket (iface : interface) : bool := negb (netsock iface <? 0).

(** What a send may do to an interface: nothing, or set both sockets
    to -1. *)
Definition sockets_only (iface iface' : interface) : Prop :=
  iface' = iface
  \/ (0 <= netsock iface /\ iface' = set_sockets iface (-1) (-1)).

Section Periodic.
Context {P : Platform}.

(** [announce_master].  [globals->interfaces] is the list [ifaces], whose
    interfaces [send_alfred_packet] updates in place.
    Modelled from the spec: [alfred_mcast], the multicast address of
    section 6, is defined outside src/ and given as [mcast]. *)
Fixpoint announce_master_loop (mcast : alfred_addr) (ifaces : list interface)
    (e : environ) : list interface * environ :=
  match ifaces with
  | [] => ([], e)
  | iface :: rest =>
      let '(_, iface', e1) :=
        send_alfred_packet iface e mcast announce_packet sizeof_tlv in
      let '(rest', e2) := announce_master_loop mcast rest e1 in
      (iface' :: rest', e2)
  end.

Definition announce_master (mcast : alfred_addr) (ifaces : list interface)
    (e : environ) : Z * list interface * environ :=
  let '(ifaces', e') := announce_master_loop mcast ifaces e in
  (0, ifaces', e').

(** The [while] loop of [sync_data] over the servers of one interface;
    [get_random_id()] is evaluated for the call of [push_data]. *)
Fixpoint sync_servers (g : globals) (servers : list server)
    (iface : interface) (e : environ) (ids : list Z)
    : interface * environ * list Z :=
  match servers with
  | [] => (iface, e, ids)
  | srv :: rest =>
      let (tx_id, ids1) := get_random_id ids in
      let '(_, iface1, e1) :=
        push_data g iface e (address srv) SOURCE_FIRST_HAND NO_FILTER tx_id in
      sync_servers g rest iface1 e1 ids1
  end.

Fixpoint sync_data_loop (g : globals) (ifaces : list interface)
    (e : environ) (ids : list Z) : list interface * environ * list Z :=
  match ifaces with
  | [] => ([], e, ids)
  | iface :: rest =>
      let '(iface1, e1, ids1) :=
        sync_servers g (server_hash iface) iface e ids in
      let '(rest', e2, ids2) := sync_data_loop g rest e1 ids1 in
      (iface1 :: rest', e2, ids2)
  end.

(** [sync_data]; [globals->interfaces] is the list [ifaces]. *)
Definition sync_data (g : globals) (ifaces : list interface) (e : environ)
    (ids : list Z) : Z * list interface * environ * list Z :=
  let '(ifaces', e', ids') := sync_data_loop g ifaces e ids in
  (0, ifaces', e', ids').

Fixpoint push_local_data_loop (g : globals) (best : server)
    (ifaces : list interface) (e : environ) (ids : list Z)
    : list interface * environ * list Z :=
  match ifaces with
  | [] => ([], e, ids)
  | iface :: rest =>
      let (tx_id, ids1) := get_random_id ids in
      let '(_, iface1, e1) :=
        push_data g iface e (address best) SOURCE_LOCAL NO_FILTER tx_id in
      let '(rest', e2, ids2) := push_local_data_loop g best rest e1 ids1 in
      (iface1 :: rest', e2, ids2)
  end.

(** [push_local_data]; [globals->best_server] is [best_server], [None] for
    NULL, and [globals->interfaces] is the list [ifaces]. *)
Definition push_local_data (g : globals) (best_server : option server)
    (ifaces : list interface) (e : environ) (ids : list Z)
    : Z * list interface * environ * list Z :=
  match best_server with
  | None => (-1, ifaces, e, ids)
  | Some best =>
      let '(ifaces', e', ids') :=
        push_local_data_loop g best ifaces e ids in
      (0, ifaces', e', ids')
  end.

(** A dataset of the store that the tests of lines 61-66 let through. *)
Definition let_through (g : globals) (max_source_level : data_source_t)
    (type_filter : Z) (d : dataset) : Prop :=
  In d (data_hash g)
  /\ passed_over max_source_level type_filter d = false.

(** A dataset of the store whose provenance is [max_source_level] or
    better. *)
Definition known_as (g : globals) (max_source_level : data_source_t)
    (d : dataset) : Prop :=
  In d (data_hash g)
  /\ source_level (data_source d) <= source_level max_source_level.
End Periodic.

(** ** The bytes of a PUSH_DATA datagram *)

(** A 16-bit field as [htons] leaves it in the buffer. *)
Definition be16 (z : Z) : bytes := [z / 256 mod 256; z mod 256].

(** Lines 90-94 of [push_data]: the record of a dataset in the buffer, its
    header with the length in network byte order, then the payload. *)
Definition dataset_bytes (d : dataset) : bytes :=
  source (data d)
  ++ [tlv_type (header (data d)); tlv_version (header (data d))]
  ++ be16 (tlv_length (header (data d)))
  ++ match buf d with
     | Some payload =>
         firstn (Z.to_nat (tlv_length (header (data d)))) payload
     | None => []
     end.

(** The buffer [push_data] gives to [send_alfred_packet] (lines 54-56,
    78-79): the TLV header, the transaction fields and the records.
    [type_byte] is the number of the packet type.  [tx.id] is stored as the
    caller gave it: a raw 16-bit value is kept here, as where
    [process_alfred_request] takes it from the request, as the big-endian
    reading of its two bytes. *)
Definition packet_bytes {P : Platform} (type_byte : Z) (p : packet) : bytes :=
  [type_byte; ALFRED_VERSION]
  ++ be16 (pkt_length p) ++ be16 (pkt_tx_id p) ++ be16 (pkt_seqno p)
  ++ flat_map dataset_bytes (pkt_records p).

(** A stored dataset that [push_data] can copy: a hardware address of six
    bytes, header fields of their widths, and a buffer of the stored
    length. *)
Definition record_ready (d : dataset) : Prop :=
  length (source (data d)) = 6%nat
  /\ 0 <= tlv_type (header (data d)) < 256
  /\ 0 <= tlv_version (header (data d)) < 256
  /\ 0 <= tlv_length (header (data d)) < 65536
  /\ exists payload,
       buf d = Some payload
       /\ Z.of_nat (length payload) = tlv_length (header (data d)).

(** The positions of the records in the record area of a datagram, each
    with its payload length. *)
Fixpoint record_positions (ds : list dataset) : list (bytes * Z) :=
  match ds with
  | [] => []
  | d :: ds' =>
      (dataset_bytes d ++ flat_map dataset_bytes ds',
       tlv_length (header (data d)))
      :: record_positions ds'
  end.

(** ** Buffers as long as their length field *)

(** The buffer of a dataset is there and as long as the stored length says:
    what the [memcpy] of line 94 of send.c relies on. *)
Definition buffer_matches (d : dataset) : Prop :=
  exists payload,
    buf d = Some payload
    /\ Z.of_nat (length payload) = tlv_length (header (data d)).

(** A fragment that holds the bytes its length field announces. *)
Definition fragment_whole (push : bytes) : Prop :=
  get_u16 push off_length + sizeof_tlv <= Z.of_nat (length push).

Definition fragments_whole (th : list transaction_head) : Prop :=
  Forall (fun h => Forall fragment_whole (packet_list h)) th.

(** Both tables in order. *)
Definition buffers_in_order (g : globals) : Prop :=
  Forall buffer_matches (data_hash g) /\ fragments_whole (transaction_hash g).

(** A record with its header and payload inside the buffer it lies in. *)
Definition has_room (r : bytes * Z) : Prop :=
  0 <= snd r /\ sizeof_data + snd r <= Z.of_nat (length (fst r)).

(** A datagram that meets memory for its allocations, [recvfrom] reporting
    no more bytes than it wrote. *)
Definition arrival_in_order (a : arrival) : Prop :=
  allocations_succeed (arrival_environ a)
  /\ arrival_length a <= Z.of_nat (length (arrival_buf a)).

(** [d] with [last_seen] read anew (line 74). *)
Definition seen_at (d : dataset) (now : Z) : dataset :=
  {| data := data d; buf := buf d; data_source := data_source d;
     last_seen := now |}.

(** ** More concrete data *)

(** An ANNOUNCE_MASTER datagram. *)
Definition announce_bytes : bytes := [1; 0; 0; 0].

(** The push of peer A with two bytes behind the announced length. *)
Definition push_one_padded : bytes := push_one ++ [9; 9].


(** The datagram [push_data] builds for the one dataset of node A. *)
Definition packet_of_a10 : packet :=
  push_packet 7 {| total_length := 13; seqno := 0; records := [entry_a10] |}.

(** Peer B as node A knows it. *)
Definition addr_b : alfred_addr := [254; 128; 0; 0; 0; 0; 0; 0; 0; 0] ++ mac_b.

Definition server_b : server :=
  {| hwaddr := mac_b; address := addr_b; tq := 255; srv_last_seen := 80 |}.

Definition interface_with_b : interface :=
  {| netsock := 3; netsock_mcast := 4; scope_id := 0;
     server_hash := [server_b] |}.

(** The push of peer A as it arrives. *)
Definition arrival_one : arrival :=
  {| arrival_environ := example_environ; arrival_source := addr_a;
     arrival_buf := push_one; arrival_length := 21 |}.

(** A later run, with memory at hand. *)
Definition environ_later : environ :=
  {| clock := 250; heap := []; wire := []; trace := [] |}.

(** * Properties *)

(** ** Basic facts *)

Lemma bytes_eqb_eq (a b : bytes) : bytes_eqb a b = true <-> a = b.
Proof.
  revert b; induction a as [|x a IH]; intros [|y b]; simpl;
    try (split; [discriminate | congruence]); try tauto.
  rewrite andb_true_iff, Z.eqb_eq, IH. split.
  - intros [-> ->]; reflexivity.
  - intros H; injection H; auto.
Qed.

Lemma bytes_eqb_refl (a : bytes) : bytes_eqb a a = true.
Proof. apply bytes_eqb_eq; reflexivity. Qed.

Lemma data_key_eqb_eq (k1 k2 : ether_addr * Z) :
  data_key_eqb k1 k2 = true <-> k1 = k2.
Proof.
  destruct k1 as [a t], k2 as [b u]; unfold data_key_eqb, ether_addr_eqb;
    simpl.
  rewrite andb_true_iff, bytes_eqb_eq, Z.eqb_eq. split.
  - intros [-> ->]; reflexivity.
  - intros H; injection H; auto.
Qed.

Lemma same_transaction_eq (mac : ether_addr) (tx_id : Z)
    (h : transaction_head) :
  same_transaction mac tx_id h = true <-> server_addr h = mac /\ id h = tx_id.
Proof.
  unfold same_transaction, ether_addr_eqb.
  rewrite andb_true_iff, bytes_eqb_eq, Z.eqb_eq; tauto.
Qed.

Lemma get_u8_range (b : bytes) (off : nat) : 0 <= get_u8 b off < 256.
Proof. unfold get_u8; apply Z.mod_pos_bound; lia. Qed.

Lemma get_u16_range (b : bytes) (off : nat) : 0 <= get_u16 b off < 65536.
Proof.
  unfold get_u16.
  pose proof (get_u8_range b off); pose proof (get_u8_range b (S off)); lia.
Qed.

Lemma malloc_trace (e e' : environ) (ok : bool) :
  malloc e = (ok, e') -> trace e' = trace e /\ clock e' = clock e
                         /\ wire e' = wire e.
Proof.
  unfold malloc; destruct (heap e); intros H; inversion H; subst; simpl;
    auto.
Qed.

(** ** Hash tables *)

Section HashFacts.
Context {A : Type} (same : A -> bool).

Lemma hash_find_same (h : list A) (x : A) :
  hash_find same h = Some x -> same x = true.
Proof. intros H; apply find_some in H; tauto. Qed.

Lemma hash_find_app_None (h : list A) (v : A) :
  hash_find same h = None -> same v = true ->
  hash_find same (h ++ [v]) = Some v.
Proof.
  unfold hash_find; induction h as [|x h IH]; simpl; intros Hn Hv.
  - rewrite Hv; reflexivity.
  - destruct (same x); [discriminate | auto].
Qed.

Lemma hash_find_app_Some (h l : list A) (x : A) :
  hash_find same h = Some x -> hash_find same (h ++ l) = Some x.
Proof.
  unfold hash_find; induction h as [|y h IH]; simpl; [discriminate|].
  destruct (same y); auto.
Qed.

Lemma hash_set_find (h : list A) (x v : A) :
  hash_find same h = Some x -> same v = true ->
  hash_find same (hash_set same h v) = Some v.
Proof.
  unfold hash_find; induction h as [|y h IH]; simpl; [discriminate|].
  intros Hf Hv. destruct (same y) eqn:Hy; simpl.
  - rewrite Hv; reflexivity.
  - rewrite Hy; auto.
Qed.

(** A write through the pointer that [hash_find] returned relates the table
    pointwise to what it was. *)
Lemma hash_set_Forall2 (R : A -> A -> Prop) (h : list A) (x v : A) :
  (forall y, R y y) -> hash_find same h = Some x -> R x v ->
  Forall2 R h (hash_set same h v).
Proof.
  intros Hrefl. unfold hash_find.
  induction h as [|y h IH]; simpl; [discriminate|].
  intros Hf Hv. destruct (same y) eqn:Hy.
  - injection Hf as ->. constructor; [assumption|].
    clear IH. induction h; constructor; auto.
  - constructor; auto.
Qed.

Lemma Forall2_hash_find (R : A -> A -> Prop) (h h' : list A) :
  (forall a b, R a b -> same b = same a) -> Forall2 R h h' ->
  match hash_find same h with
  | Some a => exists b, hash_find same h' = Some b /\ R a b
  | None => hash_find same h' = None
  end.
Proof.
  intros Hk HF. unfold hash_find.
  induction HF as [|a b h h' Hab HF IH]; simpl; [reflexivity|].
  rewrite (Hk _ _ Hab). destruct (same a); [eauto | exact IH].
Qed.

Lemma hash_set_find_other (other : A -> bool) (h : list A) (v : A) :
  other v = false -> (forall y, same y = true -> other y = false) ->
  hash_find other (hash_set same h v) = hash_find other h.
Proof.
  intros Hv Hd. unfold hash_find.
  induction h as [|y h IH]; simpl; [reflexivity|].
  destruct (same y) eqn:Hy; simpl.
  - rewrite Hv, (Hd y Hy). reflexivity.
  - rewrite IH. reflexivity.
Qed.

Lemma hash_find_app (h l : list A) :
  hash_find same (h ++ l)
  = match hash_find same h with
    | Some x => Some x
    | None => hash_find same l
    end.
Proof.
  unfold hash_find; induction h as [|y h IH]; simpl; [reflexivity|].
  destruct (same y); auto.
Qed.

Lemma hash_remove_find_None (other : A -> bool) (h : list A) :
  hash_find other h = None -> hash_find other (hash_remove same h) = None.
Proof.
  unfold hash_find; induction h as [|y h IH]; simpl; [reflexivity|].
  destruct (other y) eqn:Hy; [discriminate|]. intros Hf.
  destruct (same y); simpl; [assumption|]. rewrite Hy; auto.
Qed.
End HashFacts.

(** ** The merge into the dataset store *)

Lemma keeps_refl (d : dataset) : keeps d d.
Proof. split; auto. Qed.

Lemma keeps_trans (a b c : dataset) : keeps a b -> keeps b c -> keeps a c.
Proof.
  intros [K1 L1] [K2 L2]. split; [congruence|].
  intros HL. specialize (L1 HL). subst b. auto.
Qed.

Lemma Forall2_keeps_refl (h : list dataset) : Forall2 keeps h h.
Proof. induction h; constructor; auto using keeps_refl. Qed.

Lemma Forall2_keeps_trans (a b c : list dataset) :
  Forall2 keeps a b -> Forall2 keeps b c -> Forall2 keeps a c.
Proof.
  intros H; revert c; induction H; intros c Hc; inversion Hc; subst;
    constructor; eauto using keeps_trans.
Qed.

Lemma store_ext_refl (h : list dataset) : store_ext h h.
Proof.
  exists h, []. rewrite app_nil_r. auto using Forall2_keeps_refl.
Qed.

Lemma store_ext_app (h l : list dataset) : store_ext h (h ++ l).
Proof. exists h, l. auto using Forall2_keeps_refl. Qed.

Lemma store_ext_trans (a b c : list dataset) :
  store_ext a b -> store_ext b c -> store_ext a c.
Proof.
  intros (b1 & xb & -> & Hab) (c1 & xc & -> & Hbc).
  apply Forall2_app_inv_l in Hbc as (c1a & c1b & H1 & H2 & ->).
  exists c1a, (c1b ++ xc). rewrite app_assoc. split; [reflexivity|].
  eauto using Forall2_keeps_trans.
Qed.

Lemma store_ext_Forall2 (h h' : list dataset) :
  Forall2 keeps h h' -> store_ext h h'.
Proof. intros H; exists h', []. rewrite app_nil_r; auto. Qed.

Lemma merge_frame_refl (g : globals) : merge_frame g g.
Proof. unfold merge_frame; auto using store_ext_refl. Qed.

Lemma merge_frame_trans (a b c : globals) :
  merge_frame a b -> merge_frame b c -> merge_frame a c.
Proof.
  unfold merge_frame. intros (?&?&?&?) (?&?&?&?).
  repeat split; try congruence. eauto using store_ext_trans.
Qed.

Lemma same_data_keeps (k : alfred_data) (d d' : dataset) :
  keeps d d' -> same_data k d' = same_data k d.
Proof. intros [K _]. unfold same_data. rewrite K. reflexivity. Qed.

(** A LOCAL entry stays where it is and stays what a lookup returns. *)
Lemma store_ext_In (h h' : list dataset) (d : dataset) :
  store_ext h h' -> In d h -> data_source d = SOURCE_LOCAL -> In d h'.
Proof.
  intros (h1 & extra & -> & HF) Hin HL. apply in_or_app; left.
  induction HF as [|a b h h1 [_ Hab] HF IH]; [contradiction|].
  destruct Hin as [->|Hin].
  - left. apply Hab. assumption.
  - right. apply IH. assumption.
Qed.

Lemma store_ext_find (h h' : list dataset) (k : alfred_data) (d : dataset) :
  store_ext h h' -> hash_find (same_data k) h = Some d ->
  data_source d = SOURCE_LOCAL -> hash_find (same_data k) h' = Some d.
Proof.
  intros (h1 & extra & -> & HF) Hf HL.
  pose proof (Forall2_hash_find (same_data k) keeps h h1
                (same_data_keeps k) HF) as H.
  rewrite Hf in H. destruct H as (b & Hb & [_ Hl]).
  rewrite (Hl HL) in Hb. apply hash_find_app_Some; assumption.
Qed.

Section MergeFacts.
Context {P : Platform}.

Lemma same_data_refl (k : alfred_data) (b : option bytes)
    (s : data_source_t) (t : Z) :
  same_data k {| data := k; buf := b; data_source := s; last_seen := t |}
  = true.
Proof. unfold same_data; simpl. apply data_key_eqb_eq; reflexivity. Qed.

Lemma find_or_create_spec (rec : alfred_data) (g g1 : globals)
    (e e1 : environ) (r : option (dataset * bool)) :
  find_or_create rec g e = (r, g1, e1) ->
  merge_frame g g1 /\ trace e1 = trace e /\ clock e1 = clock e
  /\ wire e1 = wire e
  /\ match r with
     | Some (ds, new_entry_created) =>
         hash_find (same_data rec) (data_hash g1) = Some ds
         /\ if new_entry_created
            then hash_find (same_data rec) (data_hash g) = None
                 /\ ds = {| data := rec; buf := None;
                            data_source := SOURCE_SYNCED; last_seen := 0 |}
                 /\ data_hash g1 = data_hash g ++ [ds]
            else g1 = g /\ e1 = e
     | None => g1 = g
     end.
Proof.
  unfold find_or_create, hash_add.
  destruct (hash_find (same_data rec) (data_hash g)) as [ds|] eqn:Hf.
  - intros H; inversion H; subst. auto 10 using merge_frame_refl.
  - destruct (malloc e) as [ok ea] eqn:Ha.
    apply malloc_trace in Ha as (Ht & Hc & Hw).
    destruct ok; simpl.
    + destruct (malloc ea) as [ok2 eb] eqn:Hb.
      apply malloc_trace in Hb as (Ht2 & Hc2 & Hw2).
      destruct ok2; intros H; inversion H; subst.
      * repeat split; simpl; try congruence.
        -- apply store_ext_app.
        -- apply hash_find_app_None; [assumption | apply same_data_refl].
      * repeat split; try congruence; apply store_ext_refl.
    + intros H; inversion H; subst.
      repeat split; try congruence; apply store_ext_refl.
Qed.

Lemma merge_record_frame (mac : ether_addr) (pos : bytes) (data_len : Z)
    (g g' : globals) (e e' : environ) (ok : bool) :
  merge_record mac pos data_len g e = (ok, g', e') -> merge_frame g g'.
Proof.
  unfold merge_record.
  destruct (find_or_create (read_data pos) g e) as [[r g1] e1] eqn:Hfc.
  apply find_or_create_spec in Hfc as (Hfr & _ & _ & _ & Hr).
  destruct r as [[ds new_entry_created]|].
  2:{ intros H; inversion H; subst. apply merge_frame_refl. }
  destruct Hr as [Hfind _].
  destruct (data_source_eqb (data_source ds) SOURCE_LOCAL) eqn:Hloc.
  { intros H; inversion H; subst; assumption. }
  match goal with |- context [malloc ?x] => destruct (malloc x) as [ok' e3] end.
  assert (Hnl : data_source ds <> SOURCE_LOCAL)
    by (intros Hc; rewrite Hc in Hloc; discriminate).
  destruct ok'; simpl; intros H; inversion H; subst;
    (eapply merge_frame_trans; [exact Hfr|]);
    unfold merge_frame, set_data_hash; simpl; repeat split;
    apply store_ext_Forall2;
    (eapply hash_set_Forall2; [apply keeps_refl | exact Hfind |]);
    split; simpl; try reflexivity; intros; contradiction.
Qed.

Lemma finish_alfred_push_data_loop_frame (fuel : nat) (mac : ether_addr) :
  forall (pos : bytes) (len : Z) (g g' : globals) (e e' : environ) (r : Z),
  finish_alfred_push_data_loop fuel mac pos len g e = (r, g', e') ->
  merge_frame g g'.
Proof.
  induction fuel as [|fuel IH]; simpl; intros pos len g g' e e' r.
  - intros H; inversion H; subst; apply merge_frame_refl.
  - destruct (len <? sizeof_data);
      [intros H; inversion H; subst; apply merge_frame_refl|].
    destruct (get_u16 pos off_data_length + sizeof_data >? len);
      [intros H; inversion H; subst; apply merge_frame_refl|].
    destruct (merge_record mac pos (get_u16 pos off_data_length) g e)
      as [[ok g1] e1] eqn:Hm.
    apply merge_record_frame in Hm.
    destruct ok.
    + intros H. apply IH in H. eauto using merge_frame_trans.
    + intros H; inversion H; subst; assumption.
Qed.

Lemma finish_alfred_push_data_frame (mac : ether_addr) (push : bytes)
    (g g' : globals) (e e' : environ) (r : Z) :
  finish_alfred_push_data g e mac push = (r, g', e') -> merge_frame g g'.
Proof.
  unfold finish_alfred_push_data.
  destruct (get_u16 push off_length <? sizeof_push - sizeof_tlv).
  - intros H; inversion H; subst; apply merge_frame_refl.
  - apply finish_alfred_push_data_loop_frame.
Qed.

Lemma deliver_frame (l : list bytes) (mac : ether_addr) :
  forall (g g' : globals) (e e' : environ),
  deliver l mac g e = (g', e') -> merge_frame g g'.
Proof.
  induction l as [|push l IH]; simpl; intros g g' e e'.
  - intros H; inversion H; subst; apply merge_frame_refl.
  - destruct (finish_alfred_push_data g e mac push) as [[r g1] e1] eqn:Hp.
    apply finish_alfred_push_data_frame in Hp.
    intros H; apply IH in H. eauto using merge_frame_trans.
Qed.
End MergeFacts.

(** ** The store across the handlers *)

Section StoreAcrossHandlers.
Context {P : Platform}.
Variable transaction_finished : transaction_head -> bool.

Lemma transaction_add_data_hash (g g' : globals) (e e' : environ)
    (mac : ether_addr) (tx_id : Z) (r : option transaction_head) :
  transaction_add g e mac tx_id = (r, g', e') ->
  data_hash g' = data_hash g /\ opmode g' = opmode g
  /\ ipv4mode g' = ipv4mode g /\ trace e' = trace e /\ clock e' = clock e.
Proof.
  unfold transaction_add, hash_add.
  destruct (malloc e) as [ok e1] eqn:H1.
  apply malloc_trace in H1 as (Ht1 & Hc1 & _).
  destruct ok; simpl.
  - destruct (malloc e1) as [ok2 e2] eqn:H2.
    apply malloc_trace in H2 as (Ht2 & Hc2 & _).
    destruct ok2; intros H; inversion H; subst; simpl;
      repeat split; congruence.
  - intros H; inversion H; subst; repeat split; congruence.
Qed.

Lemma find_or_add_transaction_data_hash (g g' : globals) (e e' : environ)
    (mac : ether_addr) (tx_id : Z) (may_create : bool)
    (r : option transaction_head) :
  find_or_add_transaction g e mac tx_id may_create = (r, g', e') ->
  data_hash g' = data_hash g /\ opmode g' = opmode g
  /\ ipv4mode g' = ipv4mode g /\ trace e' = trace e /\ clock e' = clock e.
Proof.
  unfold find_or_add_transaction.
  destruct (hash_find _ _).
  - intros H; inversion H; subst; auto.
  - destruct (opmode g) eqn:Hm; rewrite <- Hm;
      [intros H; inversion H; subst; auto|].
    destruct may_create; [apply transaction_add_data_hash|].
    intros H; inversion H; subst; auto.
Qed.

Lemma finish_alfred_transaction_store (g g' : globals) (e e' : environ)
    (head : transaction_head) (mac : ether_addr) (r : Z) :
  finish_alfred_transaction transaction_finished g e head mac = (r, g', e') ->
  store_ext (data_hash g) (data_hash g').
Proof.
  unfold finish_alfred_transaction, transaction_clean.
  destruct (transaction_finished head); simpl.
  - destruct (deliver (packet_list head) mac g e) as [g1 e1] eqn:Hd.
    apply deliver_frame in Hd as (_ & _ & _ & Hs).
    destruct (client_socket head <? 0); intros H; inversion H; subst;
      exact Hs.
  - intros H; inversion H; subst; apply store_ext_refl.
Qed.

Lemma process_alfred_push_data_store (g g' : globals) (iface : interface)
    (e e' : environ) (source : alfred_addr) (push : bytes) (r : Z) :
  process_alfred_push_data transaction_finished g iface e source push
  = (r, g', e') ->
  store_ext (data_hash g) (data_hash g').
Proof.
  unfold process_alfred_push_data.
  destruct (resolve_mac g iface source) as [mac|];
    [|intros H; inversion H; subst; apply store_ext_refl].
  destruct (get_u16 push off_length <? sizeof_push - sizeof_tlv);
    [intros H; inversion H; subst; apply store_ext_refl|].
  destruct (find_or_add_transaction _ _ _ _ _) as [[h g1] e1] eqn:Hf.
  apply find_or_add_transaction_data_hash in Hf as (Hd & _).
  destruct h as [head|];
    [|intros H; inversion H; subst; rewrite Hd; apply store_ext_refl].
  destruct (existsb _ _);
    [intros H; inversion H; subst; simpl; rewrite Hd; apply store_ext_refl|].
  destruct (malloc e1) as [ok1 e2]; destruct ok1; simpl;
    [|intros H; inversion H; subst; simpl; rewrite Hd; apply store_ext_refl].
  destruct (malloc e2) as [ok2 e3]; destruct ok2; simpl;
    [|intros H; inversion H; subst; simpl; rewrite Hd; apply store_ext_refl].
  destruct (finish_alfred_transaction _ _ _ _ _) as [[r4 g4] e4] eqn:Hfin.
  apply finish_alfred_transaction_store in Hfin. simpl in Hfin.
  rewrite Hd in Hfin. intros H; inversion H; subst; assumption.
Qed.

Lemma process_alfred_status_txend_store (g g' : globals) (iface : interface)
    (e e' : environ) (source : alfred_addr) (request : bytes) (r : Z) :
  process_alfred_status_txend transaction_finished g iface e source request
  = (r, g', e') ->
  store_ext (data_hash g) (data_hash g').
Proof.
  unfold process_alfred_status_txend.
  destruct (negb _); [intros H; inversion H; subst; apply store_ext_refl|].
  destruct (_ <? _); [intros H; inversion H; subst; apply store_ext_refl|].
  destruct (resolve_mac g iface source) as [mac|];
    [|intros H; inversion H; subst; apply store_ext_refl].
  destruct (find_or_add_transaction _ _ _ _ _) as [[h g1] e1] eqn:Hf.
  apply find_or_add_transaction_data_hash in Hf as (Hd & _).
  destruct h as [head|];
    [|intros H; inversion H; subst; rewrite Hd; apply store_ext_refl].
  destruct (finish_alfred_transaction _ _ _ _ _) as [[r3 g3] e3] eqn:Hfin.
  apply finish_alfred_transaction_store in Hfin. simpl in Hfin.
  rewrite Hd in Hfin. intros H; inversion H; subst; assumption.
Qed.

Lemma recv_alfred_packet_store (g g' : globals) (iface iface' : interface)
    (e e' : environ) (source : alfred_addr) (buf : bytes) (length r : Z) :
  recv_alfred_packet transaction_finished g iface e source buf length
  = (r, g', iface', e') ->
  store_ext (data_hash g) (data_hash g').
Proof.
  unfold recv_alfred_packet.
  destruct (recv_dropped _ _ _ _ _);
    [intros H; inversion H; subst; apply store_ext_refl|].
  destruct (packet_type_of _) as [[| | |]|].
  - destruct (process_alfred_push_data _ _ _ _ _ _) as [[r1 g1] e1] eqn:Hp.
    apply process_alfred_push_data_store in Hp.
    intros H; inversion H; subst; assumption.
  - destruct (process_alfred_announce_master _ _ _ _ _) as [[r1 i1] e1].
    intros H; inversion H; subst; apply store_ext_refl.
  - destruct (process_alfred_request _ _ _ _ _) as [[r1 i1] e1].
    intros H; inversion H; subst; apply store_ext_refl.
  - destruct (process_alfred_status_txend _ _ _ _ _ _) as [[r1 g1] e1] eqn:Hp.
    apply process_alfred_status_txend_store in Hp.
    intros H; inversion H; subst; assumption.
  - intros H; inversion H; subst; apply store_ext_refl.
Qed.

(** A record whose key finds a LOCAL entry is passed over: the store and
    the outside are as before, no signal is raised. *)
Lemma merge_record_local (mac : ether_addr) (pos : bytes) (data_len : Z)
    (g : globals) (e : environ) (d : dataset) :
  hash_find (same_data (read_data pos)) (data_hash g) = Some d ->
  data_source d = SOURCE_LOCAL ->
  merge_record mac pos data_len g e = (true, g, e).
Proof.
  intros Hf HL. unfold merge_record, find_or_create.
  rewrite Hf, HL. reflexivity.
Qed.

Lemma recv_packets_store (l : list arrival) :
  forall (g : globals) (iface : interface),
  store_ext (data_hash g)
    (data_hash (fst (recv_packets transaction_finished l g iface))).
Proof.
  induction l as [|a l IH]; intros g iface; simpl.
  - apply store_ext_refl.
  - destruct (recv_alfred_packet _ _ _ _ _ _ _) as [[[r g1] i1] e1] eqn:H.
    apply recv_alfred_packet_store in H.
    eapply store_ext_trans; [exact H | apply IH].
Qed.

(** C1: a dataset of provenance LOCAL is out of reach of the network.
    Whatever datagrams [recv_alfred_packet] is given one after the other,
    from whatever state and in whatever environment each, every LOCAL entry
    of the store is in the store afterwards with the same payload, length,
    version, provenance and last_seen, and is still what a lookup of its key
    returns; and a merged record whose key finds a LOCAL entry leaves store
    and outside world untouched, so no "changed" signal is raised for it. *)
Theorem local_dataset_never_modified (l : list arrival) (g : globals)
    (iface : interface) (d : dataset) :
  In d (data_hash g) -> data_source d = SOURCE_LOCAL ->
  In d (data_hash (fst (recv_packets transaction_finished l g iface)))
  /\ (forall k,
        hash_find (same_data k) (data_hash g) = Some d ->
        hash_find (same_data k)
          (data_hash (fst (recv_packets transaction_finished l g iface)))
        = Some d)
  /\ (forall mac pos data_len g0 e0,
        hash_find (same_data (read_data pos)) (data_hash g0) = Some d ->
        merge_record mac pos data_len g0 e0 = (true, g0, e0)).
Proof.
  intros Hin HL. pose proof (recv_packets_store l g iface) as H.
  split; [|split].
  - eapply store_ext_In; eassumption.
  - intros k Hf. eapply store_ext_find; eassumption.
  - intros. eapply merge_record_local; eassumption.
Qed.
End StoreAcrossHandlers.

(** ** Termination of the record loop *)

Section LoopFuel.
Context {P : Platform}.

(** The loop does not run out of fuel: any supply of at least [len] gives
    the same result. *)
Lemma finish_alfred_push_data_loop_fuel (mac : ether_addr) (fuel1 : nat) :
  forall (fuel2 : nat) (pos : bytes) (len : Z) (g : globals) (e : environ),
  (Z.to_nat len <= fuel1)%nat -> (Z.to_nat len <= fuel2)%nat ->
  finish_alfred_push_data_loop fuel1 mac pos len g e
  = finish_alfred_push_data_loop fuel2 mac pos len g e.
Proof.
  unfold sizeof_data, ETH_ALEN, sizeof_tlv.
  induction fuel1 as [|fuel1 IH]; intros [|fuel2] pos len g e H1 H2;
    cbn [finish_alfred_push_data_loop];
    try reflexivity.
  - destruct (len <? sizeof_data) eqn:Hl; [reflexivity|].
    apply Z.ltb_ge in Hl. unfold sizeof_data, ETH_ALEN, sizeof_tlv in Hl. lia.
  - destruct (len <? sizeof_data) eqn:Hl; [reflexivity|].
    apply Z.ltb_ge in Hl. unfold sizeof_data, ETH_ALEN, sizeof_tlv in Hl. lia.
  - destruct (len <? sizeof_data) eqn:Hl; [reflexivity|].
    apply Z.ltb_ge in Hl. unfold sizeof_data, ETH_ALEN, sizeof_tlv in Hl.
    destruct (_ >? len); [reflexivity|].
    destruct (merge_record _ _ _ _ _) as [[[|] g1] e1]; [|reflexivity].
    pose proof (get_u16_range pos off_data_length).
    apply IH; unfold sizeof_data, ETH_ALEN, sizeof_tlv; lia.
Qed.

Lemma carried_loop_fuel (fuel1 : nat) :
  forall (fuel2 : nat) (pos : bytes) (len : Z),
  (Z.to_nat len <= fuel1)%nat -> (Z.to_nat len <= fuel2)%nat ->
  carried_loop fuel1 pos len = carried_loop fuel2 pos len.
Proof.
  induction fuel1 as [|fuel1 IH]; intros [|fuel2] pos len H1 H2;
    cbn [carried_loop];
    try reflexivity.
  - destruct (len <? sizeof_data) eqn:Hl; [reflexivity|].
    apply Z.ltb_ge in Hl. unfold sizeof_data, ETH_ALEN, sizeof_tlv in Hl. lia.
  - destruct (len <? sizeof_data) eqn:Hl; [reflexivity|].
    apply Z.ltb_ge in Hl. unfold sizeof_data, ETH_ALEN, sizeof_tlv in Hl. lia.
  - destruct (len <? sizeof_data) eqn:Hl; [reflexivity|].
    apply Z.ltb_ge in Hl. unfold sizeof_data, ETH_ALEN, sizeof_tlv in Hl.
    destruct (_ >? len); [reflexivity|].
    pose proof (get_u16_range pos off_data_length).
    f_equal. apply IH; unfold sizeof_data, ETH_ALEN, sizeof_tlv; lia.
Qed.
End LoopFuel.

(** ** What a completed transaction leaves in the store *)

Lemma malloc_succeeds (e : environ) :
  allocations_succeed e ->
  exists e', malloc e = (true, e') /\ allocations_succeed e'
             /\ trace e' = trace e /\ clock e' = clock e.
Proof.
  unfold allocations_succeed, malloc. destruct (heap e) as [|ok rest] eqn:Hh.
  - intros _. exists e. rewrite Hh. auto.
  - simpl. intros H. apply andb_true_iff in H as [-> H].
    eexists; split; [reflexivity|]. simpl. auto.
Qed.

Lemma emit_allocations (e : environ) (ev : event) :
  allocations_succeed e -> allocations_succeed (emit e ev).
Proof. unfold allocations_succeed, emit; simpl; auto. Qed.

Section Merged.
Context {P : Platform}.

Lemma same_data_key (k1 k2 : alfred_data) (d : dataset) :
  data_key k1 = data_key k2 -> same_data k1 d = same_data k2 d.
Proof. unfold same_data. intros ->. reflexivity. Qed.

Lemma hash_find_same_key (k1 k2 : alfred_data) (h : list dataset) :
  data_key k1 = data_key k2 ->
  hash_find (same_data k1) h = hash_find (same_data k2) h.
Proof.
  intros Hk. unfold hash_find.
  induction h as [|d h IH]; simpl; [reflexivity|].
  rewrite (same_data_key k1 k2 d Hk), IH. reflexivity.
Qed.

Lemma same_data_other (k rec : alfred_data) (d : dataset) :
  data_key k <> data_key rec -> same_data rec d = true ->
  same_data k d = false.
Proof.
  unfold same_data. intros Hne Hs. apply data_key_eqb_eq in Hs.
  destruct (data_key_eqb (data_key (data d)) (data_key k)) eqn:Hk;
    [|reflexivity].
  apply data_key_eqb_eq in Hk. congruence.
Qed.

(** With memory at hand a record is merged: unless a LOCAL entry holds its
    key, the store then has it as sent; the entries of other keys are what
    they were. *)
Lemma merge_record_succeeds (mac : ether_addr) (pos : bytes) (data_len : Z)
    (g : globals) (e : environ) :
  allocations_succeed e ->
  exists g' e',
    merge_record mac pos data_len g e = (true, g', e')
    /\ allocations_succeed e'
    /\ (no_local_entry (data_hash g) (pos, data_len) ->
        stored_as_sent mac (data_hash g') (pos, data_len))
    /\ (forall k, data_key k <> data_key (read_data pos) ->
                  hash_find (same_data k) (data_hash g')
                  = hash_find (same_data k) (data_hash g)).
Proof.
  intros Ha. unfold merge_record.
  destruct (find_or_create (read_data pos) g e) as [[r g1] e1] eqn:Hfc.
  assert (Hsome : exists ds new, r = Some (ds, new) /\ allocations_succeed e1).
  { revert Hfc. unfold find_or_create, hash_add.
    destruct (hash_find _ _) as [ds|].
    - intros H; inversion H; subst; eauto.
    - destruct (malloc_succeeds e Ha) as (ea & -> & Hea & _); simpl.
      destruct (malloc_succeeds ea Hea) as (eb & -> & Heb & _).
      intros H; inversion H; subst; eauto. }
  destruct Hsome as (ds & new & -> & Ha1).
  apply find_or_create_spec in Hfc as (_ & _ & _ & _ & Hfind & Hnew).
  assert (Hother : forall k, data_key k <> data_key (read_data pos) ->
            hash_find (same_data k) (data_hash g1)
            = hash_find (same_data k) (data_hash g)).
  { intros k Hk. destruct new.
    - destruct Hnew as (_ & Hds & ->). rewrite hash_find_app.
      destruct (hash_find (same_data k) (data_hash g)); [reflexivity|].
      unfold hash_find; simpl.
      rewrite (same_data_other k (read_data pos) ds Hk); [reflexivity|].
      subst ds. apply same_data_refl.
    - destruct Hnew as [-> _]. reflexivity. }
  assert (Hfind0 : new = false ->
            hash_find (same_data (read_data pos)) (data_hash g) = Some ds).
  { intros ->. destruct Hnew as [-> _]. assumption. }
  destruct (data_source_eqb (data_source ds) SOURCE_LOCAL) eqn:Hloc.
  { exists g1, e1. repeat split; auto.
    intros Hnl. exfalso. destruct new.
    - destruct Hnew as (_ & -> & _). discriminate.
    - apply (Hnl ds); [apply Hfind0; reflexivity|].
      destruct (data_source ds); (reflexivity || discriminate). }
  match goal with
  | |- context [malloc ?x] =>
      assert (Hx : allocations_succeed x)
        by (destruct (_ || _); auto using emit_allocations);
      destruct (malloc_succeeds x Hx) as (e3 & -> & Ha3 & _)
  end.
  simpl. eexists _, e3. split; [reflexivity|]. split; [assumption|].
  pose proof (hash_find_same _ _ _ Hfind) as Hsame.
  split.
  - intros _. eexists. split.
    + simpl. eapply hash_set_find; [exact Hfind|].
      unfold same_data in *. simpl. exact Hsame.
    + simpl. repeat split; reflexivity.
  - intros k Hk. simpl. rewrite <- (Hother k Hk).
    apply hash_set_find_other.
    + unfold same_data in *. simpl.
      apply (same_data_other k (read_data pos) ds Hk Hsame).
    + intros y. apply same_data_other. assumption.
Qed.

Lemma no_local_entry_key (h : list dataset) (r1 r2 : bytes * Z) :
  record_key r1 = record_key r2 -> no_local_entry h r1 ->
  no_local_entry h r2.
Proof.
  unfold no_local_entry, record_key. intros Hk H d.
  rewrite <- (hash_find_same_key _ _ h Hk). apply H.
Qed.

Lemma stored_not_local (mac : ether_addr) (h : list dataset)
    (r : bytes * Z) :
  stored_as_sent mac h r -> no_local_entry h r.
Proof.
  intros (d & Hf & _ & _ & _ & Hs) d' Hf'. rewrite Hf in Hf'.
  injection Hf' as <-. rewrite Hs.
  destruct (ether_addr_eqb _ _); discriminate.
Qed.

Lemma record_key_dec (r1 r2 : bytes * Z) :
  {record_key r1 = record_key r2} + {record_key r1 <> record_key r2}.
Proof.
  destruct (data_key_eqb (record_key r1) (record_key r2)) eqn:H.
  - left. apply data_key_eqb_eq. assumption.
  - right. intros Hc. apply data_key_eqb_eq in Hc. congruence.
Qed.

Lemma merge_all_allocations (mac : ether_addr) (l : list (bytes * Z)) :
  forall (g : globals) (e : environ),
  allocations_succeed e -> allocations_succeed (snd (merge_all mac l g e)).
Proof.
  induction l as [|[pos n] l IH]; intros g e Ha; simpl; [assumption|].
  destruct (merge_record_succeeds mac pos n g e Ha)
    as (g' & e' & -> & Ha' & _).
  apply IH. assumption.
Qed.

(** Merging a list of records keeps a key free of LOCAL entries. *)
Lemma merge_all_no_local (mac : ether_addr) (l : list (bytes * Z))
    (r : bytes * Z) :
  forall (g : globals) (e : environ),
  allocations_succeed e -> no_local_entry (data_hash g) r ->
  allocations_succeed (snd (merge_all mac l g e))
  /\ no_local_entry (data_hash (fst (merge_all mac l g e))) r.
Proof.
  induction l as [|[pos n] l IH]; intros g e Ha Hnl; simpl; [auto|].
  destruct (merge_record_succeeds mac pos n g e Ha)
    as (g' & e' & -> & Ha' & Hst & Hoth).
  apply IH; [assumption|].
  destruct (record_key_dec r (pos, n)) as [Hk|Hk].
  - apply (no_local_entry_key _ (pos, n) r); [congruence|].
    apply (stored_not_local mac). apply Hst.
    apply (no_local_entry_key _ r (pos, n)); assumption.
  - intros d. unfold record_key in Hk. simpl in Hk.
    rewrite (Hoth _ Hk). apply Hnl.
Qed.

(** Records of other keys leave a stored record as it is. *)
Lemma merge_all_other (mac : ether_addr) (l : list (bytes * Z))
    (r : bytes * Z) :
  forall (g : globals) (e : environ),
  allocations_succeed e ->
  (forall r', In r' l -> record_key r' <> record_key r) ->
  hash_find (same_data (read_data (fst r)))
            (data_hash (fst (merge_all mac l g e)))
  = hash_find (same_data (read_data (fst r))) (data_hash g).
Proof.
  induction l as [|[pos n] l IH]; intros g e Ha Hl; simpl; [reflexivity|].
  destruct (merge_record_succeeds mac pos n g e Ha)
    as (g' & e' & -> & Ha' & _ & Hoth).
  rewrite IH; [|assumption|intros; apply Hl; right; assumption].
  apply Hoth. intros Hc. apply (Hl (pos, n)); [left; reflexivity|].
  unfold record_key. simpl. congruence.
Qed.

Lemma merge_all_app (mac : ether_addr) (l1 l2 : list (bytes * Z)) :
  forall (g : globals) (e : environ),
  merge_all mac (l1 ++ l2) g e
  = merge_all mac l2 (fst (merge_all mac l1 g e))
                     (snd (merge_all mac l1 g e)).
Proof.
  induction l1 as [|[pos n] l1 IH]; intros g e; simpl; [reflexivity|].
  destruct (merge_record mac pos n g e) as [[ok g'] e']. apply IH.
Qed.

(** The last record sent under a key is the one the store ends with. *)
Lemma merge_all_last (mac : ether_addr) (l1 l2 : list (bytes * Z))
    (r : bytes * Z) (g : globals) (e : environ) :
  allocations_succeed e -> no_local_entry (data_hash g) r ->
  (forall r', In r' l2 -> record_key r' <> record_key r) ->
  stored_as_sent mac (data_hash (fst (merge_all mac (l1 ++ r :: l2) g e))) r.
Proof.
  intros Ha Hnl Hl2. rewrite merge_all_app.
  destruct (merge_all_no_local mac l1 r g e Ha Hnl) as [Ha1 Hnl1].
  destruct (merge_all mac l1 g e) as [g1 e1]. simpl in *.
  destruct r as [pos n]. simpl.
  destruct (merge_record_succeeds mac pos n g1 e1 Ha1)
    as (g2 & e2 & -> & Ha2 & Hst & _).
  specialize (Hst Hnl1). destruct Hst as (d & Hf & Hrest).
  exists d. split; [|exact Hrest].
  rewrite (merge_all_other mac l2 (pos, n) g2 e2 Ha2 Hl2). exact Hf.
Qed.

(** With memory at hand the loop merges the records the push carries. *)
Lemma finish_alfred_push_data_loop_merge_all (mac : ether_addr)
    (fuel : nat) :
  forall (pos : bytes) (len : Z) (g : globals) (e : environ),
  allocations_succeed e ->
  finish_alfred_push_data_loop fuel mac pos len g e
  = (0, fst (merge_all mac (carried_loop fuel pos len) g e),
        snd (merge_all mac (carried_loop fuel pos len) g e)).
Proof.
  induction fuel as [|fuel IH]; intros pos len g e Ha;
    cbn [finish_alfred_push_data_loop carried_loop]; [reflexivity|].
  destruct (len <? sizeof_data); [reflexivity|].
  destruct (_ >? len); [reflexivity|].
  cbn [merge_all].
  destruct (merge_record_succeeds mac pos (get_u16 pos off_data_length)
              g e Ha) as (g' & e' & -> & Ha' & _).
  apply IH. assumption.
Qed.

Lemma deliver_merge_all (mac : ether_addr) (l : list bytes) :
  forall (g : globals) (e : environ),
  allocations_succeed e ->
  deliver l mac g e = merge_all mac (flat_map carried l) g e.
Proof.
  induction l as [|push l IH]; intros g e Ha; simpl; [reflexivity|].
  rewrite merge_all_app.
  unfold finish_alfred_push_data, carried.
  destruct (get_u16 push off_length <? sizeof_push - sizeof_tlv).
  - simpl. apply IH. assumption.
  - rewrite finish_alfred_push_data_loop_merge_all by assumption.
    apply IH. apply merge_all_allocations. assumption.
Qed.
End Merged.

(** ** Transactions *)

Section Transactions.
Context {P : Platform}.
Variable transaction_finished : transaction_head -> bool.

Lemma transaction_add_spec (g g1 : globals) (e e1 : environ)
    (mac : ether_addr) (tx_id : Z) (r : option transaction_head) :
  transaction_add g e mac tx_id = (r, g1, e1) ->
  match r with
  | Some head =>
      transaction_hash g1 = transaction_hash g ++ [head]
      /\ server_addr head = mac /\ id head = tx_id
      /\ txend_packets head = 0 /\ num_packet head = 0
      /\ packet_list head = []
  | None => g1 = g /\ exists ok rest, heap e = ok :: rest
  end.
Proof.
  unfold transaction_add, hash_add, malloc.
  destruct (heap e) as [|ok rest] eqn:Hh; simpl.
  - rewrite Hh. intros H; inversion H; subst; simpl. auto 10.
  - destruct ok; simpl.
    + destruct rest as [|ok2 rest2]; simpl.
      * intros H; inversion H; subst; simpl. auto 10.
      * destruct ok2; intros H; inversion H; subst; simpl; eauto 10.
    + intros H; inversion H; subst; eauto.
Qed.

Lemma find_or_add_transaction_spec (g g1 : globals) (e e1 : environ)
    (mac : ether_addr) (tx_id : Z) (may_create : bool)
    (r : option transaction_head) :
  find_or_add_transaction g e mac tx_id may_create = (r, g1, e1) ->
  match r with
  | Some head =>
      hash_find (same_transaction mac tx_id) (transaction_hash g1)
      = Some head
      /\ ((g1 = g /\ e1 = e)
          \/ (hash_find (same_transaction mac tx_id) (transaction_hash g)
              = None
              /\ opmode g = OPMODE_MASTER /\ may_create = true
              /\ transaction_hash g1 = transaction_hash g ++ [head]
              /\ txend_packets head = 0 /\ num_packet head = 0
              /\ packet_list head = []))
  | None =>
      g1 = g
      /\ hash_find (same_transaction mac tx_id) (transaction_hash g) = None
  end.
Proof.
  unfold find_or_add_transaction.
  destruct (hash_find _ (transaction_hash g)) as [head|] eqn:Hf.
  - intros H; inversion H; subst. auto.
  - destruct (opmode g) eqn:Hm; [intros H; inversion H; subst; auto|].
    destruct may_create; [|intros H; inversion H; subst; auto].
    intros H. apply transaction_add_spec in H.
    destruct r as [head|]; [|destruct H as [-> _]; auto].
    destruct H as (Ht & Hs & Hi & Hx & Hn & Hp). split.
    + rewrite Ht. apply hash_find_app_None; [assumption|].
      apply same_transaction_eq. auto.
    + right. auto 10.
Qed.

Lemma finish_alfred_transaction_pending (g : globals) (e : environ)
    (head : transaction_head) (mac : ether_addr) :
  transaction_finished head = false ->
  finish_alfred_transaction transaction_finished g e head mac = (0, g, e).
Proof. unfold finish_alfred_transaction. intros ->. reflexivity. Qed.

Lemma finish_alfred_transaction_done (g : globals) (e : environ)
    (head : transaction_head) (mac : ether_addr) :
  transaction_finished head = true ->
  exists e',
    finish_alfred_transaction transaction_finished g e head mac
    = (1,
       set_transaction_hash (fst (deliver (packet_list head) mac g e))
         (hash_remove (same_transaction (server_addr head) (id head))
            (transaction_hash (fst (deliver (packet_list head) mac g e)))),
       e')
    /\ e' = (if client_socket head <? 0
             then snd (deliver (packet_list head) mac g e)
             else emit (snd (deliver (packet_list head) mac g e))
                       (EvReqFinish (set_packets head (num_packet head) []))).
Proof.
  unfold finish_alfred_transaction, transaction_clean. intros ->. simpl.
  destruct (deliver (packet_list head) mac g e) as [g1 e1]. simpl.
  destruct (client_socket head <? 0); eexists; split; reflexivity.
Qed.

(** C2, as amended: when a transaction from sender [mac] completes and no
    allocation fails, on a store whose entries have a buffer as long as
    their length field and for fragments that hold the bytes they announce,
    every carried record that is the last one of its key among the
    delivered records, and whose key held no LOCAL entry before, is in the
    store afterwards with its payload bytes, length and version, with
    provenance FIRST_HAND if its source is the sender and SYNCED
    otherwise.  The two conditions on buffers keep the merge away from the
    [memcmp] of line 79 on a NULL buffer, which an earlier failed allocation
    can leave in the store. *)
Theorem completed_transaction_stores_last_record (g g' : globals)
    (e e' : environ) (head : transaction_head) (mac : ether_addr)
    (l1 l2 : list (bytes * Z)) (r : bytes * Z) :
  finish_alfred_transaction transaction_finished g e head mac = (1, g', e') ->
  allocations_succeed e ->
  Forall buffer_matches (data_hash g) ->
  Forall fragment_whole (packet_list head) ->
  flat_map carried (packet_list head) = l1 ++ r :: l2 ->
  (forall r', In r' l2 -> record_key r' <> record_key r) ->
  no_local_entry (data_hash g) r ->
  stored_as_sent mac (data_hash g') r.
Proof.
  intros Hfin Ha _ _ Hl Hl2 Hnl.
  destruct (transaction_finished head) eqn:Htf.
  - destruct (finish_alfred_transaction_done g e head mac Htf)
      as (e2 & Heq & _).
    rewrite Heq in Hfin. inversion Hfin; subst. simpl.
    rewrite deliver_merge_all by assumption. rewrite Hl.
    apply merge_all_last; assumption.
  - rewrite finish_alfred_transaction_pending in Hfin by assumption.
    discriminate.
Qed.
End Transactions.

(** ** The transaction table *)

Lemma same_key_refl (a : transaction_head) : same_key a a.
Proof. split; reflexivity. Qed.

Lemma same_key_trans (a b c : transaction_head) :
  same_key a b -> same_key b c -> same_key a c.
Proof. intros [? ?] [? ?]; split; congruence. Qed.

Lemma same_key_same_transaction (mac : ether_addr) (tx_id : Z)
    (a b : transaction_head) :
  same_key a b -> same_transaction mac tx_id b = same_transaction mac tx_id a.
Proof. intros [Hs Hi]. unfold same_transaction. rewrite Hs, Hi. reflexivity. Qed.

Lemma Forall2_same_key_refl (h : list transaction_head) :
  Forall2 same_key h h.
Proof. induction h; constructor; auto using same_key_refl. Qed.

Lemma Forall2_same_key_trans (a b c : list transaction_head) :
  Forall2 same_key a b -> Forall2 same_key b c -> Forall2 same_key a c.
Proof.
  intros H; revert c; induction H; intros c Hc; inversion Hc; subst;
    constructor; eauto using same_key_trans.
Qed.

Lemma table_ext_refl (h : list transaction_head) : table_ext h h.
Proof.
  exists h, []. rewrite app_nil_r. auto using Forall2_same_key_refl.
Qed.

Lemma table_ext_app (h l : list transaction_head) : table_ext h (h ++ l).
Proof. exists h, l. auto using Forall2_same_key_refl. Qed.

Lemma table_ext_Forall2 (h h' : list transaction_head) :
  Forall2 same_key h h' -> table_ext h h'.
Proof. intros H; exists h', []. rewrite app_nil_r; auto. Qed.

Lemma table_ext_trans (a b c : list transaction_head) :
  table_ext a b -> table_ext b c -> table_ext a c.
Proof.
  intros (b1 & xb & -> & Hab) (c1 & xc & -> & Hbc).
  apply Forall2_app_inv_l in Hbc as (c1a & c1b & H1 & H2 & ->).
  exists c1a, (c1b ++ xc). rewrite app_assoc. split; [reflexivity|].
  eauto using Forall2_same_key_trans.
Qed.

Lemma table_ext_find (h h' : list transaction_head) (mac : ether_addr)
    (tx_id : Z) (a : transaction_head) :
  table_ext h h' ->
  hash_find (same_transaction mac tx_id) h = Some a ->
  exists b, hash_find (same_transaction mac tx_id) h' = Some b
            /\ same_key a b.
Proof.
  intros (h1 & extra & -> & HF) Hf.
  pose proof (Forall2_hash_find (same_transaction mac tx_id) same_key h h1
                (same_key_same_transaction mac tx_id) HF) as H.
  rewrite Hf in H. destruct H as (b & Hb & Hk).
  exists b. split; [apply hash_find_app_Some|]; assumption.
Qed.

(** A write to the record that the lookup returned keeps every record of
    the table at its place. *)
Lemma write_head_table (g : globals) (mac : ether_addr) (tx_id : Z)
    (head head' : transaction_head) :
  hash_find (same_transaction mac tx_id) (transaction_hash g) = Some head ->
  same_key head head' ->
  Forall2 same_key (transaction_hash g)
          (transaction_hash (write_head g mac tx_id head'))
  /\ hash_find (same_transaction mac tx_id)
               (transaction_hash (write_head g mac tx_id head'))
     = Some head'
  /\ data_hash (write_head g mac tx_id head') = data_hash g
  /\ opmode (write_head g mac tx_id head') = opmode g.
Proof.
  intros Hf Hk. unfold write_head; simpl. repeat split.
  - eapply hash_set_Forall2; [apply same_key_refl | exact Hf | exact Hk].
  - eapply hash_set_find; [exact Hf|].
    rewrite (same_key_same_transaction mac tx_id head head' Hk).
    eapply hash_find_same. exact Hf.
Qed.

Lemma find_or_add_transaction_table (P : Platform) (g g1 : globals)
    (e e1 : environ) (mac : ether_addr) (tx_id : Z) (may_create : bool)
    (r : option transaction_head) :
  find_or_add_transaction g e mac tx_id may_create = (r, g1, e1) ->
  table_ext (transaction_hash g) (transaction_hash g1).
Proof.
  intros H. apply find_or_add_transaction_spec in H.
  destruct r as [head|].
  - destruct H as [_ [[-> _]|(_ & _ & _ & -> & _)]].
    + apply table_ext_refl.
    + apply table_ext_app.
  - destruct H as [-> _]. apply table_ext_refl.
Qed.

(** ** Completion *)

Section Completion.
Context {P : Platform}.

Lemma transaction_complete_iff (head : transaction_head) :
  transaction_complete head = true
  <-> txend_packets head <> 0 /\ num_packet head = txend_packets head.
Proof.
  unfold transaction_complete.
  rewrite andb_true_iff, negb_true_iff, Z.eqb_neq, Z.eqb_eq. tauto.
Qed.

Lemma deliver_transaction_hash (l : list bytes) (mac : ether_addr)
    (g : globals) (e : environ) :
  transaction_hash (fst (deliver l mac g e)) = transaction_hash g.
Proof.
  destruct (deliver l mac g e) as [g1 e1] eqn:H.
  apply deliver_frame in H as (_ & _ & H & _). exact H.
Qed.

End Completion.

(** ** Duplicates and strays *)

Section Reassembly.
Context {P : Platform}.
Variable transaction_finished : transaction_head -> bool.

(** C8: a PUSH_DATA whose seqno is the seqno of a fragment already stored in
    the transaction of its sender and tx_id is discarded: the fragment list
    and the count of received fragments of that transaction, and of every
    other one, are unchanged, and so are the dataset store and the world
    outside; the handler reports success for a push that has its
    transaction fields. *)
Theorem duplicate_fragment_discarded (g : globals) (iface : interface)
    (e : environ) (source : alfred_addr) (push : bytes) (mac : ether_addr)
    (head : transaction_head) :
  resolve_mac g iface source = Some mac ->
  hash_find (same_transaction mac (get_u16 push off_tx_id))
            (transaction_hash g) = Some head ->
  existsb (same_seqno push) (packet_list head) = true ->
  exists r g',
    process_alfred_push_data transaction_finished g iface e source push
    = (r, g', e)
    /\ data_hash g' = data_hash g
    /\ Forall2 same_fragments (transaction_hash g) (transaction_hash g')
    /\ (exists head',
          hash_find (same_transaction mac (get_u16 push off_tx_id))
                    (transaction_hash g') = Some head'
          /\ packet_list head' = packet_list head
          /\ num_packet head' = num_packet head)
    /\ (sizeof_push - sizeof_tlv <= get_u16 push off_length -> r = 0).
Proof.
  intros Hmac Hfind Hdup. unfold process_alfred_push_data.
  rewrite Hmac.
  destruct (get_u16 push off_length <? sizeof_push - sizeof_tlv) eqn:Hlen.
  - exists (-1), g. repeat split.
    + clear. induction (transaction_hash g); constructor; auto.
      repeat split; reflexivity.
    + exists head. auto.
    + apply Z.ltb_lt in Hlen. lia.
  - unfold find_or_add_transaction. rewrite Hfind. simpl.
    rewrite Hdup. eexists _, _. split; [reflexivity|].
    assert (Hsf : same_fragments head (set_last_rx_time head (clock e)))
      by (repeat split; reflexivity).
    repeat split.
    + unfold write_head; simpl.
      eapply hash_set_Forall2; [|exact Hfind|exact Hsf].
      intros y. repeat split; reflexivity.
    + exists (set_last_rx_time head (clock e)).
      split; [|split; reflexivity].
      unfold write_head; simpl.
      eapply hash_set_find; [exact Hfind|].
      apply (hash_find_same _ _ _ Hfind).
Qed.

Lemma finish_alfred_transaction_none (g g' : globals) (e e' : environ)
    (head : transaction_head) (mac mac0 : ether_addr) (tx_id r : Z) :
  finish_alfred_transaction transaction_finished g e head mac = (r, g', e') ->
  hash_find (same_transaction mac0 tx_id) (transaction_hash g) = None ->
  hash_find (same_transaction mac0 tx_id) (transaction_hash g') = None.
Proof.
  intros H Hn. destruct (transaction_finished head) eqn:Htf.
  - destruct (finish_alfred_transaction_done transaction_finished g e head
                mac Htf) as (e2 & Heq & _).
    rewrite Heq in H. inversion H; subst. simpl.
    apply hash_remove_find_None.
    destruct (deliver (packet_list head) mac g e) as [g1 e1] eqn:Hd.
    apply deliver_frame in Hd as (_ & _ & Hd & _). simpl. rewrite Hd.
    exact Hn.
  - rewrite finish_alfred_transaction_pending in H by assumption.
    inversion H; subst. exact Hn.
Qed.

Lemma write_head_none (g : globals) (mac mac0 : ether_addr) (tx_id id0 : Z)
    (head head' : transaction_head) :
  hash_find (same_transaction mac tx_id) (transaction_hash g) = Some head ->
  same_key head head' ->
  hash_find (same_transaction mac0 id0) (transaction_hash g) = None ->
  hash_find (same_transaction mac0 id0)
            (transaction_hash (write_head g mac tx_id head')) = None.
Proof.
  intros Hf Hk Hn.
  destruct (write_head_table g mac tx_id head head' Hf Hk) as (HF & _).
  pose proof (Forall2_hash_find (same_transaction mac0 id0) same_key _ _
                (same_key_same_transaction mac0 id0) HF) as H.
  rewrite Hn in H. exact H.
Qed.

(** A lookup that fails before a handler's lookup-or-create and succeeds
    after it has found the record just created. *)
Lemma find_or_add_transaction_new (g g1 : globals) (e e1 : environ)
    (mac mac0 : ether_addr) (tx_id id0 : Z) (may_create : bool)
    (r : option transaction_head) :
  find_or_add_transaction g e mac tx_id may_create = (r, g1, e1) ->
  hash_find (same_transaction mac0 id0) (transaction_hash g) = None ->
  hash_find (same_transaction mac0 id0) (transaction_hash g1) <> None ->
  opmode g = OPMODE_MASTER /\ may_create = true /\ mac0 = mac /\ id0 = tx_id
  /\ hash_find (same_transaction mac tx_id) (transaction_hash g) = None.
Proof.
  intros H Hn Hs. apply find_or_add_transaction_spec in H.
  destruct r as [head|].
  - destruct H as [Hf [[-> _]|(Hnone & Hm & Hc & Ht & _)]];
      [contradiction|].
    rewrite Ht, hash_find_app, Hn in Hs. unfold hash_find in Hs.
    simpl in Hs.
    destruct (same_transaction mac0 id0 head) eqn:Hsame;
      [|contradiction].
    apply same_transaction_eq in Hsame as [H1 H2].
    rewrite Ht in Hf. rewrite hash_find_app, Hnone in Hf.
    apply hash_find_same in Hf. apply same_transaction_eq in Hf as [H3 H4].
    repeat split; congruence.
  - destruct H as [-> _]. contradiction.
Qed.

Lemma process_alfred_push_data_new (g g' : globals) (iface : interface)
    (e e' : environ) (source : alfred_addr) (push : bytes) (r : Z)
    (mac0 : ether_addr) (id0 : Z) :
  process_alfred_push_data transaction_finished g iface e source push
  = (r, g', e') ->
  hash_find (same_transaction mac0 id0) (transaction_hash g) = None ->
  hash_find (same_transaction mac0 id0) (transaction_hash g') <> None ->
  opmode g = OPMODE_MASTER /\ resolve_mac g iface source = Some mac0
  /\ get_u16 push off_tx_id = id0.
Proof.
  unfold process_alfred_push_data. intros H Hn Hs.
  destruct (resolve_mac g iface source) as [mac|];
    [|inversion H; subst; contradiction].
  destruct (get_u16 push off_length <? sizeof_push - sizeof_tlv);
    [inversion H; subst; contradiction|].
  destruct (find_or_add_transaction _ _ _ _ _) as [[h g1] e1] eqn:Hf.
  destruct (hash_find (same_transaction mac0 id0) (transaction_hash g1))
    eqn:Hn1.
  { eapply find_or_add_transaction_new in Hf; [|exact Hn|congruence].
    destruct Hf as (? & _ & ? & ? & _). repeat split; congruence. }
  exfalso. apply Hs. clear Hs.
  apply find_or_add_transaction_spec in Hf.
  destruct h as [head|]; [|inversion H; subst; assumption].
  destruct Hf as [Hfind _].
  set (head1 := set_last_rx_time head (clock e1)) in *.
  pose proof (write_head_none g1 mac mac0 _ id0 head head1 Hfind
                (same_key_refl _) Hn1) as Hn2.
  destruct (write_head_table g1 mac _ head head1 Hfind (same_key_refl _))
    as (_ & Hfind2 & _).
  destruct (existsb _ _); [inversion H; subst; assumption|].
  destruct (malloc e1) as [[|] e2]; simpl in H;
    [|inversion H; subst; assumption].
  destruct (malloc e2) as [[|] e3]; simpl in H;
    [|inversion H; subst; assumption].
  match type of H with
  | context [finish_alfred_transaction _ ?ga ?ea ?hd ?m] =>
      destruct (finish_alfred_transaction transaction_finished ga ea hd m)
        as [[r4 g4] e4] eqn:Hfin
  end.
  inversion H; subst.
  eapply finish_alfred_transaction_none; [exact Hfin|].
  eapply write_head_none; [exact Hfind2 | split; reflexivity | exact Hn2].
Qed.

Lemma process_alfred_status_txend_new (g g' : globals) (iface : interface)
    (e e' : environ) (source : alfred_addr) (request : bytes) (r : Z)
    (mac0 : ether_addr) (id0 : Z) :
  process_alfred_status_txend transaction_finished g iface e source request
  = (r, g', e') ->
  hash_find (same_transaction mac0 id0) (transaction_hash g) = None ->
  hash_find (same_transaction mac0 id0) (transaction_hash g') <> None ->
  opmode g = OPMODE_MASTER /\ resolve_mac g iface source = Some mac0
  /\ get_u16 request off_tx_id = id0
  /\ get_u16 request off_tx_seqno <> 0.
Proof.
  unfold process_alfred_status_txend. intros H Hn Hs.
  destruct (negb _); [inversion H; subst; contradiction|].
  destruct (_ <? _); [inversion H; subst; contradiction|].
  destruct (resolve_mac g iface source) as [mac|];
    [|inversion H; subst; contradiction].
  destruct (find_or_add_transaction _ _ _ _ _) as [[h g1] e1] eqn:Hf.
  destruct (hash_find (same_transaction mac0 id0) (transaction_hash g1))
    eqn:Hn1.
  { eapply find_or_add_transaction_new in Hf; [|exact Hn|congruence].
    destruct Hf as (? & Hc & ? & ? & _).
    apply negb_true_iff, Z.eqb_neq in Hc. repeat split; congruence. }
  exfalso. apply Hs. clear Hs.
  apply find_or_add_transaction_spec in Hf.
  destruct h as [head|]; [|inversion H; subst; assumption].
  destruct Hf as [Hfind _].
  match type of H with
  | context [finish_alfred_transaction _ ?ga ?ea ?hd ?m] =>
      destruct (finish_alfred_transaction transaction_finished ga ea hd m)
        as [[r4 g4] e4] eqn:Hfin
  end.
  inversion H; subst.
  eapply finish_alfred_transaction_none; [exact Hfin|].
  eapply write_head_none; [exact Hfind | split; reflexivity | exact Hn1].
Qed.
End Reassembly.

Section Creation.
Context {P : Platform}.
Variable transaction_finished : transaction_head -> bool.

Lemma transaction_add_succeeds (g : globals) (e : environ)
    (mac : ether_addr) (tx_id : Z) :
  allocations_succeed e ->
  exists head e1,
    transaction_add g e mac tx_id
    = (Some head,
       set_transaction_hash g (transaction_hash g ++ [head]), e1)
    /\ allocations_succeed e1
    /\ server_addr head = mac /\ id head = tx_id
    /\ txend_packets head = 0 /\ num_packet head = 0
    /\ packet_list head = [].
Proof.
  intros Ha. unfold transaction_add, hash_add.
  destruct (malloc_succeeds e Ha) as (e1 & -> & Ha1 & _). simpl.
  destruct (malloc_succeeds e1 Ha1) as (e2 & -> & Ha2 & _).
  eexists _, e2. split; [reflexivity|]. simpl. auto 10.
Qed.

Lemma find_or_add_transaction_creates (g : globals) (e : environ)
    (mac : ether_addr) (tx_id : Z) :
  allocations_succeed e -> opmode g = OPMODE_MASTER ->
  hash_find (same_transaction mac tx_id) (transaction_hash g) = None ->
  exists head e1,
    find_or_add_transaction g e mac tx_id true
    = (Some head,
       set_transaction_hash g (transaction_hash g ++ [head]), e1)
    /\ allocations_succeed e1
    /\ hash_find (same_transaction mac tx_id) (transaction_hash g ++ [head])
       = Some head
    /\ txend_packets head = 0 /\ num_packet head = 0
    /\ packet_list head = [].
Proof.
  intros Ha Hm Hn. unfold find_or_add_transaction. rewrite Hn, Hm.
  destruct (transaction_add_succeeds g e mac tx_id Ha)
    as (head & e1 & -> & Ha1 & Hs & Hi & Hz & Hnp & Hp).
  exists head, e1. repeat split; auto.
  apply hash_find_app_None; [assumption|].
  apply same_transaction_eq; auto.
Qed.

Hypothesis finished_counts :
  forall h, transaction_finished h = true -> num_packet h = txend_packets h.

Lemma not_finished (h : transaction_head) :
  num_packet h <> txend_packets h -> transaction_finished h = false.
Proof.
  intros Hne. destruct (transaction_finished h) eqn:Hf; [|reflexivity].
  apply finished_counts in Hf. contradiction.
Qed.

Lemma process_alfred_push_data_creates (g : globals) (iface : interface)
    (e : environ) (source : alfred_addr) (push : bytes) (mac : ether_addr) :
  allocations_succeed e -> opmode g = OPMODE_MASTER ->
  resolve_mac g iface source = Some mac ->
  sizeof_push - sizeof_tlv <= get_u16 push off_length ->
  hash_find (same_transaction mac (get_u16 push off_tx_id))
            (transaction_hash g) = None ->
  hash_find (same_transaction mac (get_u16 push off_tx_id))
    (transaction_hash
       (snd (fst (process_alfred_push_data transaction_finished g iface e
                    source push)))) <> None.
Proof.
  intros Ha Hm Hmac Hlen Hn. unfold process_alfred_push_data.
  rewrite Hmac.
  destruct (_ <? _) eqn:Hl; [apply Z.ltb_lt in Hl; lia|].
  destruct (find_or_add_transaction_creates g e mac _ Ha Hm Hn)
    as (head & e1 & -> & Ha1 & Hfind & Hz & Hnp & Hp).
  cbn [packet_list set_last_rx_time]. rewrite Hp. cbn [existsb].
  destruct (malloc_succeeds e1 Ha1) as (e2 & -> & Ha2 & _). simpl negb.
  cbv iota.
  destruct (malloc_succeeds e2 Ha2) as (e3 & -> & Ha3 & _). simpl negb.
  cbv iota.
  rewrite finish_alfred_transaction_pending.
  2:{ apply not_finished. simpl. lia. }
  cbn [fst snd].
  match goal with
  | |- hash_find _ (transaction_hash (write_head ?ga _ _ ?hd)) <> None =>
      destruct (write_head_table ga mac (get_u16 push off_tx_id)
                  (set_last_rx_time head (clock e1)) hd) as (_ & Hf & _)
  end.
  - unfold write_head. simpl. eapply hash_set_find; [exact Hfind|].
    apply (hash_find_same _ _ _ Hfind).
  - split; reflexivity.
  - rewrite Hf. discriminate.
Qed.

Lemma process_alfred_status_txend_creates (g : globals) (iface : interface)
    (e : environ) (source : alfred_addr) (request : bytes)
    (mac : ether_addr) :
  allocations_succeed e -> opmode g = OPMODE_MASTER ->
  get_u8 request off_version = ALFRED_VERSION ->
  resolve_mac g iface source = Some mac ->
  sizeof_status - sizeof_tlv <= get_u16 request off_length ->
  get_u16 request off_tx_seqno <> 0 ->
  hash_find (same_transaction mac (get_u16 request off_tx_id))
            (transaction_hash g) = None ->
  hash_find (same_transaction mac (get_u16 request off_tx_id))
    (transaction_hash
       (snd (fst (process_alfred_status_txend transaction_finished g iface e
                    source request)))) <> None.
Proof.
  intros Ha Hm Hv Hmac Hlen Hseq Hn. unfold process_alfred_status_txend.
  rewrite Hv, Z.eqb_refl. simpl negb. cbv iota.
  destruct (_ <? _) eqn:Hl; [apply Z.ltb_lt in Hl; lia|].
  rewrite Hmac.
  apply Z.eqb_neq in Hseq. rewrite Hseq. simpl negb.
  destruct (find_or_add_transaction_creates g e mac _ Ha Hm Hn)
    as (head & e1 & -> & Ha1 & Hfind & Hz & Hnp & Hp).
  rewrite finish_alfred_transaction_pending.
  2:{ apply not_finished. simpl. apply Z.eqb_neq in Hseq. lia. }
  cbn [fst snd].
  match goal with
  | |- hash_find _ (transaction_hash (write_head ?ga _ _ ?hd)) <> None =>
      destruct (write_head_table ga mac (get_u16 request off_tx_id)
                  head hd) as (_ & Hf & _)
  end.
  - exact Hfind.
  - split; reflexivity.
  - rewrite Hf. discriminate.
Qed.
End Creation.

Section Strays.
Context {P : Platform}.
Variable transaction_finished : transaction_head -> bool.

Lemma recv_accepted_version (g : globals) (iface : interface)
    (source : alfred_addr) (buf : bytes) (length : Z) :
  recv_dropped g iface source buf length = false ->
  get_u8 buf off_version = ALFRED_VERSION.
Proof.
  unfold recv_dropped. intros H.
  apply orb_false_iff in H as [_ H].
  apply negb_false_iff, Z.eqb_eq in H. exact H.
Qed.

Lemma stray_push_dropped (g : globals) (iface : interface) (e : environ)
    (source : alfred_addr) (push : bytes) (mac : ether_addr) :
  resolve_mac g iface source = Some mac ->
  hash_find (same_transaction mac (get_u16 push off_tx_id))
            (transaction_hash g) = None ->
  opmode g = OPMODE_SLAVE ->
  process_alfred_push_data transaction_finished g iface e source push
  = (-1, g, e).
Proof.
  intros Hmac Hn Hm. unfold process_alfred_push_data, find_or_add_transaction.
  rewrite Hmac, Hn, Hm. destruct (_ <? _); reflexivity.
Qed.

Lemma stray_txend_dropped (g : globals) (iface : interface) (e : environ)
    (source : alfred_addr) (request : bytes) (mac : ether_addr) :
  resolve_mac g iface source = Some mac ->
  hash_find (same_transaction mac (get_u16 request off_tx_id))
            (transaction_hash g) = None ->
  opmode g = OPMODE_SLAVE \/ get_u16 request off_tx_seqno = 0 ->
  process_alfred_status_txend transaction_finished g iface e source request
  = (-1, g, e).
Proof.
  intros Hmac Hn Hm.
  unfold process_alfred_status_txend, find_or_add_transaction.
  rewrite Hmac, Hn.
  destruct (negb _); [reflexivity|]. destruct (_ <? _); [reflexivity|].
  destruct Hm as [->| ->]; [reflexivity|].
  destruct (opmode g); reflexivity.
Qed.

(** C5: an inbound datagram puts a new record into the transaction table
    only on a master, and only as a PUSH_DATA for an unknown (peer, tx_id)
    or a STATUS_TXEND with seqno not 0 for one; such a datagram, accepted by
    the receive checks and carrying its transaction fields, does create the
    record on a master when memory is at hand and the completion test asks
    for equal counts; a stray PUSH_DATA or STATUS_TXEND on a slave, and a
    STATUS_TXEND with seqno 0 for an unknown id on any node, leave globals,
    interface and the world outside as they were. *)
Theorem transaction_created_only_on_master :
  (forall g g' iface iface' e e' source buf length r mac tx_id,
     recv_alfred_packet transaction_finished g iface e source buf length
     = (r, g', iface', e') ->
     hash_find (same_transaction mac tx_id) (transaction_hash g) = None ->
     hash_find (same_transaction mac tx_id) (transaction_hash g') <> None ->
     opmode g = OPMODE_MASTER
     /\ resolve_mac g iface source = Some mac
     /\ get_u16 buf off_tx_id = tx_id
     /\ (packet_type_of (get_u8 buf off_type) = Some ALFRED_PUSH_DATA
         \/ (packet_type_of (get_u8 buf off_type) = Some ALFRED_STATUS_TXEND
             /\ get_u16 buf off_tx_seqno <> 0)))
  /\ ((forall h, transaction_finished h = true ->
                 num_packet h = txend_packets h) ->
      forall g iface e source buf length mac,
        recv_dropped g iface source buf length = false ->
        allocations_succeed e ->
        opmode g = OPMODE_MASTER ->
        resolve_mac g iface source = Some mac ->
        hash_find (same_transaction mac (get_u16 buf off_tx_id))
                  (transaction_hash g) = None ->
        (packet_type_of (get_u8 buf off_type) = Some ALFRED_PUSH_DATA
         /\ sizeof_push - sizeof_tlv <= get_u16 buf off_length)
        \/ (packet_type_of (get_u8 buf off_type) = Some ALFRED_STATUS_TXEND
            /\ sizeof_status - sizeof_tlv <= get_u16 buf off_length
            /\ get_u16 buf off_tx_seqno <> 0) ->
        hash_find (same_transaction mac (get_u16 buf off_tx_id))
          (transaction_hash
             (snd (fst (fst (recv_alfred_packet transaction_finished g iface
                               e source buf length))))) <> None)
  /\ (forall g iface e source buf length mac,
        resolve_mac g iface source = Some mac ->
        hash_find (same_transaction mac (get_u16 buf off_tx_id))
                  (transaction_hash g) = None ->
        (packet_type_of (get_u8 buf off_type) = Some ALFRED_PUSH_DATA
         /\ opmode g = OPMODE_SLAVE)
        \/ (packet_type_of (get_u8 buf off_type) = Some ALFRED_STATUS_TXEND
            /\ (opmode g = OPMODE_SLAVE \/ get_u16 buf off_tx_seqno = 0)) ->
        exists r,
          recv_alfred_packet transaction_finished g iface e source buf length
          = (r, g, iface, e)).
Proof.
  split; [|split].
  - intros g g' iface iface' e e' source buf length r mac tx_id H Hn Hs.
    unfold recv_alfred_packet in H.
    destruct (recv_dropped _ _ _ _ _); [inversion H; subst; contradiction|].
    destruct (packet_type_of _) as [[| | |]|].
    + destruct (process_alfred_push_data _ _ _ _ _ _) as [[r1 g1] e1] eqn:Hp.
      inversion H; subst.
      destruct (process_alfred_push_data_new _ _ _ _ _ _ _ _ _ _ _ Hp Hn Hs)
        as (? & ? & ?). auto.
    + destruct (process_alfred_announce_master _ _ _ _ _) as [[r1 i1] e1].
      inversion H; subst; contradiction.
    + destruct (process_alfred_request _ _ _ _ _) as [[r1 i1] e1].
      inversion H; subst; contradiction.
    + destruct (process_alfred_status_txend _ _ _ _ _ _) as [[r1 g1] e1]
        eqn:Hp.
      inversion H; subst.
      destruct (process_alfred_status_txend_new _ _ _ _ _ _ _ _ _ _ _ Hp Hn
                  Hs) as (? & ? & ? & ?). auto 6.
    + inversion H; subst; contradiction.
  - intros Hfin g iface e source buf length mac Hacc Ha Hm Hmac Hn Hcase.
    unfold recv_alfred_packet. rewrite Hacc.
    destruct Hcase as [[-> Hlen]|(-> & Hlen & Hseq)].
    + pose proof (process_alfred_push_data_creates transaction_finished Hfin
                    g iface e source buf mac Ha Hm Hmac Hlen Hn) as H.
      destruct (process_alfred_push_data _ _ _ _ _ _) as [[r1 g1] e1].
      exact H.
    + pose proof (process_alfred_status_txend_creates transaction_finished
                    Hfin g iface e source buf mac Ha Hm
                    (recv_accepted_version _ _ _ _ _ Hacc) Hmac Hlen Hseq Hn)
        as H.
      destruct (process_alfred_status_txend _ _ _ _ _ _) as [[r1 g1] e1].
      exact H.
  - intros g iface e source buf length mac Hmac Hn Hcase.
    unfold recv_alfred_packet.
    destruct (recv_dropped _ _ _ _ _); [eauto|].
    destruct Hcase as [[-> Hm]|[-> Hm]].
    + rewrite (stray_push_dropped g iface e source buf mac Hmac Hn Hm).
      eauto.
    + rewrite (stray_txend_dropped g iface e source buf mac Hmac Hn Hm).
      eauto.
Qed.
End Strays.

(** ** The push scheduler *)

Lemma packets_of_acc (pick : event -> option (packet * Z))
    (t : list event) :
  forall acc,
  fold_left (fun acc ev =>
               match pick ev with
               | Some pn => pn :: acc
               | None => acc
               end) t acc
  = packets_of pick t ++ acc.
Proof.
  unfold packets_of.
  induction t as [|ev t IH]; intros acc; simpl; [reflexivity|].
  rewrite IH. rewrite (IH (match pick ev with
                           | Some pn => [pn]
                           | None => []
                           end)).
  rewrite <- app_assoc. destruct (pick ev); reflexivity.
Qed.

Lemma packets_of_app (pick : event -> option (packet * Z))
    (t1 t2 : list event) :
  packets_of pick (t2 ++ t1) = packets_of pick t1 ++ packets_of pick t2.
Proof.
  unfold packets_of at 1. rewrite fold_left_app.
  rewrite packets_of_acc. reflexivity.
Qed.

Lemma sent_packets_app (t1 t2 : list event) :
  sent_packets (t2 ++ t1) = sent_packets t1 ++ sent_packets t2.
Proof. apply packets_of_app. Qed.

Lemma all_on_wire_refl (e : environ) : all_on_wire e e.
Proof. exists []. auto. Qed.

Lemma all_on_wire_trans (e1 e2 e3 : environ) :
  all_on_wire e1 e2 -> all_on_wire e2 e3 -> all_on_wire e1 e3.
Proof.
  intros (t1 & H1 & W1) (t2 & H2 & W2). exists (t2 ++ t1).
  rewrite H2, H1, app_assoc. split; [reflexivity|].
  unfold wire_packets, sent_packets in *.
  rewrite !packets_of_app. congruence.
Qed.

Lemma sends_refl (e : environ) : sends e e [].
Proof. exists []. auto. Qed.

Lemma sends_trans (e1 e2 e3 : environ) (l1 l2 : list (packet * Z)) :
  sends e1 e2 l1 -> sends e2 e3 l2 -> sends e1 e3 (l1 ++ l2).
Proof.
  intros (t1 & H1 & <-) (t2 & H2 & <-). exists (t2 ++ t1).
  rewrite H2, H1, app_assoc, sent_packets_app. auto.
Qed.

Lemma sends_within_refl (ok : packet -> Z -> Prop) (e : environ) :
  sends_within ok e e.
Proof. exists []. auto. Qed.

Lemma sends_within_trans (ok : packet -> Z -> Prop) (e1 e2 e3 : environ) :
  sends_within ok e1 e2 -> sends_within ok e2 e3 -> sends_within ok e1 e3.
Proof.
  intros (t1 & H1 & F1) (t2 & H2 & F2). exists (t2 ++ t1).
  rewrite H2, H1, app_assoc. split; [reflexivity|].
  apply Forall_app; auto.
Qed.

Lemma u16_range (z : Z) : 0 <= u16 z < 65536.
Proof. unfold u16. apply Z.mod_pos_bound. lia. Qed.

Lemma u16_small (z : Z) : 0 <= z < 65536 -> u16 z = z.
Proof. unfold u16. apply Z.mod_small. Qed.

Lemma u16_succ (s k : Z) : u16 (u16 (s + 1) + k) = u16 (s + (1 + k)).
Proof.
  unfold u16. rewrite Zplus_mod_idemp_l. f_equal. lia.
Qed.

Lemma numbered_app (tx_id : Z) (l1 l2 : list (packet * Z)) :
  forall s,
  numbered tx_id s l1 ->
  numbered tx_id (u16 (s + Z.of_nat (length l1))) l2 ->
  0 <= s < 65536 ->
  numbered tx_id s (l1 ++ l2).
Proof.
  induction l1 as [|[p n] l1 IH]; intros s H1 H2 Hs; simpl in *.
  - rewrite Z.add_0_r, u16_small in H2 by assumption. exact H2.
  - destruct H1 as (Ht & Hi & Hq & H1). repeat split; auto.
    apply IH; [assumption| |apply u16_range].
    rewrite u16_succ. rewrite Zpos_P_of_succ_nat in H2.
    replace (1 + Z.of_nat (length l1)) with (Z.succ (Z.of_nat (length l1)))
      by lia.
    exact H2.
Qed.

Ltac new_events :=
  first [ eexists [_]; split; [reflexivity|]
        | eexists [_; _]; split; [reflexivity|]
        | eexists [_; _; _; _]; split; [reflexivity|] ].

Section Scheduler.
Context {P : Platform}.

Lemma send_alfred_packet_sends (iface : interface) (e : environ)
    (dest : alfred_addr) (p : packet) (n : Z) :
  sends e (snd (send_alfred_packet iface e dest p n)) [(p, n)].
Proof.
  unfold send_alfred_packet, sendto, sends.
  destruct (netsock iface <? 0).
  - exists [EvSendPacket dest p n]. auto.
  - simpl. destruct (wire e) as [|r rest]; simpl.
    + destruct (_ =? _); simpl; new_events; reflexivity.
    + destruct (_ =? _); simpl; new_events; reflexivity.
Qed.

Lemma send_alfred_packet_within (ok : packet -> Z -> Prop)
    (iface : interface) (e : environ) (dest : alfred_addr) (p : packet)
    (n : Z) :
  ok p n ->
  sends_within ok e (snd (send_alfred_packet iface e dest p n)).
Proof.
  intros Hok. unfold send_alfred_packet, sendto, sends_within.
  destruct (netsock iface <? 0).
  - exists [EvSendPacket dest p n]. split; [reflexivity|].
    repeat constructor; assumption.
  - simpl. destruct (wire e) as [|r rest]; simpl.
    + destruct (_ =? _); simpl; new_events;
        repeat constructor; assumption.
    + destruct (_ =? _); simpl; new_events;
        repeat constructor; assumption.
Qed.
End Scheduler.

Section SchedulerBounds.
Context {P : Platform}.
Variables (g : globals) (dest : alfred_addr)
          (max_source_level : data_source_t) (type_filter tx_id : Z).
Hypothesis payload_holds_push : sizeof_push <= MAX_PAYLOAD.

Let ok := within_payload g max_source_level type_filter.
Let inv := buffer_ok g max_source_level type_filter.

Lemma size_t_small (z : Z) : 0 <= z < 2 ^ 64 -> size_t z = z.
Proof. unfold size_t. apply Z.mod_small. Qed.

Lemma size_t_le (z : Z) : 0 <= z -> size_t z <= z.
Proof. unfold size_t. intros H. apply Z.mod_le; lia. Qed.

Lemma fits_bound (b : push_buffer) (d : dataset) :
  0 <= total_length b < 65536 -> length_in_range d ->
  too_big b d = false ->
  total_length b + tlv_length (header (data d)) + sizeof_data
  <= MAX_PAYLOAD - sizeof_push.
Proof.
  unfold too_big, length_in_range. intros Hb Hd H.
  rewrite Z.gtb_ltb in H. apply Z.ltb_ge in H.
  rewrite size_t_small in H
    by (unfold sizeof_data, ETH_ALEN, sizeof_tlv; lia).
  pose proof (size_t_le (MAX_PAYLOAD - sizeof_push)). lia.
Qed.

Lemma fits_not_oversize (b : push_buffer) (d : dataset) :
  0 <= total_length b < 65536 -> length_in_range d ->
  too_big b d = false -> oversize d = false.
Proof.
  intros Hb Hd H. pose proof (fits_bound b d Hb Hd H) as Hf.
  unfold too_big in H. unfold oversize, too_big. simpl.
  rewrite Z.gtb_ltb in *. apply Z.ltb_ge in H. apply Z.ltb_ge.
  unfold length_in_range in Hd.
  rewrite size_t_small in *
    by (unfold sizeof_data, ETH_ALEN, sizeof_tlv; lia).
  lia.
Qed.

Lemma append_ok (b : push_buffer) (d : dataset) :
  inv b -> length_in_range d -> In d (data_hash g) ->
  passed_over max_source_level type_filter d = false ->
  too_big b d = false ->
  inv {| total_length :=
                 u16 (total_length b
                      + (tlv_length (header (data d)) + sizeof_data));
               seqno := seqno b;
               records := records b ++ [d] |}.
Proof.
  intros (Hr & Hm & Hf) Hd Hin Hpass Hbig.
  pose proof (fits_bound b d Hr Hd Hbig) as Hfit.
  pose proof (fits_not_oversize b d Hr Hd Hbig) as Hno.
  unfold inv, buffer_ok; cbn [total_length seqno records].
  split; [apply u16_range|]. split.
  - unfold length_in_range in Hd.
    assert (Hle : u16 (total_length b
                       + (tlv_length (header (data d)) + sizeof_data))
                  <= total_length b
                     + (tlv_length (header (data d)) + sizeof_data)).
    { unfold u16. apply Z.mod_le;
        unfold sizeof_data, ETH_ALEN, sizeof_tlv; lia. }
    lia.
  - apply Forall_app. split; [assumption|].
    repeat constructor; auto.
Qed.

Lemma flush_within (iface iface' : interface) (e e' : environ)
    (b b' : push_buffer) :
  inv b ->
  flush iface e dest tx_id b = (b', iface', e') ->
  sends_within ok e e' /\ inv b'.
Proof.
  intros (Hr & Hm & Hf). unfold flush.
  pose proof (send_alfred_packet_within ok iface e dest
                (push_packet tx_id b) (sizeof_push + total_length b)) as Hs.
  destruct (send_alfred_packet _ _ _ _ _) as [[r i1] e1]. simpl in Hs.
  intros H; inversion H; subst. split.
  - apply Hs. split; assumption.
  - unfold inv, buffer_ok; cbn [total_length seqno records].
    repeat split; auto; lia.
Qed.

Lemma push_data_loop_within (h : list dataset) :
  forall (iface iface' : interface) (e e' : environ) (b b' : push_buffer),
  (forall d, In d h -> In d (data_hash g)) ->
  Forall length_in_range h ->
  inv b ->
  push_data_loop h iface e dest max_source_level type_filter tx_id b
  = (b', iface', e') ->
  sends_within ok e e' /\ inv b'.
Proof.
  induction h as [|d h IH]; intros iface iface' e e' b b' Hin Hwf Hb;
    cbn [push_data_loop].
  - intros H; inversion H; subst. auto using sends_within_refl.
  - assert (Hin' : forall d0, In d0 h -> In d0 (data_hash g))
      by (intros; apply Hin; right; assumption).
    inversion Hwf as [|? ? Hd Hwf']; subst.
    destruct (passed_over max_source_level type_filter d) eqn:Hpass;
      [apply IH; assumption|].
    destruct (too_big b d) eqn:Hbig.
    + destruct (total_length b =? 0); [apply IH; assumption|].
      destruct (flush iface e dest tx_id b) as [[b1 i1] e1] eqn:Hfl.
      apply flush_within in Hfl as [Hs1 Hb1]; [|assumption].
      destruct (too_big b1 d) eqn:Hbig1.
      * intros H. apply IH in H as [Hs2 Hb2]; auto.
        eauto using sends_within_trans.
      * intros H. apply IH in H as [Hs2 Hb2]; auto.
        -- eauto using sends_within_trans.
        -- apply append_ok; auto. apply Hin. left. reflexivity.
    + cbv beta iota. rewrite Hbig.
      intros H. apply IH in H as [Hs2 Hb2]; auto.
      apply append_ok; auto. apply Hin. left. reflexivity.
Qed.
End SchedulerBounds.

Lemma sends_within_impl (ok ok' : packet -> Z -> Prop) (e e' : environ) :
  (forall p n, ok p n -> ok' p n) ->
  sends_within ok e e' -> sends_within ok' e e'.
Proof.
  intros Himp (evs & Ht & HF). exists evs. split; [assumption|].
  eapply Forall_impl; [|exact HF].
  intros [ | | ? p n | ? ? p n | ]; simpl; auto.
Qed.

Section SchedulerProperties.
Context {P : Platform}.

(** C6: every datagram that [push_data] hands to [send_alfred_packet], and
    so every one that reaches [sendto], has a length of at most
    [MAX_PAYLOAD] and carries only datasets of the store that passed the two
    filters and fit an empty buffer; a dataset whose single record does not
    fit an empty buffer is in none of them, and [push_data] returns 0 all
    the same.  [MAX_PAYLOAD] is taken to hold the PUSH_DATA header, and the
    stored lengths to be 16-bit values. *)
Theorem pushed_datagrams_within_payload (g : globals) (iface : interface)
    (e : environ) (dest : alfred_addr) (max_source_level : data_source_t)
    (type_filter tx_id : Z) :
  sizeof_push <= MAX_PAYLOAD ->
  Forall length_in_range (data_hash g) ->
  sends_within (within_payload g max_source_level type_filter) e
    (snd (push_data g iface e dest max_source_level type_filter tx_id))
  /\ (forall d,
        oversize d = true ->
        sends_within (fun p _ => ~ In d (pkt_records p)) e
          (snd (push_data g iface e dest max_source_level type_filter
                          tx_id)))
  /\ fst (fst (push_data g iface e dest max_source_level type_filter tx_id))
     = 0.
Proof.
  intros Hmax Hwf.
  assert (Hmain :
    sends_within (within_payload g max_source_level type_filter) e
      (snd (push_data g iface e dest max_source_level type_filter tx_id))
    /\ fst (fst (push_data g iface e dest max_source_level type_filter
                           tx_id)) = 0).
  { unfold push_data.
    destruct (push_data_loop _ _ _ _ _ _ _ _) as [[b1 i1] e1] eqn:Hloop.
    apply (push_data_loop_within g dest max_source_level type_filter tx_id
             Hmax) in Hloop as [Hs1 Hb1]; auto.
    2:{ unfold buffer_ok; simpl. repeat split; auto; lia. }
    assert (Hfl : exists b2 i2 e2,
              (if total_length b1 =? 0 then (b1, i1, e1)
               else flush i1 e1 dest tx_id b1) = (b2, i2, e2)
              /\ sends_within
                   (within_payload g max_source_level type_filter) e e2).
    { destruct (total_length b1 =? 0).
      - eauto.
      - destruct (flush i1 e1 dest tx_id b1) as [[b2 i2] e2] eqn:Hfl.
        exists b2, i2, e2. split; [reflexivity|].
        apply (flush_within g dest max_source_level type_filter tx_id Hmax)
          in Hfl as [Hs2 _]; [|assumption].
        eauto using sends_within_trans. }
    destruct Hfl as (b2 & i2 & e2 & -> & Hs2).
    destruct (_ || _); [|auto].
    pose proof (send_alfred_packet_within
                  (within_payload g max_source_level type_filter) i2 e2 dest
                  (status_end_packet tx_id (seqno b2)) sizeof_status) as Hs3.
    destruct (send_alfred_packet _ _ _ _ _) as [[r3 i3] e3]. simpl in *.
    split; [|reflexivity].
    eapply sends_within_trans; [exact Hs2|]. apply Hs3.
    split; [exact Hmax | constructor]. }
  destruct Hmain as [Hs Hr]. split; [exact Hs|]. split; [|exact Hr].
  intros d Hover. eapply sends_within_impl; [|exact Hs].
  intros p n [_ HF] Hin. rewrite Forall_forall in HF.
  destruct (HF d Hin) as (_ & _ & Hno). congruence.
Qed.

Lemma flush_sends (iface iface' : interface) (e e' : environ)
    (dest : alfred_addr) (tx_id : Z) (b b' : push_buffer) :
  flush iface e dest tx_id b = (b', iface', e') ->
  sends e e' [(push_packet tx_id b, sizeof_push + total_length b)]
  /\ seqno b' = u16 (seqno b + 1) /\ total_length b' = 0.
Proof.
  unfold flush.
  pose proof (send_alfred_packet_sends iface e dest (push_packet tx_id b)
                (sizeof_push + total_length b)) as Hs.
  destruct (send_alfred_packet _ _ _ _ _) as [[r i1] e1]. simpl in Hs.
  intros H; inversion H; subst. auto.
Qed.

Lemma push_data_loop_sends (dest : alfred_addr)
    (max_source_level : data_source_t) (type_filter tx_id : Z)
    (h : list dataset) :
  forall (iface iface' : interface) (e e' : environ) (b b' : push_buffer),
  0 <= seqno b < 65536 ->
  push_data_loop h iface e dest max_source_level type_filter tx_id b
  = (b', iface', e') ->
  exists l,
    sends e e' l /\ numbered tx_id (seqno b) l
    /\ seqno b' = u16 (seqno b + Z.of_nat (length l)).
Proof.
  induction h as [|d h IH]; intros iface iface' e e' b b' Hs;
    cbn [push_data_loop].
  - intros H; inversion H; subst. exists []. simpl.
    rewrite Z.add_0_r, u16_small by assumption. auto using sends_refl.
  - destruct (passed_over max_source_level type_filter d);
      [apply IH; assumption|].
    destruct (too_big b d) eqn:Hbig.
    + destruct (total_length b =? 0); [apply IH; assumption|].
      destruct (flush iface e dest tx_id b) as [[b1 i1] e1] eqn:Hfl.
      apply flush_sends in Hfl as (Hs1 & Hq1 & _).
      assert (Hr1 : 0 <= seqno b1 < 65536)
        by (rewrite Hq1; apply u16_range).
      assert (Hgen : forall b2, seqno b2 = seqno b1 ->
                push_data_loop h i1 e1 dest max_source_level type_filter
                               tx_id b2 = (b', iface', e') ->
                exists l,
                  sends e e' l /\ numbered tx_id (seqno b) l
                  /\ seqno b' = u16 (seqno b + Z.of_nat (length l))).
      { intros b2 Hq2 H. apply IH in H; [|rewrite Hq2; assumption].
        destruct H as (l & Hsl & Hnl & Hql).
        exists ((push_packet tx_id b, sizeof_push + total_length b) :: l).
        split; [apply (sends_trans e e1 e' [_] l); assumption|].
        split.
        - simpl. rewrite Hq2, Hq1 in Hnl. auto.
        - rewrite Hql, Hq2, Hq1, u16_succ. f_equal.
          cbn [length]. lia. }
      destruct (too_big b1 d); intros H; eapply Hgen; try exact H;
        reflexivity.
    + cbv beta iota. rewrite Hbig. intros H. apply IH in H; assumption.
Qed.

Lemma send_alfred_packet_on_wire (iface : interface) (e : environ)
    (dest : alfred_addr) (p : packet) (n : Z) :
  network_up iface e -> 0 <= n ->
  snd (fst (send_alfred_packet iface e dest p n)) = iface
  /\ network_up iface (snd (send_alfred_packet iface e dest p n))
  /\ all_on_wire e (snd (send_alfred_packet iface e dest p n)).
Proof.
  intros [Hs Hw] Hn. unfold send_alfred_packet, sendto, network_up.
  destruct (netsock iface <? 0) eqn:Hlt; [apply Z.ltb_lt in Hlt; lia|].
  cbn [emit wire trace clock heap].
  destruct (wire e) as [|r rest] eqn:Hwire; cbn [sendto_ret].
  - destruct (n =? - EPERM) eqn:He;
      [apply Z.eqb_eq in He; unfold EPERM in He; lia|].
    simpl. rewrite Hwire. repeat split; auto. new_events. reflexivity.
  - inversion Hw as [|? ? Hr Hrest]; subst.
    destruct r as [m|errno]; [|contradiction]. cbn [sendto_ret].
    destruct (m =? - EPERM) eqn:He;
      [apply Z.eqb_eq in He; unfold EPERM in He; lia|].
    simpl. repeat split; auto. new_events. reflexivity.
Qed.

Lemma flush_on_wire (iface iface' : interface) (e e' : environ)
    (dest : alfred_addr) (tx_id : Z) (b b' : push_buffer) :
  network_up iface e -> 0 <= total_length b ->
  flush iface e dest tx_id b = (b', iface', e') ->
  iface' = iface /\ network_up iface e' /\ all_on_wire e e'
  /\ total_length b' = 0.
Proof.
  intros Hup Hb. unfold flush.
  assert (Hn : 0 <= sizeof_push + total_length b)
    by (unfold sizeof_push, sizeof_tlv, sizeof_transaction_mgmt; lia).
  pose proof (send_alfred_packet_on_wire iface e dest (push_packet tx_id b)
                (sizeof_push + total_length b) Hup Hn) as H.
  destruct (send_alfred_packet _ _ _ _ _) as [[r i1] e1].
  cbn [fst snd] in H.
  intros Heq; inversion Heq; subst.
  destruct H as (? & ? & ?); auto.
Qed.

Lemma push_data_loop_on_wire (dest : alfred_addr)
    (max_source_level : data_source_t) (type_filter tx_id : Z)
    (h : list dataset) :
  forall (iface iface' : interface) (e e' : environ) (b b' : push_buffer),
  network_up iface e -> 0 <= total_length b ->
  push_data_loop h iface e dest max_source_level type_filter tx_id b
  = (b', iface', e') ->
  iface' = iface /\ network_up iface e' /\ all_on_wire e e'
  /\ 0 <= total_length b'.
Proof.
  induction h as [|d h IH]; intros iface iface' e e' b b' Hup Hb;
    cbn [push_data_loop].
  - intros H; inversion H; subst. auto using all_on_wire_refl.
  - destruct (passed_over max_source_level type_filter d);
      [apply IH; assumption|].
    destruct (too_big b d) eqn:Hbig.
    + destruct (total_length b =? 0); [apply IH; assumption|].
      destruct (flush iface e dest tx_id b) as [[b1 i1] e1] eqn:Hfl.
      apply flush_on_wire in Hfl as (-> & Hup1 & Hw1 & Hz1); auto.
      assert (Hgen : forall b2, 0 <= total_length b2 ->
                push_data_loop h iface e1 dest max_source_level type_filter
                               tx_id b2 = (b', iface', e') ->
                iface' = iface /\ network_up iface e' /\ all_on_wire e e'
                /\ 0 <= total_length b').
      { intros b2 Hb2 H. apply IH in H as (? & ? & ? & ?); auto.
        eauto using all_on_wire_trans. }
      destruct (too_big b1 d); intros H; eapply Hgen; try exact H.
      * lia.
      * cbn [total_length]. apply u16_range.
    + cbv beta iota. rewrite Hbig. intros H. apply IH in H; auto.
      cbn [total_length]. apply u16_range.
Qed.

Lemma push_data_on_wire (g : globals) (iface : interface) (e : environ)
    (dest : alfred_addr) (max_source_level : data_source_t)
    (type_filter tx_id : Z) :
  network_up iface e ->
  all_on_wire e
    (snd (push_data g iface e dest max_source_level type_filter tx_id)).
Proof.
  intros Hup. unfold push_data.
  destruct (push_data_loop _ _ _ _ _ _ _ _) as [[b1 i1] e1] eqn:Hloop.
  apply push_data_loop_on_wire in Hloop as (-> & Hup1 & Hw1 & Hb1);
    [|assumption|simpl; lia].
  assert (Hfl : exists b2 e2,
            (if total_length b1 =? 0 then (b1, iface, e1)
             else flush iface e1 dest tx_id b1) = (b2, iface, e2)
            /\ network_up iface e2 /\ all_on_wire e e2).
  { destruct (total_length b1 =? 0); [eauto|].
    destruct (flush iface e1 dest tx_id b1) as [[b2 i2] e2] eqn:Hfl.
    apply flush_on_wire in Hfl as (-> & Hup2 & Hw2 & _); auto.
    eauto 6 using all_on_wire_trans. }
  destruct Hfl as (b2 & e2 & -> & Hup2 & Hw2).
  destruct (_ || _); [|exact Hw2].
  assert (Hn : 0 <= sizeof_status)
    by (unfold sizeof_status, sizeof_tlv, sizeof_transaction_mgmt; lia).
  pose proof (send_alfred_packet_on_wire iface e2 dest
                (status_end_packet tx_id (seqno b2)) sizeof_status Hup2 Hn)
    as H.
  destruct (send_alfred_packet _ _ _ _ _) as [[r3 i3] e3].
  cbn [fst snd] in *. destruct H as (_ & _ & Hw3).
  eauto using all_on_wire_trans.
Qed.

Lemma sends_all_on_wire (e e' : environ) (l : list (packet * Z)) :
  sends e e' l -> all_on_wire e e' -> sends_on_wire e e' l.
Proof.
  intros (t1 & H1 & <-) (t2 & H2 & W2). exists t2. split; [assumption|].
  rewrite H1 in H2. apply app_inv_tail in H2. subst t2. exact W2.
Qed.

Lemma push_data_loop_nothing (iface : interface) (e : environ)
    (dest : alfred_addr) (max_source_level : data_source_t)
    (type_filter tx_id : Z) (h : list dataset) (s : Z)
    (l : list dataset) :
  (forall d, In d h ->
     passed_over max_source_level type_filter d = true
     \/ oversize d = true) ->
  push_data_loop h iface e dest max_source_level type_filter tx_id
                 {| total_length := 0; seqno := s; records := l |}
  = ({| total_length := 0; seqno := s; records := l |}, iface, e).
Proof.
  induction h as [|d h IH]; intros Hall; cbn [push_data_loop];
    [reflexivity|].
  destruct (passed_over max_source_level type_filter d) eqn:Hp.
  - apply IH. intros; apply Hall; right; assumption.
  - destruct (Hall d (or_introl eq_refl)) as [Hc|Ho]; [congruence|].
    unfold oversize, too_big in Ho. unfold too_big. simpl in *.
    rewrite Ho. apply IH. intros; apply Hall; right; assumption.
Qed.

(** X21: the terminator of a push.  On a store whose entries have a buffer
    as long as their length field, the datagrams [push_data] hands to
    [send_alfred_packet], which on an interface that is up are the datagrams
    given to [sendto], are its PUSH_DATA fragments, all of the caller's
    tx_id and numbered from 0 in 16 bits, followed by one STATUS_TXEND of
    the same tx_id whose seqno is the number of fragments modulo 65536, if
    and only if that 16-bit count is not 0 or [type_filter] is not
    [NO_FILTER]; for fewer than 65536 fragments the seqno is their number
    and the terminator is there exactly when a fragment was handed over or
    a filter given.  When every dataset is passed over or too large, a
    filtered request yields the STATUS_TXEND with seqno 0 alone and an
    unfiltered push yields nothing. *)
Theorem push_data_terminator (g : globals) (iface : interface)
    (e : environ) (dest : alfred_addr) (max_source_level : data_source_t)
    (type_filter tx_id : Z) :
  Forall buffer_matches (data_hash g) ->
  exists pushes,
    let n := Z.of_nat (length pushes) in
    let e' :=
      snd (push_data g iface e dest max_source_level type_filter tx_id) in
    sends e e'
      (pushes
       ++ if (u16 n >? 0) || negb (type_filter =? NO_FILTER)
          then [(status_end_packet tx_id (u16 n), sizeof_status)]
          else [])
    /\ numbered tx_id 0 pushes
    /\ (n < 65536 ->
        sends e e'
          (pushes
           ++ if (n >? 0) || negb (type_filter =? NO_FILTER)
              then [(status_end_packet tx_id n, sizeof_status)]
              else []))
    /\ ((forall d, In d (data_hash g) ->
           passed_over max_source_level type_filter d = true
           \/ oversize d = true) ->
        pushes = [])
    /\ (network_up iface e ->
        sends_on_wire e e'
          (pushes
           ++ if (u16 n >? 0) || negb (type_filter =? NO_FILTER)
              then [(status_end_packet tx_id (u16 n), sizeof_status)]
              else [])).
Proof.
  intros _.
  assert (Hmain : exists pushes,
    sends e
      (snd (push_data g iface e dest max_source_level type_filter tx_id))
      (pushes
       ++ if (u16 (Z.of_nat (length pushes)) >? 0)
             || negb (type_filter =? NO_FILTER)
          then [(status_end_packet tx_id (u16 (Z.of_nat (length pushes))),
                 sizeof_status)]
          else [])
    /\ numbered tx_id 0 pushes
    /\ ((forall d, In d (data_hash g) ->
           passed_over max_source_level type_filter d = true
           \/ oversize d = true) ->
        pushes = [])).
  { unfold push_data.
    destruct (push_data_loop _ _ _ _ _ _ _ _) as [[b1 i1] e1] eqn:Hloop.
    pose proof Hloop as Hloop'.
    apply push_data_loop_sends in Hloop as (l & Hs1 & Hn1 & Hq1);
      [|simpl; lia].
    cbn [seqno] in Hn1, Hq1. rewrite Z.add_0_l in Hq1.
    destruct (total_length b1 =? 0) eqn:Hz.
    - exists l. rewrite <- Hq1. split; [|split].
      + destruct (_ || _).
        * pose proof (send_alfred_packet_sends i1 e1 dest
                        (status_end_packet tx_id (seqno b1)) sizeof_status)
            as Hs3.
          destruct (send_alfred_packet _ _ _ _ _) as [[r3 i3] e3].
          simpl in *. eapply sends_trans; eassumption.
        * simpl. rewrite app_nil_r. exact Hs1.
      + exact Hn1.
      + intros Hall.
        rewrite push_data_loop_nothing in Hloop' by assumption.
        inversion Hloop'; subst.
        destruct Hs1 as (evs & Ht & Hl).
        assert (evs = []) as ->.
        { destruct evs as [|ev evs]; [reflexivity|].
          apply (f_equal (@length event)) in Ht.
          rewrite length_app in Ht. simpl in Ht. lia. }
        symmetry. exact Hl.
    - destruct (flush i1 e1 dest tx_id b1) as [[b2 i2] e2] eqn:Hfl.
      apply flush_sends in Hfl as (Hs2 & Hq2 & _).
      exists (l ++ [(push_packet tx_id b1, sizeof_push + total_length b1)]).
      assert (Hlen : seqno b2
                     = u16 (Z.of_nat
                              (length
                                 (l ++ [(push_packet tx_id b1,
                                         sizeof_push + total_length b1)])))).
      { rewrite Hq2, Hq1, length_app. cbn [length].
        unfold u16. rewrite Zplus_mod_idemp_l. f_equal. lia. }
      rewrite <- Hlen. split; [|split].
      + destruct (_ || _).
        * pose proof (send_alfred_packet_sends i2 e2 dest
                        (status_end_packet tx_id (seqno b2)) sizeof_status)
            as Hs3.
          destruct (send_alfred_packet _ _ _ _ _) as [[r3 i3] e3].
          simpl in *.
          eapply sends_trans; [|exact Hs3].
          eapply sends_trans; eassumption.
        * simpl. rewrite app_nil_r. eapply sends_trans; eassumption.
      + apply numbered_app; [exact Hn1| |lia].
        simpl. auto.
      + intros Hall.
        rewrite push_data_loop_nothing in Hloop' by assumption.
        inversion Hloop'; subst. simpl in Hz. discriminate. }
  destruct Hmain as (pushes & Hs & Hn & Hnone).
  exists pushes. cbv zeta. split; [exact Hs|]. split; [exact Hn|].
  split; [|split; [exact Hnone|]].
  - intros Hlt. rewrite u16_small in Hs by lia. exact Hs.
  - intros Hup. apply sends_all_on_wire; [exact Hs|].
    apply push_data_on_wire. exact Hup.
Qed.
End SchedulerProperties.

(** ** Send failures *)

(** C9, on the code: [send_alfred_packet] tears the interface down on every
    failure of [sendto], whatever [errno] says, and not only on EPERM: the
    value compared with [-EPERM] is the return value of [sendto], which is
    -1 for each failure, and EPERM is 1.  Both sockets are closed and set
    to -1 and -1 is returned. *)
Theorem any_send_failure_closes_sockets (iface : interface) (e : environ)
    (dest : alfred_addr) (p : packet) (n errno : Z)
    (rest : list sendto_result) :
  0 <= netsock iface -> wire e = Failed errno :: rest ->
  send_alfred_packet iface e dest p n
  = (-1, set_sockets iface (-1) (-1),
     {| clock := clock e; heap := heap e; wire := rest;
        trace := EvClose (netsock_mcast iface)
                 :: EvClose (netsock iface)
                 :: EvSendto (netsock iface) dest p n
                 :: EvSendPacket dest p n :: trace e |}).
Proof.
  intros Hs Hw. unfold send_alfred_packet, sendto.
  destruct (netsock iface <? 0) eqn:Hn; [apply Z.ltb_lt in Hn; lia|].
  cbn [emit wire trace clock heap]. rewrite Hw.
  cbn [sendto_ret]. unfold EPERM. rewrite Z.eqb_refl. reflexivity.
Qed.

(** ** Requests *)

Section Requests.
Context {P : Platform}.
Variable transaction_finished : transaction_head -> bool.

(** C10: a REQUEST of the right version whose body holds [requested_type]
    and [tx_id] makes the node call [push_data] towards the requester with
    SOURCE_SYNCED, the requested type as filter and the tx_id of the
    request, and return 0; the operating mode plays no part, a slave does
    what a master does; and [recv_alfred_packet] hands every accepted
    REQUEST to that handler. *)
Theorem request_answered_in_any_mode (g : globals) (iface : interface)
    (e : environ) (source : alfred_addr) (request : bytes) :
  get_u8 request off_version = ALFRED_VERSION ->
  sizeof_request - sizeof_tlv <= get_u16 request off_length ->
  let answer :=
    push_data g iface e source SOURCE_SYNCED
              (get_u8 request off_requested_type)
              (get_u16 request off_request_tx_id) in
  process_alfred_request g iface e source request
  = (0, snd (fst answer), snd answer)
  /\ (forall m,
        process_alfred_request (set_opmode g m) iface e source request
        = process_alfred_request g iface e source request)
  /\ (forall length,
        recv_dropped g iface source request length = false ->
        packet_type_of (get_u8 request off_type) = Some ALFRED_REQUEST ->
        recv_alfred_packet transaction_finished g iface e source request
                           length
        = (0, g, snd (fst answer), snd answer)).
Proof.
  intros Hv Hlen answer.
  assert (Hreq : process_alfred_request g iface e source request
                 = (0, snd (fst answer), snd answer)).
  { unfold process_alfred_request. rewrite Hv, Z.eqb_refl. simpl negb.
    cbv iota.
    destruct (_ <? _) eqn:Hl; [apply Z.ltb_lt in Hl; lia|].
    subst answer. destruct (push_data _ _ _ _ _ _ _) as [[r i'] e'].
    reflexivity. }
  split; [exact Hreq|]. split.
  - intros m. reflexivity.
  - intros length Hacc Ht. unfold recv_alfred_packet.
    rewrite Hacc, Ht, Hreq. reflexivity.
Qed.
End Requests.

(** ** Allocation failures *)

(** C4, at the failing inputs.  The merge of a push with one record of three
    bytes into an empty store, the allocation of the payload buffer failing:
    [finish_alfred_push_data] returns -1 with the new entry in the store,
    without buffer and with the length field as copied off the wire, and
    with the "changed" signal for type 9 raised.  The same push arriving as
    the one fragment that a master waits for in transaction 7 of peer A:
    the handler returns 0 and the transaction is completed and removed, the
    store and the signal being as before.  And when the allocation of the
    transaction packet fails after a transaction record was created for the
    push, the handler returns -1 and the new, empty record stays in the
    table, whatever the completion test. *)
Theorem allocation_failure_not_rolled_back :
  finish_alfred_push_data (P:=example_platform) (master_globals [] [])
    environ_no_buffer_merge mac_a push_one
  = (-1,
     master_globals
       [{| data := {| source := mac_a;
                      header := {| tlv_type := 9; tlv_version := 0;
                                   tlv_length := 768 |} |};
           buf := None;
           data_source := SOURCE_SYNCED;
           last_seen := 100 |}]
       [],
     {| clock := 100; heap := []; wire := []; trace := [EvChanged 9] |})
  /\ process_alfred_push_data (P:=example_platform) transaction_complete
       (master_globals [] [head_a7]) example_interface environ_no_buffer
       addr_a push_one
     = (0,
        master_globals
          [{| data := {| source := mac_a;
                         header := {| tlv_type := 9; tlv_version := 0;
                                      tlv_length := 768 |} |};
              buf := None;
              data_source := SOURCE_SYNCED;
              last_seen := 100 |}]
          [],
        {| clock := 100; heap := []; wire := []; trace := [EvChanged 9] |})
  /\ (forall transaction_finished,
        process_alfred_push_data (P:=example_platform) transaction_finished
          (master_globals [] []) example_interface environ_no_packet
          addr_a push_one
        = (-1,
           master_globals []
             [{| server_addr := mac_a; id := 7; requested_type := 0;
                 txend_packets := 0; num_packet := 0; client_socket := -1;
                 last_rx_time := 100; packet_list := [] |}],
           {| clock := 100; heap := []; wire := []; trace := [] |})).
Proof.
  split; [vm_compute; reflexivity|].
  split; [vm_compute; reflexivity|].
  intros transaction_finished. reflexivity.
Qed.

(** * The properties at concrete inputs *)

(** Node B holds a LOCAL dataset of type 5; peer A completes a transaction
    whose push carries a record under the same key, and resends the push. *)
Lemma local_dataset_never_modified_witness :
  In local_entry
     (data_hash
        (fst (recv_packets (P:=example_platform) transaction_complete
                [arrival_over_local; arrival_over_local]
                (master_globals [local_entry] [head_a7])
                example_interface))).
Proof.
  exact (proj1 (local_dataset_never_modified (P:=example_platform)
                  transaction_complete
                  [arrival_over_local; arrival_over_local]
                  (master_globals [local_entry] [head_a7])
                  example_interface local_entry
                  (or_introl eq_refl) eq_refl)).
Defined.

(** C2 as the specification states it fails: of two records under one key in
    one fragment the store ends with the second; the first, carried in a
    delivered fragment with no LOCAL entry under its key, is not in the
    store with its payload. *)
Lemma first_of_two_records_not_stored :
  let res :=
    finish_alfred_transaction (P:=example_platform) transaction_complete
      (master_globals [] [head_twice]) example_environ head_twice mac_a in
  fst (fst res) = 1
  /\ In (rec_old ++ rec_new, 1) (flat_map carried (packet_list head_twice))
  /\ no_local_entry (P:=example_platform)
       (data_hash (master_globals [] [head_twice])) (rec_old ++ rec_new, 1)
  /\ ~ stored_as_sent (P:=example_platform) mac_a
         (data_hash (snd (fst res))) (rec_old ++ rec_new, 1).
Proof.
  cbv zeta. split; [vm_compute; reflexivity|].
  split; [left; vm_compute; reflexivity|].
  split; [intros d Hd; vm_compute in Hd; discriminate|].
  intros (d & Hf & Hb & _).
  vm_compute in Hf. injection Hf as <-.
  vm_compute in Hb. discriminate.
Qed.

(** Node B, which holds a LOCAL dataset of its own, completes the
    transaction of peer A whose one fragment carries two records under one
    key: the second is stored. *)
Lemma completed_transaction_stores_last_record_witness :
  stored_as_sent (P:=example_platform) mac_a
    (data_hash
       (snd (fst (finish_alfred_transaction (P:=example_platform)
                    transaction_complete
                    (master_globals [local_entry] [head_twice])
                    example_environ head_twice mac_a))))
    (rec_new, 1).
Proof.
  set (res := finish_alfred_transaction _ _ _ _ _).
  assert (H : res = (1, snd (fst res), snd res))
    by (vm_compute; reflexivity).
  refine (completed_transaction_stores_last_record (P:=example_platform)
            transaction_complete _ _ _ _ head_twice mac_a
            [(rec_old ++ rec_new, 1)] [] (rec_new, 1) H _ _ _ _ _ _).
  - reflexivity.
  - constructor; [|constructor]. exists [104; 105]. split; reflexivity.
  - constructor; [|constructor]. vm_compute. discriminate.
  - vm_compute. reflexivity.
  - intros r' [].
  - intros d Hd. vm_compute in Hd. discriminate.
Defined.

(** A master that knows no transaction 7 of peer A receives a PUSH_DATA for
    it. *)
Lemma transaction_created_only_on_master_witness :
  hash_find (same_transaction mac_a 7)
    (transaction_hash
       (snd (fst (fst (recv_alfred_packet (P:=example_platform)
                         transaction_complete (master_globals [] [])
                         example_interface example_environ addr_a push_one
                         21))))) <> None.
Proof.
  refine (proj1 (proj2 (transaction_created_only_on_master
                          (P:=example_platform) transaction_complete))
                _ (master_globals [] []) example_interface example_environ
                addr_a push_one 21 mac_a _ _ _ _ _ _).
  - intros h Hc. apply transaction_complete_iff in Hc. exact (proj2 Hc).
  - reflexivity.
  - reflexivity.
  - reflexivity.
  - reflexivity.
  - reflexivity.
  - left. split; [reflexivity | vm_compute; discriminate].
Defined.

Lemma pushed_datagrams_within_payload_witness :
  sends_within
    (within_payload (P:=example_platform)
       (master_globals [entry_a10; local_entry] []) SOURCE_SYNCED 10)
    example_environ
    (snd (push_data (P:=example_platform)
            (master_globals [entry_a10; local_entry] []) example_interface
            example_environ addr_a SOURCE_SYNCED 10 7)).
Proof.
  apply (pushed_datagrams_within_payload (P:=example_platform)
           (master_globals [entry_a10; local_entry] []) example_interface
           example_environ addr_a SOURCE_SYNCED 10 7).
  - vm_compute. discriminate.
  - repeat constructor; vm_compute; discriminate.
Defined.

(** A filtered request that matches nothing is answered by the terminator
    with seqno 0 alone. *)
Lemma push_data_terminator_witness :
  sends example_environ
    (snd (push_data (P:=example_platform) (master_globals [entry_a10] [])
            example_interface example_environ addr_a SOURCE_SYNCED 42 7))
    [(status_end_packet 7 0, sizeof_status)].
Proof.
  destruct (push_data_terminator (P:=example_platform)
              (master_globals [entry_a10] []) example_interface
              example_environ addr_a SOURCE_SYNCED 42 7)
    as (pushes & Hs & _ & _ & Hnone & _).
  - constructor; [|constructor]. exists [1; 2; 3]. split; reflexivity.
  - rewrite Hnone in Hs.
    + exact Hs.
    + intros d [<-|[]]. left. reflexivity.
Defined.

Lemma big_store_from_matches (payload : bytes) (n : nat) :
  forall i : Z,
  Forall buffer_matches
         (big_store_from payload (Z.of_nat (length payload)) n i).
Proof.
  induction n as [|n IH]; intros i; cbn [big_store_from]; constructor.
  - exists payload. split; reflexivity.
  - apply IH.
Qed.

(** C7, on the code: the sequence counter of [push_data] is a [uint16_t]
    (send.c lines 49, 79, 103) and the test of line 109 reads it after it
    has wrapped.  An unfiltered push of a store of 65536 datasets, each with
    a buffer as long as its length field and each sent in a fragment of its
    own on an interface that is up, hands 65536 PUSH_DATA fragments to
    [send_alfred_packet] and to [sendto] and is followed by no STATUS_TXEND,
    the counter being back at 0. *)
Theorem terminator_missing_after_65536_fragments :
  let t :=
    trace (snd (push_data (P:=example_platform)
                  (master_globals big_store []) example_interface
                  example_environ addr_a SOURCE_SYNCED
                  (NO_FILTER (Platform:=example_platform)) 7)) in
  Forall buffer_matches (data_hash (master_globals big_store []))
  /\ network_up example_interface example_environ
  /\ count_type ALFRED_PUSH_DATA (sent_packets t) = 65536
  /\ count_type ALFRED_STATUS_TXEND (sent_packets t) = 0
  /\ count_type ALFRED_PUSH_DATA (wire_packets t) = 65536
  /\ count_type ALFRED_STATUS_TXEND (wire_packets t) = 0.
Proof.
  cbv zeta. split; [apply big_store_from_matches|].
  split; [split; [vm_compute; discriminate | constructor]|].
  vm_compute. repeat split; reflexivity.
Qed.

(** [sendto] fails with ENETUNREACH on an interface whose sockets are 3 and
    4. *)
Lemma any_send_failure_closes_sockets_witness :
  send_alfred_packet example_interface environ_unreachable addr_a
    (status_end_packet 7 0) sizeof_status
  = (-1,
     {| netsock := -1; netsock_mcast := -1; scope_id := 0;
        server_hash := [] |},
     {| clock := 100; heap := []; wire := [];
        trace := [EvClose 4; EvClose 3;
                  EvSendto 3 addr_a (status_end_packet 7 0) sizeof_status;
                  EvSendPacket addr_a (status_end_packet 7 0)
                               sizeof_status] |}).
Proof.
  apply (any_send_failure_closes_sockets example_interface
           environ_unreachable addr_a (status_end_packet 7 0) sizeof_status
           ENETUNREACH []).
  - simpl. lia.
  - reflexivity.
Defined.

Lemma duplicate_fragment_discarded_witness :
  exists r g',
    process_alfred_push_data (P:=example_platform) transaction_complete
      (master_globals [] [head_with_fragment]) example_interface
      example_environ addr_a push_one
    = (r, g', example_environ)
    /\ Forall2 same_fragments [head_with_fragment] (transaction_hash g').
Proof.
  destruct (duplicate_fragment_discarded (P:=example_platform)
              transaction_complete (master_globals [] [head_with_fragment])
              example_interface example_environ addr_a push_one mac_a
              head_with_fragment eq_refl eq_refl eq_refl)
    as (r & g' & H1 & _ & H2 & _).
  exists r, g'. split; assumption.
Defined.

(** A slave answers a REQUEST for type 42. *)
Lemma request_answered_in_any_mode_witness :
  fst (fst (process_alfred_request (P:=example_platform)
              (slave_globals [entry_a10] []) example_interface
              example_environ addr_a request_type42)) = 0.
Proof.
  destruct (request_answered_in_any_mode (P:=example_platform)
              transaction_complete (slave_globals [entry_a10] [])
              example_interface example_environ addr_a request_type42)
    as [H _].
  - reflexivity.
  - vm_compute. discriminate.
  - rewrite H. reflexivity.
Defined.

(** * Further properties of the code *)

(** ** The tables keep one element per key *)

Section KeyedTables.
Context {A K : Type} (key : A -> K) (same : A -> bool).

Lemma hash_set_keys (h : list A) (v x : A) :
  hash_find same h = Some x -> key v = key x ->
  map key (hash_set same h v) = map key h.
Proof.
  unfold hash_find. induction h as [|y h IH]; simpl; [discriminate|].
  destruct (same y) eqn:Hy; intros Hf Hk.
  - injection Hf as ->. simpl. rewrite Hk. reflexivity.
  - simpl. rewrite IH by assumption. reflexivity.
Qed.

Lemma hash_set_Forall (Q : A -> Prop) (h : list A) (v : A) :
  Forall Q h -> Q v -> Forall Q (hash_set same h v).
Proof.
  intros HF Hv. induction HF as [|y h Hy HF IH]; simpl; [constructor|].
  destruct (same y); constructor; auto.
Qed.

Lemma hash_remove_Forall (Q : A -> Prop) (h : list A) :
  Forall Q h -> Forall Q (hash_remove same h).
Proof.
  intros HF. induction HF as [|y h Hy HF IH]; simpl; [constructor|].
  destruct (same y); [assumption | constructor; auto].
Qed.

Lemma hash_remove_keys_incl (h : list A) (k : K) :
  In k (map key (hash_remove same h)) -> In k (map key h).
Proof.
  induction h as [|y h IH]; simpl; [tauto|].
  destruct (same y); simpl; tauto.
Qed.

Lemma hash_remove_NoDup (h : list A) :
  NoDup (map key h) -> NoDup (map key (hash_remove same h)).
Proof.
  induction h as [|y h IH]; simpl; intros Hn; [assumption|].
  inversion Hn as [|? ? Hnot Hrest]; subst.
  destruct (same y); [assumption|]. simpl. constructor; auto.
  intros Hin. apply Hnot. eapply hash_remove_keys_incl. exact Hin.
Qed.

Lemma hash_find_None_key (k : K) (h : list A) :
  (forall x, same x = true <-> key x = k) ->
  hash_find same h = None -> ~ In k (map key h).
Proof.
  intros Hsame. unfold hash_find.
  induction h as [|y h IH]; simpl; [tauto|].
  destruct (same y) eqn:Hy; [discriminate|].
  intros Hf [Hk|Hin]; [|exact (IH Hf Hin)].
  apply Hsame in Hk. congruence.
Qed.

Lemma hash_find_key_None (k : K) (h : list A) :
  (forall x, same x = true <-> key x = k) ->
  ~ In k (map key h) -> hash_find same h = None.
Proof.
  intros Hsame. unfold hash_find.
  induction h as [|y h IH]; simpl; intros Hnot; [reflexivity|].
  destruct (same y) eqn:Hy.
  - apply Hsame in Hy. tauto.
  - apply IH. tauto.
Qed.

Lemma hash_remove_gone (k : K) (h : list A) :
  (forall x, same x = true <-> key x = k) ->
  NoDup (map key h) -> hash_find same (hash_remove same h) = None.
Proof.
  intros Hsame. unfold hash_find.
  induction h as [|y h IH]; simpl; intros Hn; [reflexivity|].
  inversion Hn as [|? ? Hnot Hrest]; subst.
  destruct (same y) eqn:Hy.
  - apply Hsame in Hy. rewrite Hy in Hnot.
    apply (hash_find_key_None k h Hsame Hnot).
  - simpl. rewrite Hy. apply IH. exact Hrest.
Qed.

Lemma hash_add_NoDup (k : K) (h : list A) (v : A) :
  (forall x, same x = true <-> key x = k) ->
  hash_find same h = None -> key v = k -> NoDup (map key h) ->
  NoDup (map key (h ++ [v])).
Proof.
  intros Hsame Hf Hv Hn. rewrite map_app. apply NoDup_app.
  - exact Hn.
  - simpl. constructor; [tauto | constructor].
  - intros a Ha [<-|[]]. rewrite Hv in Ha.
    exact (hash_find_None_key k h Hsame Hf Ha).
Qed.
End KeyedTables.

(** ** The transaction table *)

Lemma same_transaction_key (mac : ether_addr) (tx_id : Z)
    (x : transaction_head) :
  same_transaction mac tx_id x = true <-> transaction_key x = (mac, tx_id).
Proof.
  rewrite same_transaction_eq. unfold transaction_key. split.
  - intros [-> ->]. reflexivity.
  - intros H. injection H. auto.
Qed.

Lemma get_u8_firstn (b : bytes) (n off : nat) :
  (off < n)%nat -> get_u8 (firstn n b) off = get_u8 b off.
Proof.
  intros H. unfold get_u8. rewrite nth_firstn.
  apply Nat.ltb_lt in H. rewrite H. reflexivity.
Qed.

Lemma get_u16_firstn (b : bytes) (n off : nat) :
  (S off < n)%nat -> get_u16 (firstn n b) off = get_u16 b off.
Proof.
  intros H. unfold get_u16. rewrite !get_u8_firstn by lia. reflexivity.
Qed.

Section TableInvariant.
Context {P : Platform}.
Variable transaction_finished : transaction_head -> bool.

Lemma write_head_ok (g : globals) (mac : ether_addr) (tx_id : Z)
    (head head' : transaction_head) :
  table_ok (transaction_hash g) ->
  hash_find (same_transaction mac tx_id) (transaction_hash g) = Some head ->
  same_key head head' -> head_ok head' ->
  table_ok (transaction_hash (write_head g mac tx_id head')).
Proof.
  intros [Hn HF] Hfind [Hs Hi] Hok. unfold write_head; simpl. split.
  - rewrite (hash_set_keys transaction_key _ _ head' head Hfind);
      [assumption|].
    unfold transaction_key. congruence.
  - apply hash_set_Forall; assumption.
Qed.

Lemma find_or_add_transaction_ok (g g1 : globals) (e e1 : environ)
    (mac : ether_addr) (tx_id : Z) (may_create : bool)
    (r : option transaction_head) :
  table_ok (transaction_hash g) ->
  find_or_add_transaction g e mac tx_id may_create = (r, g1, e1) ->
  table_ok (transaction_hash g1)
  /\ match r with
     | Some head => head_ok head
     | None => True
     end.
Proof.
  intros [Hn HF] H. apply find_or_add_transaction_spec in H.
  destruct r as [head|].
  - destruct H as [Hfind [[-> _]|(Hnone & _ & _ & Ht & Hz & Hnp & Hp)]].
    + split; [split; assumption|].
      rewrite Forall_forall in HF. apply HF.
      apply find_some in Hfind. tauto.
    + assert (Hok : head_ok head).
      { unfold head_ok. rewrite Hnp, Hp. simpl.
        repeat split; constructor. }
      split; [|exact Hok]. rewrite Ht. split.
      * apply (hash_add_NoDup transaction_key
                 (same_transaction mac tx_id) (mac, tx_id));
          auto using same_transaction_key.
        rewrite Ht, hash_find_app, Hnone in Hfind.
        unfold hash_find in Hfind. simpl in Hfind.
        destruct (same_transaction mac tx_id head) eqn:Hs; [|discriminate].
        apply same_transaction_key. exact Hs.
      * apply Forall_app. split; [assumption | constructor; auto].
  - destruct H as [-> _]. split; [split; assumption | exact I].
Qed.

Lemma finish_alfred_transaction_ok (g g' : globals) (e e' : environ)
    (head : transaction_head) (mac : ether_addr) (r : Z) :
  table_ok (transaction_hash g) ->
  finish_alfred_transaction transaction_finished g e head mac = (r, g', e') ->
  table_ok (transaction_hash g').
Proof.
  intros [Hn HF] H. destruct (transaction_finished head) eqn:Htf.
  - destruct (finish_alfred_transaction_done transaction_finished g e head
                mac Htf) as (e2 & Heq & _).
    rewrite Heq in H. inversion H; subst. simpl.
    rewrite deliver_transaction_hash. split.
    + apply hash_remove_NoDup. exact Hn.
    + apply hash_remove_Forall. exact HF.
  - rewrite finish_alfred_transaction_pending in H by assumption.
    inversion H; subst. split; assumption.
Qed.

Lemma head_ok_last_rx (head : transaction_head) (t : Z) :
  head_ok head -> head_ok (set_last_rx_time head t).
Proof. intros H. exact H. Qed.

Lemma head_ok_txend (head : transaction_head) (n : Z) :
  head_ok head -> head_ok (set_txend_packets head n).
Proof. intros H. exact H. Qed.

(** A fragment with a seqno that no stored fragment has, and with its
    transaction fields, keeps the record in order. *)
Lemma head_ok_append (head : transaction_head) (push : bytes) :
  head_ok head ->
  sizeof_push - sizeof_tlv <= get_u16 push off_length ->
  existsb (same_seqno push) (packet_list head) = false ->
  head_ok
    (set_packets head (num_packet head + 1)
       (packet_list head
        ++ [firstn (Z.to_nat (get_u16 push off_length + sizeof_tlv))
                   push])).
Proof.
  intros (Hnum & Hnd & HF) Hlen Hdup.
  assert (Hn : (8 <= Z.to_nat (get_u16 push off_length + sizeof_tlv))%nat).
  { unfold sizeof_push, sizeof_tlv, sizeof_transaction_mgmt in *. lia. }
  set (n := Z.to_nat (get_u16 push off_length + sizeof_tlv)) in *.
  unfold head_ok. cbn [num_packet packet_list set_packets]. split; [|split].
  - rewrite length_app. cbn [length]. lia.
  - rewrite map_app. apply NoDup_app; [assumption| |].
    + simpl. constructor; [tauto | constructor].
    + intros s Hin [<-|[]]. unfold fragment_seqno in Hin.
      rewrite get_u16_firstn in Hin by (unfold off_tx_seqno; lia).
      apply in_map_iff in Hin as (stored & Hs & Hin).
      assert (Hx : existsb (same_seqno push) (packet_list head) = true).
      { apply existsb_exists. exists stored. split; [assumption|].
        unfold same_seqno. apply Z.eqb_eq. exact Hs. }
      congruence.
  - apply Forall_app. split; [assumption|]. constructor; [|constructor].
    rewrite get_u16_firstn by (unfold off_length; lia). exact Hlen.
Qed.

Lemma process_alfred_push_data_ok (g g' : globals) (iface : interface)
    (e e' : environ) (source : alfred_addr) (push : bytes) (r : Z) :
  table_ok (transaction_hash g) ->
  process_alfred_push_data transaction_finished g iface e source push
  = (r, g', e') ->
  table_ok (transaction_hash g').
Proof.
  unfold process_alfred_push_data. intros Hok H.
  destruct (resolve_mac g iface source) as [mac|];
    [|inversion H; subst; assumption].
  destruct (get_u16 push off_length <? sizeof_push - sizeof_tlv) eqn:Hlen;
    [inversion H; subst; assumption|].
  apply Z.ltb_ge in Hlen.
  destruct (find_or_add_transaction _ _ _ _ _) as [[h g1] e1] eqn:Hf.
  destruct (find_or_add_transaction_ok _ _ _ _ _ _ _ _ Hok Hf)
    as [Hok1 Hhead].
  apply find_or_add_transaction_spec in Hf.
  destruct h as [head|]; [|inversion H; subst; assumption].
  destruct Hf as [Hfind _].
  set (head1 := set_last_rx_time head (clock e1)) in *.
  pose proof (write_head_ok g1 mac _ head head1 Hok1 Hfind
                (same_key_refl _) Hhead) as Hok2.
  destruct (write_head_table g1 mac _ head head1 Hfind (same_key_refl _))
    as (_ & Hfind2 & _).
  destruct (existsb _ _) eqn:Hdup; [inversion H; subst; assumption|].
  destruct (malloc e1) as [[|] e2]; simpl in H;
    [|inversion H; subst; assumption].
  destruct (malloc e2) as [[|] e3]; simpl in H;
    [|inversion H; subst; assumption].
  match type of H with
  | context [finish_alfred_transaction _ ?ga ?ea ?hd ?m] =>
      destruct (finish_alfred_transaction transaction_finished ga ea hd m)
        as [[r4 g4] e4] eqn:Hfin
  end.
  inversion H; subst.
  eapply finish_alfred_transaction_ok; [|exact Hfin].
  eapply write_head_ok; [exact Hok2 | exact Hfind2 | split; reflexivity |].
  apply (head_ok_append head1 push Hhead Hlen Hdup).
Qed.

Lemma process_alfred_status_txend_ok (g g' : globals) (iface : interface)
    (e e' : environ) (source : alfred_addr) (request : bytes) (r : Z) :
  table_ok (transaction_hash g) ->
  process_alfred_status_txend transaction_finished g iface e source request
  = (r, g', e') ->
  table_ok (transaction_hash g').
Proof.
  unfold process_alfred_status_txend. intros Hok H.
  destruct (negb _); [inversion H; subst; assumption|].
  destruct (_ <? _); [inversion H; subst; assumption|].
  destruct (resolve_mac g iface source) as [mac|];
    [|inversion H; subst; assumption].
  destruct (find_or_add_transaction _ _ _ _ _) as [[h g1] e1] eqn:Hf.
  destruct (find_or_add_transaction_ok _ _ _ _ _ _ _ _ Hok Hf)
    as [Hok1 Hhead].
  apply find_or_add_transaction_spec in Hf.
  destruct h as [head|]; [|inversion H; subst; assumption].
  destruct Hf as [Hfind _].
  match type of H with
  | context [finish_alfred_transaction _ ?ga ?ea ?hd ?m] =>
      destruct (finish_alfred_transaction transaction_finished ga ea hd m)
        as [[r4 g4] e4] eqn:Hfin
  end.
  inversion H; subst.
  eapply finish_alfred_transaction_ok; [|exact Hfin].
  eapply write_head_ok; [exact Hok1 | exact Hfind | split; reflexivity |].
  exact Hhead.
Qed.

Lemma recv_alfred_packet_table_ok (g g' : globals)
    (iface iface' : interface) (e e' : environ) (source : alfred_addr)
    (buf : bytes) (length r : Z) :
  table_ok (transaction_hash g) ->
  recv_alfred_packet transaction_finished g iface e source buf length
  = (r, g', iface', e') ->
  table_ok (transaction_hash g').
Proof.
  intros Hok H. unfold recv_alfred_packet in H.
  destruct (recv_dropped _ _ _ _ _); [inversion H; subst; assumption|].
  destruct (packet_type_of _) as [[| | |]|].
  - destruct (process_alfred_push_data _ _ _ _ _ _) as [[r1 g1] e1] eqn:Hp.
    inversion H; subst. eapply process_alfred_push_data_ok; eassumption.
  - destruct (process_alfred_announce_master _ _ _ _ _) as [[r1 i1] e1].
    inversion H; subst; assumption.
  - destruct (process_alfred_request _ _ _ _ _) as [[r1 i1] e1].
    inversion H; subst; assumption.
  - destruct (process_alfred_status_txend _ _ _ _ _ _) as [[r1 g1] e1]
      eqn:Hp.
    inversion H; subst. eapply process_alfred_status_txend_ok; eassumption.
  - inversion H; subst; assumption.
Qed.

(** No two of them equal, 16-bit values are at most 65536. *)
Lemma distinct_u16_count (l : list Z) :
  NoDup l -> Forall (fun z => 0 <= z < 65536) l ->
  Z.of_nat (length l) <= 65536.
Proof.
  intros Hn Hr.
  assert (Hincl : incl l (map Z.of_nat (seq 0 (Z.to_nat 65536)))).
  { intros z Hz. rewrite Forall_forall in Hr. specialize (Hr z Hz).
    apply in_map_iff. exists (Z.to_nat z). split; [lia|].
    apply in_seq. lia. }
  apply (NoDup_incl_length Hn) in Hincl.
  rewrite length_map, length_seq in Hincl. lia.
Qed.

Lemma head_ok_bounded (h : transaction_head) :
  head_ok h -> 0 <= num_packet h <= 65536.
Proof.
  intros (Hnum & Hnd & _). rewrite Hnum. split; [lia|].
  rewrite <- (length_map fragment_seqno).
  apply distinct_u16_count; [exact Hnd|].
  apply Forall_forall. intros z Hz.
  apply in_map_iff in Hz as (push & <- & _).
  apply get_u16_range.
Qed.

(** X1: the transaction table keeps its shape across every datagram: one
    record per (sender, tx_id); in every record the count of received
    fragments is the length of the fragment list, no two stored fragments
    have the same seqno, and every stored fragment has a length field that
    covers its transaction fields, so that the test repeated in
    [finish_alfred_push_data] cannot fail on a stored fragment.  A record
    so holds at most 65536 fragments, and the [int] that counts them stays
    far from overflow. *)
Theorem transaction_table_invariant (g g' : globals)
    (iface iface' : interface) (e e' : environ) (source : alfred_addr)
    (buf : bytes) (length r : Z) :
  table_ok (transaction_hash g) ->
  recv_alfred_packet transaction_finished g iface e source buf length
  = (r, g', iface', e') ->
  table_ok (transaction_hash g')
  /\ Forall (fun h => 0 <= num_packet h <= 65536) (transaction_hash g').
Proof.
  intros Hok H.
  pose proof (recv_alfred_packet_table_ok _ _ _ _ _ _ _ _ _ _ Hok H) as Hok'.
  split; [exact Hok'|].
  destruct Hok' as [_ HF]. eapply Forall_impl; [|exact HF].
  intros h. apply head_ok_bounded.
Qed.
End TableInvariant.

(** ** What every merge keeps of the store *)

Section StoreInvariant.
Context {P : Platform}.
Variable transaction_finished : transaction_head -> bool.

(** A property of the store that no merged record breaks. *)
Variable Q : list dataset -> Prop.
Hypothesis Q_merge_record :
  forall mac pos data_len g e ok g' e',
    Q (data_hash g) ->
    merge_record mac pos data_len g e = (ok, g', e') ->
    Q (data_hash g').

Lemma finish_alfred_push_data_loop_keeps (fuel : nat) (mac : ether_addr) :
  forall (pos : bytes) (len : Z) (g g' : globals) (e e' : environ) (r : Z),
  Q (data_hash g) ->
  finish_alfred_push_data_loop fuel mac pos len g e = (r, g', e') ->
  Q (data_hash g').
Proof.
  induction fuel as [|fuel IH]; cbn [finish_alfred_push_data_loop];
    intros pos len g g' e e' r HQ.
  - intros H; inversion H; subst; assumption.
  - destruct (len <? sizeof_data);
      [intros H; inversion H; subst; assumption|].
    destruct (_ >? len); [intros H; inversion H; subst; assumption|].
    destruct (merge_record _ _ _ _ _) as [[ok g1] e1] eqn:Hm.
    apply (Q_merge_record _ _ _ _ _ _ _ _ HQ) in Hm.
    destruct ok; [apply IH; assumption|].
    intros H; inversion H; subst; assumption.
Qed.

Lemma deliver_keeps (l : list bytes) (mac : ether_addr) :
  forall (g g' : globals) (e e' : environ),
  Q (data_hash g) -> deliver l mac g e = (g', e') -> Q (data_hash g').
Proof.
  induction l as [|push l IH]; simpl; intros g g' e e' HQ.
  - intros H; inversion H; subst; assumption.
  - destruct (finish_alfred_push_data g e mac push) as [[r g1] e1] eqn:Hp.
    apply IH. unfold finish_alfred_push_data in Hp.
    destruct (_ <? _); [inversion Hp; subst; assumption|].
    eapply finish_alfred_push_data_loop_keeps; eassumption.
Qed.

Lemma finish_alfred_transaction_keeps (g g' : globals) (e e' : environ)
    (head : transaction_head) (mac : ether_addr) (r : Z) :
  Q (data_hash g) ->
  finish_alfred_transaction transaction_finished g e head mac = (r, g', e') ->
  Q (data_hash g').
Proof.
  intros HQ H. destruct (transaction_finished head) eqn:Htf.
  - destruct (finish_alfred_transaction_done transaction_finished g e head
                mac Htf) as (e2 & Heq & _).
    rewrite Heq in H. inversion H; subst. simpl.
    destruct (deliver (packet_list head) mac g e) as [g1 e1] eqn:Hd.
    simpl. eapply deliver_keeps; eassumption.
  - rewrite finish_alfred_transaction_pending in H by assumption.
    inversion H; subst; assumption.
Qed.

Lemma recv_alfred_packet_keeps (g g' : globals) (iface iface' : interface)
    (e e' : environ) (source : alfred_addr) (buf : bytes) (length r : Z) :
  Q (data_hash g) ->
  recv_alfred_packet transaction_finished g iface e source buf length
  = (r, g', iface', e') ->
  Q (data_hash g').
Proof.
  intros HQ H. unfold recv_alfred_packet in H.
  destruct (recv_dropped _ _ _ _ _); [inversion H; subst; assumption|].
  destruct (packet_type_of _) as [[| | |]|].
  - unfold process_alfred_push_data in H.
    destruct (resolve_mac g iface source) as [mac|];
      [|inversion H; subst; assumption].
    destruct (_ <? _); [inversion H; subst; assumption|].
    destruct (find_or_add_transaction _ _ _ _ _) as [[h g1] e1] eqn:Hf.
    apply find_or_add_transaction_data_hash in Hf as (Hd & _).
    rewrite <- Hd in HQ.
    destruct h as [head|]; [|inversion H; subst; assumption].
    destruct (existsb _ _); [inversion H; subst; assumption|].
    destruct (malloc e1) as [[|] e2]; simpl in H;
      [|inversion H; subst; assumption].
    destruct (malloc e2) as [[|] e3]; simpl in H;
      [|inversion H; subst; assumption].
    match type of H with
    | context [finish_alfred_transaction _ ?ga ?ea ?hd ?m] =>
        destruct (finish_alfred_transaction transaction_finished ga ea hd m)
          as [[r4 g4] e4] eqn:Hfin
    end.
    inversion H; subst.
    eapply finish_alfred_transaction_keeps; [|exact Hfin]. exact HQ.
  - destruct (process_alfred_announce_master _ _ _ _ _) as [[r1 i1] e1].
    inversion H; subst; assumption.
  - destruct (process_alfred_request _ _ _ _ _) as [[r1 i1] e1].
    inversion H; subst; assumption.
  - unfold process_alfred_status_txend in H.
    destruct (negb _); [inversion H; subst; assumption|].
    destruct (_ <? _); [inversion H; subst; assumption|].
    destruct (resolve_mac g iface source) as [mac|];
      [|inversion H; subst; assumption].
    destruct (find_or_add_transaction _ _ _ _ _) as [[h g1] e1] eqn:Hf.
    apply find_or_add_transaction_data_hash in Hf as (Hd & _).
    rewrite <- Hd in HQ.
    destruct h as [head|]; [|inversion H; subst; assumption].
    match type of H with
    | context [finish_alfred_transaction _ ?ga ?ea ?hd ?m] =>
        destruct (finish_alfred_transaction transaction_finished ga ea hd m)
          as [[r4 g4] e4] eqn:Hfin
    end.
    inversion H; subst.
    eapply finish_alfred_transaction_keeps; [|exact Hfin]. exact HQ.
  - inversion H; subst; assumption.
Qed.

Lemma recv_packets_keeps (l : list arrival) :
  forall (g : globals) (iface : interface),
  Q (data_hash g) ->
  Q (data_hash (fst (recv_packets transaction_finished l g iface))).
Proof.
  induction l as [|a l IH]; intros g iface HQ; simpl; [assumption|].
  destruct (recv_alfred_packet _ _ _ _ _ _ _) as [[[r g1] i1] e1] eqn:H.
  apply IH. eapply recv_alfred_packet_keeps; eassumption.
Qed.
End StoreInvariant.

Lemma hash_set_In {A : Type} (same : A -> bool) (h : list A) (v x : A) :
  In x (hash_set same h v) -> x = v \/ In x h.
Proof.
  induction h as [|y h IH]; simpl; [tauto|].
  destruct (same y); simpl; intros [Hx|Hx]; auto.
  apply IH in Hx. tauto.
Qed.

Lemma same_data_iff (rec : alfred_data) (x : dataset) :
  same_data rec x = true <-> data_key (data x) = data_key rec.
Proof. unfold same_data. apply data_key_eqb_eq. Qed.

Section MergeShape.
Context {P : Platform}.

(** What one merged record does to the store: nothing, or a write to the
    entry of its key, which was there or has just been added. *)
Lemma merge_record_shape (mac : ether_addr) (pos : bytes) (data_len : Z)
    (g g' : globals) (e e' : environ) (ok : bool) :
  merge_record mac pos data_len g e = (ok, g', e') ->
  data_hash g' = data_hash g
  \/ exists h1 ds v,
       (h1 = data_hash g
        \/ (h1 = data_hash g ++ [ds]
            /\ hash_find (same_data (read_data pos)) (data_hash g) = None
            /\ data_source ds = SOURCE_SYNCED))
       /\ hash_find (same_data (read_data pos)) h1 = Some ds
       /\ data_key (data v) = data_key (data ds)
       /\ data_source v <> SOURCE_LOCAL
       /\ data_hash g' = hash_set (same_data (read_data pos)) h1 v.
Proof.
  unfold merge_record.
  destruct (find_or_create (read_data pos) g e) as [[r g1] e1] eqn:Hfc.
  apply find_or_create_spec in Hfc as (_ & _ & _ & _ & Hr).
  destruct r as [[ds new]|];
    [|intros H; inversion H; subst; left; reflexivity].
  destruct Hr as [Hfind Hnew].
  destruct (data_source_eqb (data_source ds) SOURCE_LOCAL) eqn:Hloc.
  { intros H; inversion H; subst. destruct new.
    - destruct Hnew as (_ & -> & _). discriminate.
    - destruct Hnew as [-> _]. left. reflexivity. }
  assert (Hnl : data_source ds <> SOURCE_LOCAL)
    by (intros Hc; rewrite Hc in Hloc; discriminate).
  assert (Hh1 : data_hash g1 = data_hash g
                \/ (data_hash g1 = data_hash g ++ [ds]
                    /\ hash_find (same_data (read_data pos)) (data_hash g)
                       = None
                    /\ data_source ds = SOURCE_SYNCED)).
  { destruct new.
    - destruct Hnew as (Hn & Hds & Ha). right. subst ds. auto.
    - destruct Hnew as [-> _]. left. reflexivity. }
  match goal with |- context [malloc ?x] => destruct (malloc x) as [ok' e3] end.
  destruct ok'; cbn [negb]; intros H; inversion H; subst; right;
    cbn [data_hash set_data_hash];
    exists (data_hash g1), ds; eexists;
    (split; [exact Hh1|]); (split; [exact Hfind|]);
    (split; [|split; [|reflexivity]]); cbn [data data_source];
    try reflexivity.
  - destruct (ether_addr_eqb _ _); discriminate.
  - exact Hnl.
Qed.

Lemma merge_record_unique (mac : ether_addr) (pos : bytes) (data_len : Z)
    (g g' : globals) (e e' : environ) (ok : bool) :
  store_unique (data_hash g) ->
  merge_record mac pos data_len g e = (ok, g', e') ->
  store_unique (data_hash g').
Proof.
  intros Hu H. apply merge_record_shape in H.
  destruct H as [->|(h1 & ds & v & Hh1 & Hfind & Hk & _ & ->)];
    [assumption|].
  unfold store_unique.
  rewrite (hash_set_keys (fun d => data_key (data d)) _ h1 v ds Hfind Hk).
  destruct Hh1 as [->|(-> & Hnone & _)]; [assumption|].
  apply (hash_add_NoDup (fun d => data_key (data d))
           (same_data (read_data pos)) (data_key (read_data pos)));
    auto using same_data_iff.
  rewrite hash_find_app, Hnone in Hfind. unfold hash_find in Hfind.
  simpl in Hfind.
  destruct (same_data (read_data pos) ds) eqn:Hs; [|discriminate].
  apply same_data_iff. exact Hs.
Qed.

Lemma merge_record_no_new_local (h0 : list dataset) (mac : ether_addr)
    (pos : bytes) (data_len : Z) (g g' : globals) (e e' : environ)
    (ok : bool) :
  (forall d, In d (data_hash g) -> data_source d = SOURCE_LOCAL -> In d h0) ->
  merge_record mac pos data_len g e = (ok, g', e') ->
  forall d, In d (data_hash g') -> data_source d = SOURCE_LOCAL -> In d h0.
Proof.
  intros HQ H. apply merge_record_shape in H.
  destruct H as [->|(h1 & ds & v & Hh1 & Hfind & _ & Hv & ->)];
    [assumption|].
  intros d Hin HL. apply hash_set_In in Hin as [->|Hin]; [contradiction|].
  destruct Hh1 as [->|(-> & _ & Hds)]; [auto|].
  apply in_app_or in Hin as [Hin|[<-|[]]]; [auto|].
  congruence.
Qed.
End MergeShape.

Section StoreAcrossPackets.
Context {P : Platform}.
Variable transaction_finished : transaction_head -> bool.

(** X2: the dataset store keeps one entry per (source, type) across every
    sequence of datagrams: a record of a stored key is written over the
    entry, a record of a new key is added once. *)
Theorem store_keys_stay_unique (l : list arrival) (g : globals)
    (iface : interface) :
  store_unique (data_hash g) ->
  store_unique
    (data_hash (fst (recv_packets transaction_finished l g iface))).
Proof.
  intros Hu.
  apply (recv_packets_keeps transaction_finished store_unique); [|exact Hu].
  intros. eapply merge_record_unique; eassumption.
Qed.

(** X3: what comes from the network is never stored as LOCAL: a LOCAL entry
    found in the store after any sequence of datagrams was in the store
    before them, as it is. *)
Theorem network_stores_no_local_entry (l : list arrival) (g : globals)
    (iface : interface) (d : dataset) :
  In d (data_hash (fst (recv_packets transaction_finished l g iface))) ->
  data_source d = SOURCE_LOCAL ->
  In d (data_hash g).
Proof.
  revert d.
  apply (recv_packets_keeps transaction_finished
           (fun h => forall d, In d h -> data_source d = SOURCE_LOCAL ->
                               In d (data_hash g))).
  - intros. eapply merge_record_no_new_local; eassumption.
  - auto.
Qed.
End StoreAcrossPackets.

(** ** The "changed" signal *)

Section ChangedSignal.
Context {P : Platform}.

Lemma read_payload_firstn (pos : bytes) (n : Z) :
  firstn (Z.to_nat n) (read_payload pos n) = read_payload pos n.
Proof.
  unfold read_payload. rewrite firstn_firstn, Nat.min_id. reflexivity.
Qed.

(** X4: the "changed" signal tells a change of content.  With memory at
    hand, a record whose key is not in the store raises the signal of its
    type once; a record whose key holds an entry that came from the network
    raises it once when its length or its payload bytes differ from what is
    stored, and not at all when they are the same, in which case only
    last_seen is refreshed. *)
Theorem changed_signal_tells_change (mac : ether_addr) (pos : bytes)
    (data_len : Z) (g : globals) (e : environ) :
  allocations_succeed e ->
  (forall d, hash_find (same_data (read_data pos)) (data_hash g) = Some d ->
             data_source d <> SOURCE_LOCAL
             /\ exists old, buf d = Some old
                            /\ tlv_length (header (data d))
                               = Z.of_nat (length old)) ->
  exists g' e',
    merge_record mac pos data_len g e = (true, g', e')
    /\ match hash_find (same_data (read_data pos)) (data_hash g) with
       | None => trace e' = EvChanged (get_u8 pos off_data_type) :: trace e
       | Some d =>
           (tlv_length (header (data d)) = data_len ->
            buf d = Some (read_payload pos data_len) ->
            trace e' = trace e
            /\ (last_seen d = clock e ->
                data_source d
                = (if ether_addr_eqb mac (source (read_data pos))
                   then SOURCE_FIRST_HAND else SOURCE_SYNCED) ->
                tlv_version (header (data d))
                = get_u8 pos off_data_version ->
                g' = g))
           /\ (tlv_length (header (data d)) <> data_len
               \/ buf d <> Some (read_payload pos data_len) ->
               trace e' = EvChanged (get_u8 pos off_data_type) :: trace e)
       end.
Proof.
  intros Ha Hwf. unfold merge_record, find_or_create, hash_add.
  destruct (hash_find (same_data (read_data pos)) (data_hash g))
    as [d|] eqn:Hfind.
  - destruct (Hwf d eq_refl) as (Hnl & old & Hbuf & Hlen).
    destruct (data_source_eqb (data_source d) SOURCE_LOCAL) eqn:Hloc.
    { destruct (data_source d); try discriminate. contradiction. }
    rewrite Hbuf. cbn [orb memcmp_ne].
    match goal with
    | |- context [malloc ?x] =>
        assert (Hx : allocations_succeed x)
          by (destruct (_ || _); auto using emit_allocations);
        destruct (malloc_succeeds x Hx) as (e3 & Hm & _ & Ht3 & Hc3);
        rewrite Hm
    end.
    cbn [negb]. eexists _, e3. split; [reflexivity|]. split.
    + intros Hl Hb. injection Hb as ->.
      rewrite Hl, Z.eqb_refl, read_payload_firstn, bytes_eqb_refl in Ht3,
        Hc3.
      cbn [negb orb] in Ht3, Hc3. split; [exact Ht3|].
      intros Hseen Hsrc Hver.
      change (tlv_version (header (read_data pos)))
        with (get_u8 pos off_data_version).
      rewrite <- Hseen, <- Hsrc, <- Hver, <- Hbuf, <- Hl.
      destruct g as [om im dh th]. unfold set_data_hash.
      cbn [opmode ipv4mode data_hash transaction_hash] in *.
      f_equal. clear - Hfind.
      unfold hash_find in Hfind.
      induction dh as [|y dh IH]; cbn [find hash_set] in *; [discriminate|].
      destruct (same_data (read_data pos) y).
      * injection Hfind as ->. f_equal.
        destruct d as [[src [t v len]] b s ls]. reflexivity.
      * f_equal. auto.
    + intros Hdiff.
      assert (Hc : negb (tlv_length (header (data d)) =? data_len)
                   || negb (bytes_eqb (firstn (Z.to_nat data_len) old)
                                      (read_payload pos data_len)) = true).
      { destruct (tlv_length (header (data d)) =? data_len) eqn:Hl;
          [|reflexivity].
        apply Z.eqb_eq in Hl. cbn [negb orb].
        destruct Hdiff as [Hd|Hd]; [contradiction|].
        rewrite firstn_all2 by lia.
        destruct (bytes_eqb old (read_payload pos data_len)) eqn:Hb;
          [|reflexivity].
        apply bytes_eqb_eq in Hb. subst old. contradiction. }
      rewrite Hc in Ht3. exact Ht3.
  - destruct (malloc_succeeds e Ha) as (e1 & -> & Ha1 & Ht1 & _).
    cbn [negb].
    destruct (malloc_succeeds e1 Ha1) as (e2 & -> & Ha2 & Ht2 & _).
    cbn [data_source data_source_eqb orb].
    match goal with
    | |- context [malloc ?x] =>
        assert (Hx : allocations_succeed x) by auto using emit_allocations;
        destruct (malloc_succeeds x Hx) as (e3 & -> & _ & Ht3 & _)
    end.
    cbn [negb]. eexists _, e3. split; [reflexivity|].
    rewrite Ht3. simpl. rewrite Ht2, Ht1. reflexivity.
Qed.
End ChangedSignal.

(** ** The record loop and the bytes it reads *)

Lemma carried_loop_within (fuel : nat) :
  forall (pos : bytes) (len : Z) (r : bytes * Z),
  In r (carried_loop fuel pos len) ->
  exists k : nat,
    fst r = skipn k pos
    /\ snd r = get_u16 (fst r) off_data_length
    /\ Z.of_nat k + sizeof_data + snd r <= len.
Proof.
  induction fuel as [|fuel IH]; intros pos len r; cbn [carried_loop];
    [intros []|].
  destruct (len <? sizeof_data) eqn:Hl; [intros []|].
  destruct (_ >? len) eqn:Hd; [intros []|].
  rewrite Z.gtb_ltb in Hd. apply Z.ltb_ge in Hd.
  pose proof (get_u16_range pos off_data_length) as Hr.
  intros [<-|Hin].
  - exists 0%nat. cbn [fst snd skipn]. repeat split. lia.
  - apply IH in Hin as (k & Hk & Hn & Hb).
    exists (k + Z.to_nat (sizeof_data + get_u16 pos off_data_length))%nat.
    rewrite <- skipn_skipn. repeat split; try assumption.
    unfold sizeof_data, ETH_ALEN, sizeof_tlv in *. lia.
Qed.


Lemma get_u8_agree (a b : bytes) (m off : nat) :
  firstn m a = firstn m b -> (off < m)%nat -> get_u8 a off = get_u8 b off.
Proof.
  intros H Hoff.
  rewrite <- (get_u8_firstn a m off Hoff), <- (get_u8_firstn b m off Hoff), H.
  reflexivity.
Qed.

Lemma get_u16_agree (a b : bytes) (m off : nat) :
  firstn m a = firstn m b -> (S off < m)%nat ->
  get_u16 a off = get_u16 b off.
Proof.
  intros H Hoff. unfold get_u16.
  rewrite (get_u8_agree a b m off H), (get_u8_agree a b m (S off) H) by lia.
  reflexivity.
Qed.

Lemma firstn_agree (a b : bytes) (m n : nat) :
  firstn m a = firstn m b -> (n <= m)%nat -> firstn n a = firstn n b.
Proof.
  intros H Hn.
  replace n with (Nat.min n m) by lia.
  rewrite <- !firstn_firstn, H. reflexivity.
Qed.

Lemma skipn_agree (a b : bytes) (m n : nat) :
  firstn m a = firstn m b -> (n <= m)%nat ->
  firstn (m - n) (skipn n a) = firstn (m - n) (skipn n b).
Proof.
  intros H Hn. rewrite !firstn_skipn_comm.
  replace (n + (m - n))%nat with m by lia. rewrite H. reflexivity.
Qed.

Section BytesRead.
Context {P : Platform}.

Lemma merge_record_agree (mac : ether_addr) (a b : bytes) (data_len : Z)
    (g : globals) (e : environ) :
  firstn (Z.to_nat (sizeof_data + data_len)) a
  = firstn (Z.to_nat (sizeof_data + data_len)) b ->
  0 <= data_len ->
  merge_record mac a data_len g e = merge_record mac b data_len g e.
Proof.
  intros H Hn.
  assert (Hm : (10 <= Z.to_nat (sizeof_data + data_len))%nat)
    by (unfold sizeof_data, ETH_ALEN, sizeof_tlv; lia).
  set (m := Z.to_nat (sizeof_data + data_len)) in *.
  assert (Hrd : read_data a = read_data b).
  { unfold read_data.
    rewrite (get_u8_agree a b m off_data_type H),
      (get_u8_agree a b m off_data_version H),
      (get_u16_agree a b m off_data_length H),
      (firstn_agree a b m (Z.to_nat ETH_ALEN) H);
      unfold off_data_type, off_data_version, off_data_length, ETH_ALEN;
      (reflexivity || lia). }
  assert (Hrp : read_payload a data_len = read_payload b data_len).
  { unfold read_payload.
    pose proof (skipn_agree a b m off_data_data H) as Hs.
    replace (m - off_data_data)%nat with (Z.to_nat data_len) in Hs
      by (unfold m, off_data_data, sizeof_data, ETH_ALEN, sizeof_tlv; lia).
    apply Hs. unfold off_data_data. lia. }
  unfold merge_record. rewrite Hrd, Hrp. reflexivity.
Qed.

Lemma finish_alfred_push_data_loop_agree (mac : ether_addr) (fuel : nat) :
  forall (a b : bytes) (len : Z) (g : globals) (e : environ),
  firstn (Z.to_nat len) a = firstn (Z.to_nat len) b ->
  finish_alfred_push_data_loop fuel mac a len g e
  = finish_alfred_push_data_loop fuel mac b len g e.
Proof.
  induction fuel as [|fuel IH]; intros a b len g e H;
    cbn [finish_alfred_push_data_loop]; [reflexivity|].
  destruct (len <? sizeof_data) eqn:Hl; [reflexivity|].
  apply Z.ltb_ge in Hl.
  assert (Hlen : (10 <= Z.to_nat len)%nat)
    by (unfold sizeof_data, ETH_ALEN, sizeof_tlv in Hl; lia).
  rewrite <- (get_u16_agree a b (Z.to_nat len) off_data_length H)
    by (unfold off_data_length; lia).
  pose proof (get_u16_range a off_data_length) as Hr.
  set (n := get_u16 a off_data_length) in *.
  destruct (n + sizeof_data >? len) eqn:Hd; [reflexivity|].
  rewrite Z.gtb_ltb in Hd. apply Z.ltb_ge in Hd.
  rewrite (merge_record_agree mac a b n g e);
    [|apply (firstn_agree a b (Z.to_nat len)); [exact H | lia] | lia].
  destruct (merge_record mac b n g e) as [[[|] g1] e1]; [|reflexivity].
  apply IH.
  replace (Z.to_nat (len - (sizeof_data + n)))
    with (Z.to_nat len - Z.to_nat (sizeof_data + n))%nat
    by (unfold sizeof_data, ETH_ALEN, sizeof_tlv in *; lia).
  apply skipn_agree; [exact H|].
  unfold sizeof_data, ETH_ALEN, sizeof_tlv in *. lia.
Qed.

(** X6: the merge reads the announced bytes only.  Two pushes that agree on
    the header and the [header.length] bytes behind it are merged alike,
    whatever follows; so the copy of [header.length + 4] bytes that
    [process_alfred_push_data] stores is merged as the datagram itself
    would be. *)
Theorem merge_reads_announced_bytes_only (g : globals) (e : environ)
    (mac : ether_addr) (a b : bytes) :
  firstn (Z.to_nat (get_u16 a off_length + sizeof_tlv)) a
  = firstn (Z.to_nat (get_u16 a off_length + sizeof_tlv)) b ->
  finish_alfred_push_data g e mac a = finish_alfred_push_data g e mac b
  /\ finish_alfred_push_data g e mac
       (firstn (Z.to_nat (get_u16 a off_length + sizeof_tlv)) a)
     = finish_alfred_push_data g e mac a.
Proof.
  assert (Hgen : forall a b : bytes,
            firstn (Z.to_nat (get_u16 a off_length + sizeof_tlv)) a
            = firstn (Z.to_nat (get_u16 a off_length + sizeof_tlv)) b ->
            finish_alfred_push_data g e mac a
            = finish_alfred_push_data g e mac b).
  { clear a b. intros a b H.
    pose proof (get_u16_range a off_length) as Hr.
    assert (Hm : (4 <= Z.to_nat (get_u16 a off_length + sizeof_tlv))%nat)
      by (unfold sizeof_tlv; lia).
    assert (Hlen : get_u16 b off_length = get_u16 a off_length).
    { symmetry. apply (get_u16_agree a b _ off_length H).
      assert (off_length = 2%nat) by reflexivity. lia. }
    unfold finish_alfred_push_data. rewrite Hlen.
    set (L := get_u16 a off_length) in *.
    destruct (L <? sizeof_push - sizeof_tlv) eqn:Hl; [reflexivity|].
    apply Z.ltb_ge in Hl.
    apply finish_alfred_push_data_loop_agree.
    replace (Z.to_nat (L - (sizeof_push - sizeof_tlv)))
      with (Z.to_nat (L + sizeof_tlv) - off_push_data)%nat
      by (unfold sizeof_push, sizeof_tlv, sizeof_transaction_mgmt,
            off_push_data in *; lia).
    apply skipn_agree; [exact H|].
    unfold sizeof_push, sizeof_tlv, sizeof_transaction_mgmt, off_push_data
      in *. lia. }
  intros H. split; [apply Hgen; exact H|].
  symmetry. apply Hgen. rewrite firstn_firstn, Nat.min_id. reflexivity.
Qed.
End BytesRead.

(** ** The table of the other masters *)

Lemma same_server_iff (mac : ether_addr) (s : server) :
  same_server mac s = true <-> hwaddr s = mac.
Proof. unfold same_server, ether_addr_eqb. apply bytes_eqb_eq. Qed.

Lemma same_server_other (mac other : ether_addr) (s : server) :
  other <> mac -> same_server mac s = true -> same_server other s = false.
Proof.
  intros Hne Hs. apply same_server_iff in Hs.
  destruct (same_server other s) eqn:Ho; [|reflexivity].
  apply same_server_iff in Ho. congruence.
Qed.

Section Announce.
Context {P : Platform}.

(** X7: an announcement of the right version from an address that resolves
    to [mac] leaves the sender in the table of masters, seen now.  A master
    that was known keeps the address and the quality it had, also when the
    announcement comes from another address; a new one is entered with the
    address of the datagram and quality 0.  No other master's entry changes,
    the keys of the table stay distinct, and nothing is sent or signalled. *)
Theorem announce_refreshes_sender (g : globals) (iface : interface)
    (e : environ) (source : alfred_addr) (announce : bytes)
    (mac : ether_addr) :
  resolve_mac g iface source = Some mac ->
  get_u8 announce off_version = ALFRED_VERSION ->
  allocations_succeed e ->
  exists (iface' : interface) (e' : environ) (srv' : server),
    process_alfred_announce_master g iface e source announce
    = (0, iface', e')
    /\ netsock iface' = netsock iface
    /\ netsock_mcast iface' = netsock_mcast iface
    /\ trace e' = trace e
    /\ hash_find (same_server mac) (server_hash iface') = Some srv'
    /\ hwaddr srv' = mac
    /\ srv_last_seen srv' = clock e
    /\ match hash_find (same_server mac) (server_hash iface) with
       | Some srv => address srv' = address srv /\ tq srv' = tq srv
       | None => address srv' = source /\ tq srv' = 0
       end
    /\ (forall other : ether_addr, other <> mac ->
        hash_find (same_server other) (server_hash iface')
        = hash_find (same_server other) (server_hash iface))
    /\ (servers_unique (server_hash iface) ->
        servers_unique (server_hash iface')).
Proof.
  intros Hmac Hver Ha. unfold process_alfred_announce_master.
  rewrite Hmac, Hver, Z.eqb_refl. cbn [negb].
  destruct (hash_find (same_server mac) (server_hash iface)) as [srv|] eqn:Hf.
  - pose proof (hash_find_same _ _ _ Hf) as Hs.
    apply same_server_iff in Hs.
    set (srv' := {| hwaddr := hwaddr srv; address := address srv;
                    tq := tq srv; srv_last_seen := clock e |}).
    exists (set_server_hash iface
              (hash_set (same_server mac) (server_hash iface) srv')), e, srv'.
    cbn [netsock netsock_mcast server_hash set_server_hash hwaddr address tq
         srv_last_seen srv'].
    repeat split; try reflexivity; try assumption.
    + apply (hash_set_find _ _ srv); [exact Hf|].
      apply same_server_iff. exact Hs.
    + intros other Hne. apply hash_set_find_other.
      * destruct (same_server other srv') eqn:Ho; [|reflexivity].
        apply same_server_iff in Ho. cbn in Ho. congruence.
      * intros y. apply same_server_other. exact Hne.
    + unfold servers_unique.
      rewrite (hash_set_keys hwaddr (same_server mac) _ srv' srv Hf);
        [tauto | reflexivity].
  - destruct (malloc_succeeds e Ha) as (e1 & -> & Ha1 & Ht1 & Hc1).
    cbn [negb]. unfold hash_add.
    destruct (malloc_succeeds e1 Ha1) as (e2 & -> & Ha2 & Ht2 & Hc2).
    set (srv' := {| hwaddr := mac; address := source; tq := 0;
                    srv_last_seen := clock e1 |}).
    exists (set_server_hash iface (server_hash iface ++ [srv'])), e2, srv'.
    cbn [netsock netsock_mcast server_hash set_server_hash hwaddr address tq
         srv_last_seen srv'].
    repeat split; try reflexivity; try congruence.
    + apply hash_find_app_None; [exact Hf|].
      apply same_server_iff. reflexivity.
    + intros other Hne. rewrite hash_find_app.
      destruct (hash_find (same_server other) (server_hash iface));
        [reflexivity|].
      unfold hash_find. cbn [find].
      destruct (same_server other srv') eqn:Ho; [|reflexivity].
      apply same_server_iff in Ho. cbn in Ho. congruence.
    + unfold servers_unique.
      apply (hash_add_NoDup hwaddr (same_server mac) mac);
        [apply same_server_iff | exact Hf | reflexivity].
Qed.
End Announce.

(** ** Handlers that stay off the network *)

Lemma quietly_refl (e : environ) : quietly e e.
Proof. repeat split. exists []. split; [reflexivity | constructor]. Qed.

Lemma quietly_trans (e1 e2 e3 : environ) :
  quietly e1 e2 -> quietly e2 e3 -> quietly e1 e3.
Proof.
  intros (Hw1 & Hc1 & l1 & Ht1 & Hl1) (Hw2 & Hc2 & l2 & Ht2 & Hl2).
  split; [congruence|]. split; [congruence|].
  exists (l2 ++ l1). split.
  - rewrite Ht2, Ht1, app_assoc. reflexivity.
  - apply Forall_app. split; assumption.
Qed.

Lemma malloc_quietly (e e' : environ) (ok : bool) :
  malloc e = (ok, e') -> quietly e e'.
Proof.
  intros H. apply malloc_trace in H as (Ht & Hc & Hw).
  split; [exact Hw|]. split; [exact Hc|].
  exists []. split; [exact Ht | constructor].
Qed.

Lemma emit_quietly (e : environ) (ev : event) :
  local_event ev -> quietly e (emit e ev).
Proof.
  intros H. repeat split. exists [ev]. split; [reflexivity|].
  constructor; [exact H | constructor].
Qed.

Lemma hash_add_quietly {A : Type} (h : list A) (v : A) (e e' : environ)
    (r : option (list A)) :
  hash_add h v e = (r, e') -> quietly e e'.
Proof.
  unfold hash_add. destruct (malloc e) as [ok e1] eqn:Hm.
  apply malloc_quietly in Hm.
  destruct ok; intros H; inversion H; subst; exact Hm.
Qed.

Create HintDb quiet.
#[local] Hint Resolve quietly_refl quietly_trans malloc_quietly emit_quietly
  hash_add_quietly : quiet.

Section Quiet.
Context {P : Platform}.
Variable transaction_finished : transaction_head -> bool.

Lemma find_or_create_quietly (rec : alfred_data) (g g' : globals)
    (e e' : environ) (r : option (dataset * bool)) :
  find_or_create rec g e = (r, g', e') -> quietly e e'.
Proof.
  unfold find_or_create.
  destruct (hash_find (same_data rec) (data_hash g)).
  - intros H; inversion H; subst; auto with quiet.
  - destruct (malloc e) as [ok e1] eqn:Hm. apply malloc_quietly in Hm.
    destruct ok; cbn [negb].
    + destruct (hash_add _ _ e1) as [[h|] e2] eqn:Ha;
        apply hash_add_quietly in Ha;
        intros H; inversion H; subst; eauto with quiet.
    + intros H; inversion H; subst; exact Hm.
Qed.

Lemma merge_record_quietly (mac : ether_addr) (pos : bytes) (data_len : Z)
    (g g' : globals) (e e' : environ) (ok : bool) :
  merge_record mac pos data_len g e = (ok, g', e') -> quietly e e'.
Proof.
  unfold merge_record.
  destruct (find_or_create (read_data pos) g e) as [[[[ds created]|] g1] e1]
    eqn:Hf; apply find_or_create_quietly in Hf;
    [|intros H; inversion H; subst; exact Hf].
  destruct (data_source_eqb (data_source ds) SOURCE_LOCAL);
    [intros H; inversion H; subst; exact Hf|].
  match goal with
  | |- context [malloc ?x] =>
      assert (He2 : quietly e1 x)
        by (destruct (_ || _); [apply emit_quietly; exact I
                               | apply quietly_refl]);
      destruct (malloc x) as [ok3 e3] eqn:Hm
  end.
  apply malloc_quietly in Hm.
  destruct ok3; cbn [negb]; intros H; inversion H; subst;
    eauto with quiet.
Qed.

Lemma finish_alfred_push_data_loop_quietly (fuel : nat) (mac : ether_addr) :
  forall (pos : bytes) (len : Z) (g g' : globals) (e e' : environ) (r : Z),
  finish_alfred_push_data_loop fuel mac pos len g e = (r, g', e') ->
  quietly e e'.
Proof.
  induction fuel as [|fuel IH]; cbn [finish_alfred_push_data_loop];
    intros pos len g g' e e' r.
  - intros H; inversion H; subst; apply quietly_refl.
  - destruct (len <? sizeof_data);
      [intros H; inversion H; subst; apply quietly_refl|].
    destruct (_ >? len);
      [intros H; inversion H; subst; apply quietly_refl|].
    destruct (merge_record mac pos _ g e) as [[ok g1] e1] eqn:Hm.
    apply merge_record_quietly in Hm.
    destruct ok.
    + intros H. apply IH in H. eauto with quiet.
    + intros H; inversion H; subst; exact Hm.
Qed.

Lemma finish_alfred_push_data_quietly (mac : ether_addr) (push : bytes)
    (g g' : globals) (e e' : environ) (r : Z) :
  finish_alfred_push_data g e mac push = (r, g', e') -> quietly e e'.
Proof.
  unfold finish_alfred_push_data.
  destruct (_ <? _).
  - intros H; inversion H; subst; apply quietly_refl.
  - apply finish_alfred_push_data_loop_quietly.
Qed.

Lemma deliver_quietly (l : list bytes) (mac : ether_addr) :
  forall (g g' : globals) (e e' : environ),
  deliver l mac g e = (g', e') -> quietly e e'.
Proof.
  induction l as [|push l IH]; cbn [deliver]; intros g g' e e'.
  - intros H; inversion H; subst; apply quietly_refl.
  - destruct (finish_alfred_push_data g e mac push) as [[r g1] e1] eqn:Hp.
    apply finish_alfred_push_data_quietly in Hp.
    intros H; apply IH in H. eauto with quiet.
Qed.

Lemma finish_alfred_transaction_quietly (g g' : globals) (e e' : environ)
    (head : transaction_head) (mac : ether_addr) (r : Z) :
  finish_alfred_transaction transaction_finished g e head mac = (r, g', e') ->
  quietly e e'.
Proof.
  unfold finish_alfred_transaction.
  destruct (negb (transaction_finished head));
    [intros H; inversion H; subst; apply quietly_refl|].
  destruct (deliver (packet_list head) mac g e) as [g1 e1] eqn:Hd.
  apply deliver_quietly in Hd. cbn [transaction_clean].
  destruct (_ <? 0); intros H; inversion H; subst; [exact Hd|].
  apply (quietly_trans _ e1); [exact Hd|]. apply emit_quietly. exact I.
Qed.

Lemma transaction_add_quietly (g g' : globals) (e e' : environ)
    (mac : ether_addr) (tx_id : Z) (r : option transaction_head) :
  transaction_add g e mac tx_id = (r, g', e') -> quietly e e'.
Proof.
  unfold transaction_add.
  destruct (malloc e) as [ok e1] eqn:Hm. apply malloc_quietly in Hm.
  destruct ok; cbn [negb].
  - destruct (hash_add _ _ e1) as [[h|] e2] eqn:Ha;
      apply hash_add_quietly in Ha;
      intros H; inversion H; subst; eauto with quiet.
  - intros H; inversion H; subst; exact Hm.
Qed.

Lemma find_or_add_transaction_quietly (g g' : globals) (e e' : environ)
    (mac : ether_addr) (tx_id : Z) (may_create : bool)
    (r : option transaction_head) :
  find_or_add_transaction g e mac tx_id may_create = (r, g', e') ->
  quietly e e'.
Proof.
  unfold find_or_add_transaction.
  destruct (hash_find _ _);
    [intros H; inversion H; subst; apply quietly_refl|].
  destruct (opmode g); destruct may_create;
    try apply transaction_add_quietly;
    intros H; inversion H; subst; apply quietly_refl.
Qed.

Lemma process_alfred_push_data_quietly (g g' : globals) (iface : interface)
    (e e' : environ) (source : alfred_addr) (push : bytes) (r : Z) :
  process_alfred_push_data transaction_finished g iface e source push
  = (r, g', e') ->
  quietly e e'.
Proof.
  unfold process_alfred_push_data.
  destruct (resolve_mac g iface source) as [mac|];
    [|intros H; inversion H; subst; apply quietly_refl].
  destruct (_ <? _); [intros H; inversion H; subst; apply quietly_refl|].
  destruct (find_or_add_transaction g e mac _ true) as [[[head|] g1] e1]
    eqn:Hf; apply find_or_add_transaction_quietly in Hf;
    [|intros H; inversion H; subst; exact Hf].
  destruct (existsb _ _); [intros H; inversion H; subst; exact Hf|].
  destruct (malloc e1) as [ok1 e2] eqn:H1. apply malloc_quietly in H1.
  destruct ok1; cbn [negb];
    [|intros H; inversion H; subst; eauto with quiet].
  destruct (malloc e2) as [ok2 e3] eqn:H2. apply malloc_quietly in H2.
  destruct ok2; cbn [negb];
    [|intros H; inversion H; subst; eauto with quiet].
  destruct (finish_alfred_transaction _ _ e3 _ mac) as [[r4 g4] e4] eqn:Ht.
  apply finish_alfred_transaction_quietly in Ht.
  intros H; inversion H; subst. eauto with quiet.
Qed.

Lemma process_alfred_status_txend_quietly (g g' : globals)
    (iface : interface) (e e' : environ) (source : alfred_addr)
    (request : bytes) (r : Z) :
  process_alfred_status_txend transaction_finished g iface e source request
  = (r, g', e') ->
  quietly e e'.
Proof.
  unfold process_alfred_status_txend.
  destruct (negb _); [intros H; inversion H; subst; apply quietly_refl|].
  destruct (_ <? _); [intros H; inversion H; subst; apply quietly_refl|].
  destruct (resolve_mac g iface source) as [mac|];
    [|intros H; inversion H; subst; apply quietly_refl].
  destruct (find_or_add_transaction g e mac _ _) as [[[head|] g1] e1]
    eqn:Hf; apply find_or_add_transaction_quietly in Hf;
    [|intros H; inversion H; subst; exact Hf].
  destruct (finish_alfred_transaction _ _ e1 _ mac) as [[r3 g3] e3] eqn:Ht.
  apply finish_alfred_transaction_quietly in Ht.
  intros H; inversion H; subst. eauto with quiet.
Qed.

Lemma process_alfred_announce_master_quietly (g : globals)
    (iface iface' : interface) (e e' : environ) (source : alfred_addr)
    (announce : bytes) (r : Z) :
  process_alfred_announce_master g iface e source announce = (r, iface', e') ->
  quietly e e'
  /\ netsock iface' = netsock iface
  /\ netsock_mcast iface' = netsock_mcast iface
  /\ scope_id iface' = scope_id iface.
Proof.
  unfold process_alfred_announce_master.
  destruct (resolve_mac g iface source) as [mac|];
    [|intros H; inversion H; subst; auto with quiet].
  destruct (negb _); [intros H; inversion H; subst; auto with quiet|].
  destruct (hash_find _ _);
    [intros H; inversion H; subst; cbn; auto with quiet|].
  destruct (malloc e) as [ok e1] eqn:Hm. apply malloc_quietly in Hm.
  destruct ok; cbn [negb];
    [|intros H; inversion H; subst; auto with quiet].
  destruct (hash_add _ _ e1) as [[h|] e2] eqn:Ha;
    apply hash_add_quietly in Ha;
    intros H; inversion H; subst; cbn; eauto 6 with quiet.
Qed.

(** X8: a datagram that is no request is handled off the network.  Whatever
    a PUSH_DATA, STATUS_TXEND or ANNOUNCE_MASTER datagram (or one that is
    dropped) carries, [recv_alfred_packet] calls neither [sendto] nor
    [close] for it: the calls it makes are [changed_data_type] and
    [unix_sock_req_data_finish], no outcome of [sendto] is consumed and the
    sockets of the interface stay as they were. *)
Theorem only_requests_are_answered (g g' : globals) (iface iface' : interface)
    (e e' : environ) (source : alfred_addr) (buf : bytes) (length r : Z) :
  recv_alfred_packet transaction_finished g iface e source buf length
  = (r, g', iface', e') ->
  packet_type_of (get_u8 buf off_type) <> Some ALFRED_REQUEST ->
  quietly e e'
  /\ netsock iface' = netsock iface
  /\ netsock_mcast iface' = netsock_mcast iface
  /\ scope_id iface' = scope_id iface.
Proof.
  unfold recv_alfred_packet.
  destruct (recv_dropped g iface source buf length);
    [intros H; inversion H; subst; auto with quiet|].
  destruct (packet_type_of (get_u8 buf off_type)) as [[| | |]|];
    try (intros H; inversion H; subst; auto with quiet; fail).
  - destruct (process_alfred_push_data _ g iface e source buf)
      as [[r1 g1] e1] eqn:Hp.
    apply process_alfred_push_data_quietly in Hp.
    intros H; inversion H; subst; auto.
  - destruct (process_alfred_announce_master g iface e source buf)
      as [[r1 i1] e1] eqn:Hp.
    apply process_alfred_announce_master_quietly in Hp.
    intros H; inversion H; subst; auto.
  - intros _ Hne. congruence.
  - destruct (process_alfred_status_txend _ g iface e source buf)
      as [[r1 g1] e1] eqn:Hp.
    apply process_alfred_status_txend_quietly in Hp.
    intros H; inversion H; subst; auto.
Qed.
End Quiet.

(** ** The record of a transaction after its datagram *)

Section TransactionRecord.
Context {P : Platform}.
Variable transaction_finished : transaction_head -> bool.

Lemma finish_alfred_transaction_lookup (g g' : globals) (e e' : environ)
    (head : transaction_head) (mac : ether_addr) (tx_id r : Z) :
  table_ok (transaction_hash g) ->
  hash_find (same_transaction mac tx_id) (transaction_hash g) = Some head ->
  finish_alfred_transaction transaction_finished g e head mac = (r, g', e') ->
  hash_find (same_transaction mac tx_id) (transaction_hash g')
  = if transaction_finished head then None else Some head.
Proof.
  intros [Hnd _] Hfind H.
  destruct (transaction_finished head) eqn:Hfin.
  - destruct (finish_alfred_transaction_done transaction_finished g e head mac
                Hfin) as (e2 & Heq & _).
    rewrite Heq in H. inversion H; subst. cbn [transaction_hash
      set_transaction_hash].
    rewrite deliver_transaction_hash.
    pose proof (hash_find_same _ _ _ Hfind) as Hs.
    apply same_transaction_eq in Hs as [Hsa Hid]. rewrite Hsa, Hid.
    apply (hash_remove_gone transaction_key _ (mac, tx_id));
      [apply same_transaction_key | exact Hnd].
  - rewrite (finish_alfred_transaction_pending transaction_finished g e head
               mac Hfin) in H.
    inversion H; subst. exact Hfind.
Qed.

(** X9: what a STATUS_TXEND leaves of its transaction.  In a table with one
    record per key, an accepted STATUS_TXEND writes its seqno as the
    announced count and the time of arrival into the record of its
    transaction (a new, empty one on a master that did not know it), and
    keeps the stored fragments.  The record is then out of the table if the
    completion test holds for it after these writes, and in it as written
    otherwise: a completed transaction is never found again. *)
Theorem txend_record_after (g g' : globals) (iface : interface)
    (e e' : environ) (source : alfred_addr) (request : bytes)
    (mac : ether_addr) :
  table_ok (transaction_hash g) ->
  resolve_mac g iface source = Some mac ->
  process_alfred_status_txend transaction_finished g iface e source request
  = (0, g', e') ->
  exists head : transaction_head,
    server_addr head = mac
    /\ id head = get_u16 request off_tx_id
    /\ txend_packets head = get_u16 request off_tx_seqno
    /\ last_rx_time head = clock e
    /\ match hash_find (same_transaction mac (get_u16 request off_tx_id))
                       (transaction_hash g) with
       | Some old =>
           packet_list head = packet_list old
           /\ num_packet head = num_packet old
           /\ client_socket head = client_socket old
       | None =>
           packet_list head = [] /\ num_packet head = 0
           /\ opmode g = OPMODE_MASTER
           /\ get_u16 request off_tx_seqno <> 0
       end
    /\ hash_find (same_transaction mac (get_u16 request off_tx_id))
                 (transaction_hash g')
       = if transaction_finished head then None else Some head.
Proof.
  intros Hok Hmac H. unfold process_alfred_status_txend in H.
  destruct (negb _); [discriminate|].
  destruct (_ <? _); [discriminate|].
  rewrite Hmac in H.
  destruct (find_or_add_transaction _ _ _ _ _) as [[h g1] e1] eqn:Hf.
  assert (Hf1 := Hf). assert (Hf2 := Hf).
  apply (find_or_add_transaction_ok transaction_finished _ _ _ _ _ _ _ _ Hok)
    in Hf1 as [Hok1 Hhead].
  apply find_or_add_transaction_quietly in Hf2 as (_ & Hclock & _).
  apply find_or_add_transaction_spec in Hf.
  destruct h as [head|]; [|discriminate].
  destruct Hf as [Hfind Hcase].
  pose proof (hash_find_same _ _ _ Hfind) as Hs.
  apply same_transaction_eq in Hs as [Hsa Hid].
  set (tx_id := get_u16 request off_tx_id) in *.
  set (head2 := set_txend_packets (set_last_rx_time head (clock e1))
                  (get_u16 request off_tx_seqno)) in *.
  assert (Hsk : same_key head head2) by (split; reflexivity).
  destruct (write_head_table g1 mac tx_id head head2 Hfind Hsk)
    as (_ & Hfind2 & _).
  pose proof (write_head_ok g1 mac tx_id head head2 Hok1 Hfind Hsk
                (head_ok_txend _ _ (head_ok_last_rx _ _ Hhead))) as Hok2.
  destruct (finish_alfred_transaction _ _ e1 head2 mac) as [[r3 g3] e3]
    eqn:Hfin.
  assert (Hlook := Hfin).
  eapply finish_alfred_transaction_lookup in Hlook;
    [|exact Hok2 | exact Hfind2].
  inversion H; subst g3 e3.
  exists head2. repeat split; try assumption; try reflexivity.
  destruct Hcase as [[-> ->]|(Hnone & Hmaster & Hcreate & _ & _ & Hnum & Hl)].
  - rewrite Hfind. repeat split; reflexivity.
  - rewrite Hnone. repeat split; try assumption.
    apply negb_true_iff in Hcreate. apply Z.eqb_neq in Hcreate.
    exact Hcreate.
Qed.

(** X10: what a PUSH_DATA leaves of its transaction.  In a table with one
    record per key, a fragment that is accepted and whose seqno no stored
    fragment of the transaction has is appended behind the stored ones, as
    a copy of its first [header.length + 4] bytes, and counted; the
    announced count is kept.  The record is then out of the table if the
    completion test holds for it, and in it as written otherwise. *)
Theorem push_record_after (g g' : globals) (iface : interface)
    (e e' : environ) (source : alfred_addr) (push : bytes)
    (mac : ether_addr) :
  table_ok (transaction_hash g) ->
  resolve_mac g iface source = Some mac ->
  match hash_find (same_transaction mac (get_u16 push off_tx_id))
                  (transaction_hash g) with
  | Some old => existsb (same_seqno push) (packet_list old) = false
  | None => True
  end ->
  process_alfred_push_data transaction_finished g iface e source push
  = (0, g', e') ->
  exists head : transaction_head,
    server_addr head = mac
    /\ id head = get_u16 push off_tx_id
    /\ last_rx_time head = clock e
    /\ match hash_find (same_transaction mac (get_u16 push off_tx_id))
                       (transaction_hash g) with
       | Some old =>
           packet_list head
           = packet_list old
             ++ [firstn (Z.to_nat (get_u16 push off_length + sizeof_tlv))
                        push]
           /\ num_packet head = num_packet old + 1
           /\ txend_packets head = txend_packets old
           /\ client_socket head = client_socket old
       | None =>
           packet_list head
           = [firstn (Z.to_nat (get_u16 push off_length + sizeof_tlv)) push]
           /\ num_packet head = 1
           /\ txend_packets head = 0
           /\ opmode g = OPMODE_MASTER
       end
    /\ hash_find (same_transaction mac (get_u16 push off_tx_id))
                 (transaction_hash g')
       = if transaction_finished head then None else Some head.
Proof.
  intros Hok Hmac Hfresh H. unfold process_alfred_push_data in H.
  rewrite Hmac in H.
  destruct (get_u16 push off_length <? sizeof_push - sizeof_tlv) eqn:Hlen;
    [discriminate|].
  apply Z.ltb_ge in Hlen.
  destruct (find_or_add_transaction _ _ _ _ _) as [[h g1] e1] eqn:Hf.
  assert (Hf1 := Hf). assert (Hf2 := Hf).
  apply (find_or_add_transaction_ok transaction_finished _ _ _ _ _ _ _ _ Hok)
    in Hf1 as [Hok1 Hhead].
  apply find_or_add_transaction_quietly in Hf2 as (_ & Hclock & _).
  apply find_or_add_transaction_spec in Hf.
  destruct h as [head|]; [|discriminate].
  destruct Hf as [Hfind Hcase].
  pose proof (hash_find_same _ _ _ Hfind) as Hs.
  apply same_transaction_eq in Hs as [Hsa Hid].
  set (tx_id := get_u16 push off_tx_id) in *.
  set (head1 := set_last_rx_time head (clock e1)) in *.
  assert (Hsk1 : same_key head head1) by (split; reflexivity).
  destruct (write_head_table g1 mac tx_id head head1 Hfind Hsk1)
    as (_ & Hfind1 & _).
  pose proof (write_head_ok g1 mac tx_id head head1 Hok1 Hfind Hsk1
                (head_ok_last_rx _ _ Hhead)) as Hok1'.
  assert (Hnew : existsb (same_seqno push) (packet_list head1) = false).
  { cbn [packet_list head1 set_last_rx_time].
    destruct Hcase as [[-> ->]|(_ & _ & _ & _ & _ & _ & ->)];
      [|reflexivity].
    rewrite Hfind in Hfresh. exact Hfresh. }
  rewrite Hnew in H.
  destruct (malloc e1) as [ok1 e2] eqn:Hm1.
  destruct ok1; cbn [negb] in H; [|discriminate].
  destruct (malloc e2) as [ok2 e3] eqn:Hm2.
  destruct ok2; cbn [negb] in H; [|discriminate].
  set (copy := firstn (Z.to_nat (get_u16 push off_length + sizeof_tlv)) push)
    in *.
  set (head2 := set_packets head1 (num_packet head1 + 1)
                  (packet_list head1 ++ [copy])) in *.
  assert (Hsk2 : same_key head1 head2) by (split; reflexivity).
  destruct (write_head_table _ mac tx_id head1 head2 Hfind1 Hsk2)
    as (_ & Hfind2 & _).
  pose proof (write_head_ok _ mac tx_id head1 head2 Hok1' Hfind1 Hsk2
                (head_ok_append transaction_finished head1 push
                   (head_ok_last_rx _ _ Hhead)
                   Hlen Hnew)) as Hok2.
  destruct (finish_alfred_transaction _ _ e3 head2 mac) as [[r4 g4] e4]
    eqn:Hfin.
  assert (Hlook := Hfin).
  eapply finish_alfred_transaction_lookup in Hlook;
    [|exact Hok2 | exact Hfind2].
  inversion H; subst g4 e4.
  exists head2. repeat split; try assumption; try reflexivity.
  destruct Hcase as [[-> ->]|(Hnone & Hmaster & _ & _ & Htx & Hnum & Hl)].
  - rewrite Hfind. repeat split; reflexivity.
  - rewrite Hnone.
    cbn [packet_list num_packet txend_packets head2 head1 set_packets
         set_last_rx_time].
    rewrite Hl, Hnum, Htx. repeat split; try reflexivity. exact Hmaster.
Qed.
End TransactionRecord.

(** ** The datasets in the datagrams of [push_data] *)

Lemma records_size_app (l1 l2 : list dataset) :
  records_size (l1 ++ l2) = records_size l1 + records_size l2.
Proof.
  induction l1 as [|d l1 IH]; cbn [records_size fold_right app];
    [reflexivity|].
  fold (records_size (l1 ++ l2)). fold (records_size l1). lia.
Qed.

Lemma records_size_nonneg (l : list dataset) :
  Forall length_in_range l -> 0 <= records_size l.
Proof.
  induction 1 as [|d l Hd _ IH]; cbn [records_size fold_right]; [lia|].
  fold (records_size l). unfold record_size, length_in_range in *.
  unfold sizeof_data, ETH_ALEN, sizeof_tlv. lia.
Qed.

Lemma records_size_zero (l : list dataset) :
  Forall length_in_range l -> records_size l = 0 -> l = [].
Proof.
  intros Hl. destruct Hl as [|d l Hd Hl]; [reflexivity|].
  cbn [records_size fold_right]. fold (records_size l).
  pose proof (records_size_nonneg l Hl).
  unfold record_size, length_in_range in *.
  unfold sizeof_data, ETH_ALEN, sizeof_tlv. lia.
Qed.

Lemma carried_records_app (l1 l2 : list (packet * Z)) :
  carried_records (l1 ++ l2) = carried_records l1 ++ carried_records l2.
Proof. unfold carried_records. apply flat_map_app. Qed.

Section Carried.
Context {P : Platform}.
Variable dest : alfred_addr.
Variable max_source_level : data_source_t.
Variable type_filter tx_id : Z.
Hypothesis header_fits : sizeof_push <= MAX_PAYLOAD.
Hypothesis length_field_fits : MAX_PAYLOAD - sizeof_tlv < 65536.

Lemma buffer_exact_range (b : push_buffer) :
  buffer_exact b -> 0 <= total_length b < 65536.
Proof.
  intros (Ht & Hm & Hl). pose proof (records_size_nonneg _ Hl).
  unfold sizeof_push, sizeof_tlv, sizeof_transaction_mgmt in *. lia.
Qed.

Lemma too_big_empty (b : push_buffer) (d : dataset) :
  total_length b = 0 -> too_big b d = oversize d.
Proof. unfold oversize, too_big. intros ->. reflexivity. Qed.

Lemma buffer_exact_append (b : push_buffer) (d : dataset) :
  buffer_exact b -> length_in_range d -> too_big b d = false ->
  buffer_exact
    {| total_length :=
         u16 (total_length b + (tlv_length (header (data d)) + sizeof_data));
       seqno := seqno b;
       records := records b ++ [d] |}.
Proof.
  intros Hb Hd Hfit.
  pose proof (buffer_exact_range b Hb) as Hr.
  pose proof (fits_bound header_fits b d Hr Hd Hfit) as Hf.
  destruct Hb as (Ht & Hm & Hl).
  unfold buffer_exact. cbn [total_length records].
  unfold length_in_range in Hd.
  rewrite u16_small
    by (unfold sizeof_push, sizeof_data, ETH_ALEN, sizeof_tlv,
          sizeof_transaction_mgmt in *; lia).
  split; [|split].
  - rewrite records_size_app. cbn [records_size fold_right].
    unfold record_size. lia.
  - lia.
  - apply Forall_app. split; [exact Hl|]. constructor; [exact Hd|constructor].
Qed.

Lemma flush_exact (iface iface' : interface) (e e' : environ)
    (b b' : push_buffer) :
  buffer_exact b -> total_length b <> 0 ->
  flush iface e dest tx_id b = (b', iface', e') ->
  sends e e' [(push_packet tx_id b, sizeof_push + total_length b)]
  /\ datagram_exact (push_packet tx_id b, sizeof_push + total_length b)
  /\ b' = {| total_length := 0; seqno := u16 (seqno b + 1); records := [] |}.
Proof.
  intros Hb Hne Hfl.
  pose proof (buffer_exact_range b Hb) as Hr.
  destruct (flush_sends _ _ _ _ _ _ _ _ Hfl) as (Hs & _ & _).
  split; [exact Hs|]. split.
  - destruct Hb as (Ht & Hm & Hl).
    unfold datagram_exact. cbn [fst snd pkt_length pkt_type pkt_records
      push_packet].
    rewrite u16_small
      by (unfold sizeof_push, sizeof_tlv, sizeof_transaction_mgmt in *; lia).
    repeat split.
    + exact Hm.
    + unfold sizeof_push, sizeof_tlv, sizeof_transaction_mgmt. lia.
    + intros Hnil. rewrite Hnil in Ht. cbn in Ht. lia.
    + lia.
  - unfold flush in Hfl.
    destruct (send_alfred_packet _ _ _ _ _) as [[r i1] e1].
    inversion Hfl; reflexivity.
Qed.

Lemma push_data_loop_carries (h : list dataset) :
  forall (iface iface' : interface) (e e' : environ) (b b' : push_buffer),
  Forall length_in_range h -> buffer_exact b ->
  push_data_loop h iface e dest max_source_level type_filter tx_id b
  = (b', iface', e') ->
  exists l,
    sends e e' l
    /\ carried_records l ++ records b'
       = records b ++ filter (sendable max_source_level type_filter) h
    /\ Forall datagram_exact l
    /\ buffer_exact b'.
Proof.
  induction h as [|d h IH]; intros iface iface' e e' b b' Hh Hb;
    cbn [push_data_loop filter].
  - intros H; inversion H; subst. exists [].
    rewrite app_nil_r. cbn. auto using sends_refl.
  - inversion Hh as [|? ? Hd Hh']; subst.
    pose proof (buffer_exact_range b Hb) as Hr.
    unfold sendable at 1.
    destruct (passed_over max_source_level type_filter d) eqn:Hpass;
      cbn [negb andb]; [apply IH; assumption|].
    destruct (too_big b d) eqn:Hbig.
    + destruct (total_length b =? 0) eqn:Hz.
      * apply Z.eqb_eq in Hz. rewrite <- (too_big_empty b d Hz), Hbig.
        cbn [negb]. apply IH; assumption.
      * apply Z.eqb_neq in Hz.
        destruct (flush iface e dest tx_id b) as [[b1 i1] e1] eqn:Hfl.
        destruct (flush_exact _ _ _ _ _ _ Hb Hz Hfl) as (Hs1 & Hx1 & ->).
        assert (Hb1 : buffer_exact
                        {| total_length := 0; seqno := u16 (seqno b + 1);
                           records := [] |}).
        { unfold buffer_exact. cbn [total_length records records_size fold_right].
          repeat split; [lia | constructor]. }
        assert (Hemp : too_big {| total_length := 0;
                                  seqno := u16 (seqno b + 1);
                                  records := [] |} d = oversize d)
          by (apply too_big_empty; reflexivity).
        rewrite Hemp.
        assert (Hrec : records b <> []).
        { destruct Hb as (Ht & _ & _). intros Hnil.
          rewrite Hnil in Ht. cbn in Ht. lia. }
        assert (Hcar : carried_records
                         [(push_packet tx_id b,
                           sizeof_push + total_length b)] = records b)
          by (cbn; apply app_nil_r).
        destruct (oversize d) eqn:Hover; cbn [negb]; intros H.
        -- apply IH in H as (l & Hsl & Hcl & Hxl & Hbl);
             [|assumption|assumption].
           exists ((push_packet tx_id b, sizeof_push + total_length b) :: l).
           split; [apply (sends_trans e e1 e' [_] l); assumption|].
           split; [|split; [constructor; assumption | assumption]].
           change (carried_records ([(push_packet tx_id b,
                                      sizeof_push + total_length b)] ++ l)
                   ++ records b' = records b ++ filter
                       (sendable max_source_level type_filter) h).
           rewrite carried_records_app, Hcar, <- app_assoc, Hcl.
           reflexivity.
        -- rewrite <- Hemp in Hover.
           apply IH in H as (l & Hsl & Hcl & Hxl & Hbl);
             [|assumption
              |apply buffer_exact_append; assumption].
           exists ((push_packet tx_id b, sizeof_push + total_length b) :: l).
           split; [apply (sends_trans e e1 e' [_] l); assumption|].
           split; [|split; [constructor; assumption | assumption]].
           change (carried_records ([(push_packet tx_id b,
                                      sizeof_push + total_length b)] ++ l)
                   ++ records b' = records b ++ d :: filter
                       (sendable max_source_level type_filter) h).
           rewrite carried_records_app, Hcar, <- app_assoc, Hcl.
           reflexivity.
    + cbv beta iota. rewrite Hbig.
      rewrite (fits_not_oversize header_fits b d Hr Hd Hbig). cbn [negb].
      intros H.
      apply IH in H as (l & Hsl & Hcl & Hxl & Hbl);
        [|assumption | apply buffer_exact_append; assumption].
      exists l. split; [exact Hsl|]. split; [|split; assumption].
      rewrite Hcl. cbn [records]. rewrite <- app_assoc. reflexivity.
Qed.

(** X11: [push_data] sends every dataset it does not pass over, once and in
    the order of the store.  On a store whose entries have a buffer as long
    as their length field, the datasets in the datagrams handed to
    [send_alfred_packet], taken in the order of sending, are the datasets of
    the store that the two tests of the loop let through and whose record
    fits a datagram, each once and in the order [hash_iterate] yields them.
    Every datagram is as long as its header and its records, its length
    field is that length less the TLV header, and no PUSH_DATA datagram is
    empty.  [MAX_PAYLOAD] is taken to hold the PUSH_DATA header and to give
    a length field of 16 bits, and the stored lengths to be 16-bit values;
    the buffers are what the copy of line 94 reads. *)
Theorem push_data_carries_every_dataset_once (g : globals)
    (iface : interface) (e : environ) :
  Forall length_in_range (data_hash g) ->
  Forall buffer_matches (data_hash g) ->
  exists l,
    sends e
      (snd (push_data g iface e dest max_source_level type_filter tx_id)) l
    /\ carried_records l
       = filter (sendable max_source_level type_filter) (data_hash g)
    /\ Forall datagram_exact l.
Proof.
  intros Hh _. unfold push_data.
  destruct (push_data_loop _ _ _ _ _ _ _ _) as [[b1 i1] e1] eqn:Hloop.
  apply push_data_loop_carries in Hloop as (l & Hs & Hc & Hx & Hb1);
    [|exact Hh
     |unfold buffer_exact; cbn [total_length records records_size fold_right];
      repeat split; [lia | constructor]].
  cbn [records app] in Hc.
  assert (Hfin : exists l2 b2 i2 e2,
            (if total_length b1 =? 0 then (b1, i1, e1)
             else flush i1 e1 dest tx_id b1) = (b2, i2, e2)
            /\ sends e e2 l2
            /\ carried_records l2
               = filter (sendable max_source_level type_filter) (data_hash g)
            /\ Forall datagram_exact l2).
  { destruct (total_length b1 =? 0) eqn:Hz.
    - apply Z.eqb_eq in Hz. exists l, b1, i1, e1.
      split; [reflexivity|]. split; [exact Hs|]. split; [|exact Hx].
      destruct Hb1 as (Ht & _ & Hl). rewrite Hz in Ht.
      rewrite (records_size_zero _ Hl (eq_sym Ht)), app_nil_r in Hc.
      exact Hc.
    - apply Z.eqb_neq in Hz.
      destruct (flush i1 e1 dest tx_id b1) as [[b2 i2] e2] eqn:Hfl.
      destruct (flush_exact _ _ _ _ _ _ Hb1 Hz Hfl) as (Hs1 & Hx1 & _).
      exists (l ++ [(push_packet tx_id b1, sizeof_push + total_length b1)]),
        b2, i2, e2.
      split; [reflexivity|].
      split; [apply (sends_trans e e1 e2); assumption|].
      split.
      + rewrite carried_records_app. cbn. rewrite app_nil_r. exact Hc.
      + apply Forall_app. split; [exact Hx|].
        constructor; [exact Hx1 | constructor]. }
  destruct Hfin as (l2 & b2 & i2 & e2 & -> & Hs2 & Hc2 & Hx2).
  destruct ((seqno b2 >? 0) || negb (type_filter =? NO_FILTER)).
  - pose proof (send_alfred_packet_sends i2 e2 dest
                  (status_end_packet tx_id (seqno b2)) sizeof_status) as Hs3.
    destruct (send_alfred_packet i2 e2 dest _ _) as [[r3 i3] e3].
    cbn [snd] in *.
    exists (l2 ++ [(status_end_packet tx_id (seqno b2), sizeof_status)]).
    split; [apply (sends_trans e e2 e3); assumption|].
    split.
    + rewrite carried_records_app. cbn. rewrite app_nil_r. exact Hc2.
    + apply Forall_app. split; [exact Hx2|].
      constructor; [|constructor].
      unfold datagram_exact. cbn [fst snd pkt_length pkt_type pkt_records
        status_end_packet].
      repeat split.
      * unfold sizeof_status, sizeof_push, sizeof_tlv,
          sizeof_transaction_mgmt in *. lia.
  - exists l2. cbn [snd]. auto.
Qed.
End Carried.

(** ** The sockets across a push *)

Lemma send_phase_refl (iface : interface) (e : environ) :
  send_phase iface e iface e.
Proof.
  exists []. split; [reflexivity|].
  destruct (netsock iface <? 0); [auto | left; auto].
Qed.

Lemma send_phase_trans (i1 i2 i3 : interface) (e1 e2 e3 : environ) :
  send_phase i1 e1 i2 e2 -> send_phase i2 e2 i3 e3 ->
  send_phase i1 e1 i3 e3.
Proof.
  intros (l1 & Ht1 & H1) (l2 & Ht2 & H2). exists (l2 ++ l1).
  split; [rewrite Ht2, Ht1, app_assoc; reflexivity|].
  destruct (netsock i1 <? 0) eqn:Hn1.
  - destruct H1 as (-> & Hw1 & Hl1). rewrite Hn1 in H2.
    destruct H2 as (-> & Hw2 & Hl2).
    split; [reflexivity|]. split; [congruence|].
    apply Forall_app; auto.
  - destruct H1 as [[-> Hl1]|(-> & after & before & dest & p & n & -> & Ha
                              & Hb)].
    + rewrite Hn1 in H2.
      destruct H2 as [[-> Hl2]|(-> & after & before & dest & p & n & ->
                                & Ha & Hb)].
      * left. split; [reflexivity|]. apply Forall_app; auto.
      * right. split; [reflexivity|].
        exists after, (before ++ l1), dest, p, n.
        split; [rewrite <- app_assoc; reflexivity|].
        split; [exact Ha|]. apply Forall_app; auto.
    + cbn [netsock set_sockets] in H2.
      destruct H2 as (-> & _ & Hl2).
      right. split; [reflexivity|].
      exists (l2 ++ after), before, dest, p, n.
      split; [rewrite <- app_assoc; reflexivity|].
      split; [apply Forall_app; auto | exact Hb].
Qed.

Section SocketsAcrossPush.
Context {P : Platform}.

Lemma send_alfred_packet_phase (iface : interface) (e : environ)
    (dest : alfred_addr) (p : packet) (n : Z) :
  send_phase iface e
    (snd (fst (send_alfred_packet iface e dest p n)))
    (snd (send_alfred_packet iface e dest p n)).
Proof.
  unfold send_phase, send_alfred_packet, sendto.
  destruct (netsock iface <? 0) eqn:Hn; cbn [fst snd].
  - exists [EvSendPacket dest p n]. split; [reflexivity|].
    repeat split. constructor; [exact I | constructor].
  - cbn [emit wire trace clock heap].
    destruct (wire e) as [|r rest];
      destruct (sendto_ret _ =? - EPERM); cbn [fst snd];
      cbn [emit wire trace clock heap].
    + exists [EvClose (netsock_mcast iface); EvClose (netsock iface);
              EvSendto (netsock iface) dest p n; EvSendPacket dest p n].
      split; [reflexivity|]. right. split; [reflexivity|].
      exists [], [EvSendPacket dest p n], dest, p, n.
      split; [reflexivity|]. split; [constructor|].
      constructor; [intros [] | constructor].
    + exists [EvSendto (netsock iface) dest p n; EvSendPacket dest p n].
      split; [reflexivity|]. left. split; [reflexivity|].
      repeat constructor; intros [].
    + exists [EvClose (netsock_mcast iface); EvClose (netsock iface);
              EvSendto (netsock iface) dest p n; EvSendPacket dest p n].
      split; [reflexivity|]. right. split; [reflexivity|].
      exists [], [EvSendPacket dest p n], dest, p, n.
      split; [reflexivity|]. split; [constructor|].
      constructor; [intros [] | constructor].
    + exists [EvSendto (netsock iface) dest p n; EvSendPacket dest p n].
      split; [reflexivity|]. left. split; [reflexivity|].
      repeat constructor; intros [].
Qed.

Lemma flush_phase (iface iface' : interface) (e e' : environ)
    (dest : alfred_addr) (tx_id : Z) (b b' : push_buffer) :
  flush iface e dest tx_id b = (b', iface', e') ->
  send_phase iface e iface' e'.
Proof.
  unfold flush.
  pose proof (send_alfred_packet_phase iface e dest (push_packet tx_id b)
                (sizeof_push + total_length b)) as Hs.
  destruct (send_alfred_packet _ _ _ _ _) as [[r i1] e1]. cbn [fst snd] in Hs.
  intros H; inversion H; subst. exact Hs.
Qed.

Lemma push_data_loop_phase (dest : alfred_addr)
    (max_source_level : data_source_t) (type_filter tx_id : Z)
    (h : list dataset) :
  forall (iface iface' : interface) (e e' : environ) (b b' : push_buffer),
  push_data_loop h iface e dest max_source_level type_filter tx_id b
  = (b', iface', e') ->
  send_phase iface e iface' e'.
Proof.
  induction h as [|d h IH]; intros iface iface' e e' b b';
    cbn [push_data_loop].
  - intros H; inversion H; subst. apply send_phase_refl.
  - destruct (passed_over max_source_level type_filter d); [apply IH|].
    destruct (too_big b d) eqn:Hbig.
    + destruct (total_length b =? 0); [apply IH|].
      destruct (flush iface e dest tx_id b) as [[b1 i1] e1] eqn:Hfl.
      apply flush_phase in Hfl.
      destruct (too_big b1 d); intros H; apply IH in H;
        exact (send_phase_trans _ _ _ _ _ _ Hfl H).
    + cbv beta iota. rewrite Hbig. apply IH.
Qed.

Lemma push_data_phase (g : globals) (iface : interface)
    (e : environ) (dest : alfred_addr) (max_source_level : data_source_t)
    (type_filter tx_id : Z) :
  send_phase iface e
    (snd (fst (push_data g iface e dest max_source_level type_filter tx_id)))
    (snd (push_data g iface e dest max_source_level type_filter tx_id)).
Proof.
  unfold push_data.
  destruct (push_data_loop _ _ _ _ _ _ _ _) as [[b1 i1] e1] eqn:Hloop.
  apply push_data_loop_phase in Hloop.
  assert (Hfin : exists b2 i2 e2,
            (if total_length b1 =? 0 then (b1, i1, e1)
             else flush i1 e1 dest tx_id b1) = (b2, i2, e2)
            /\ send_phase iface e i2 e2).
  { destruct (total_length b1 =? 0).
    - exists b1, i1, e1. auto.
    - destruct (flush i1 e1 dest tx_id b1) as [[b2 i2] e2] eqn:Hfl.
      apply flush_phase in Hfl. exists b2, i2, e2.
      split; [reflexivity|]. exact (send_phase_trans _ _ _ _ _ _ Hloop Hfl). }
  destruct Hfin as (b2 & i2 & e2 & -> & H2).
  destruct ((seqno b2 >? 0) || negb (type_filter =? NO_FILTER)).
  - pose proof (send_alfred_packet_phase i2 e2 dest
                  (status_end_packet tx_id (seqno b2)) sizeof_status) as H3.
    destruct (send_alfred_packet i2 e2 dest _ _) as [[r3 i3] e3].
    cbn [fst snd] in *. exact (send_phase_trans _ _ _ _ _ _ H2 H3).
  - cbn [fst snd]. exact H2.
Qed.

(** X12: one push tears an interface down at most once, and sends nothing
    after that.  Over a call of [push_data], an interface without socket
    sees neither [sendto] nor [close] and stays as it is, each datagram
    being dropped in [send_alfred_packet]; an interface with a socket either
    keeps its sockets, none being closed, or has both closed once, right
    after a [sendto], and set to -1, every later datagram of the push being
    dropped. *)
Theorem push_data_tears_down_at_most_once (g : globals) (iface : interface)
    (e : environ) (dest : alfred_addr) (max_source_level : data_source_t)
    (type_filter tx_id : Z) :
  send_phase iface e
    (snd (fst (push_data g iface e dest max_source_level type_filter tx_id)))
    (snd (push_data g iface e dest max_source_level type_filter tx_id)).
Proof. apply push_data_phase. Qed.
End SocketsAcrossPush.

(** ** The periodic triggers *)

Lemma all_sent_refl (ok : alfred_addr -> packet -> Z -> Prop) (e : environ) :
  all_sent ok e e.
Proof. exists []. auto. Qed.

Lemma all_sent_trans (ok : alfred_addr -> packet -> Z -> Prop)
    (e1 e2 e3 : environ) :
  all_sent ok e1 e2 -> all_sent ok e2 e3 -> all_sent ok e1 e3.
Proof.
  intros (t1 & H1 & F1) (t2 & H2 & F2). exists (t2 ++ t1).
  rewrite H2, H1, app_assoc. split; [reflexivity|].
  apply Forall_app; auto.
Qed.

Lemma all_sent_impl (ok ok' : alfred_addr -> packet -> Z -> Prop)
    (e e' : environ) :
  (forall dest p n, ok dest p n -> ok' dest p n) ->
  all_sent ok e e' -> all_sent ok' e e'.
Proof.
  intros Himp (evs & Ht & HF). exists evs. split; [assumption|].
  eapply Forall_impl; [|exact HF].
  intros [ | | ? p n | ? ? p n | ]; cbn; auto.
Qed.

Lemma send_phase_sockets_only (iface iface' : interface) (e e' : environ) :
  send_phase iface e iface' e' -> sockets_only iface iface'.
Proof.
  intros (evs & _ & H). unfold sockets_only.
  destruct (netsock iface <? 0) eqn:Hn.
  - left. tauto.
  - apply Z.ltb_ge in Hn. destruct H as [[-> _]|[-> _]]; auto.
Qed.

Lemma sockets_only_server_hash (iface iface' : interface) :
  sockets_only iface iface' ->
  server_hash iface' = server_hash iface /\ scope_id iface' = scope_id iface.
Proof. intros [->|[_ ->]]; auto. Qed.

Lemma skipn_tl {A : Type} (n : nat) (l : list A) :
  skipn n (tl l) = skipn (S n) l.
Proof. destruct l; [destruct n|]; reflexivity. Qed.

Lemma get_random_id_rest (ids : list Z) :
  snd (get_random_id ids) = tl ids
  /\ 0 <= fst (get_random_id ids) < 65536.
Proof.
  destruct ids as [|i rest]; cbn [get_random_id fst snd tl].
  - split; [reflexivity | lia].
  - split; [reflexivity | apply u16_range].
Qed.

Section PeriodicProperties.
Context {P : Platform}.

Lemma send_alfred_packet_events (iface : interface) (e : environ)
    (dest : alfred_addr) (p : packet) (n : Z) :
  exists evs,
    trace (snd (send_alfred_packet iface e dest p n)) = evs ++ trace e
    /\ sent_packets evs = [(p, n)]
    /\ wire_packets evs = (if has_socket iface then [(p, n)] else [])
    /\ Forall (handed_to (fun dest' p' n' =>
                            dest' = dest /\ p' = p /\ n' = n)) evs.
Proof.
  unfold send_alfred_packet, sendto, has_socket.
  destruct (netsock iface <? 0) eqn:Hn; cbn [negb fst snd].
  - exists [EvSendPacket dest p n]. repeat split.
    repeat constructor.
  - cbn [emit wire trace clock heap].
    destruct (wire e) as [|r rest];
      destruct (sendto_ret _ =? - EPERM); cbn [fst snd];
      cbn [emit wire trace clock heap].
    + exists [EvClose (netsock_mcast iface); EvClose (netsock iface);
              EvSendto (netsock iface) dest p n; EvSendPacket dest p n].
      repeat split. repeat constructor.
    + exists [EvSendto (netsock iface) dest p n; EvSendPacket dest p n].
      repeat split. repeat constructor.
    + exists [EvClose (netsock_mcast iface); EvClose (netsock iface);
              EvSendto (netsock iface) dest p n; EvSendPacket dest p n].
      repeat split. repeat constructor.
    + exists [EvSendto (netsock iface) dest p n; EvSendPacket dest p n].
      repeat split. repeat constructor.
Qed.

Lemma announce_master_loop_events (mcast : alfred_addr)
    (ifaces : list interface) :
  forall e : environ,
  exists evs,
    trace (snd (announce_master_loop mcast ifaces e)) = evs ++ trace e
    /\ sent_packets evs
       = repeat (announce_packet, sizeof_tlv) (length ifaces)
    /\ wire_packets evs
       = repeat (announce_packet, sizeof_tlv)
                (length (filter has_socket ifaces))
    /\ Forall (handed_to (fun dest p n =>
                            dest = mcast /\ p = announce_packet
                            /\ n = sizeof_tlv)) evs
    /\ Forall2 sockets_only ifaces
               (fst (announce_master_loop mcast ifaces e)).
Proof.
  induction ifaces as [|iface rest IH]; intros e; cbn [announce_master_loop].
  - exists []. cbn. repeat split; constructor.
  - destruct (send_alfred_packet_events iface e mcast announce_packet
                sizeof_tlv) as (evs1 & Ht1 & Hs1 & Hw1 & Hf1).
    pose proof (send_phase_sockets_only _ _ _ _
                  (send_alfred_packet_phase iface e mcast announce_packet
                     sizeof_tlv)) as Hso.
    destruct (send_alfred_packet iface e mcast announce_packet sizeof_tlv)
      as [[r iface'] e1]. cbn [fst snd] in Ht1, Hso.
    destruct (IH e1) as (evs2 & Ht2 & Hs2 & Hw2 & Hf2 & Hi2).
    destruct (announce_master_loop mcast rest e1) as [rest' e2].
    cbn [fst snd] in *.
    exists (evs2 ++ evs1).
    split; [rewrite Ht2, Ht1, app_assoc; reflexivity|].
    split; [rewrite sent_packets_app, Hs1, Hs2; reflexivity|].
    split.
    + unfold wire_packets in *. rewrite packets_of_app, Hw1, Hw2.
      cbn [filter]. destruct (has_socket iface); reflexivity.
    + split; [apply Forall_app; auto|]. constructor; assumption.
Qed.

(** X13: one announcement per interface.  [announce_master] returns 0 and
    hands one announcement, the TLV header with length field 0, to
    [send_alfred_packet] for every interface, all for the multicast
    address; [sendto] is called once for every interface that has a socket,
    a failure on one interface not keeping the announcement from the next;
    an interface keeps its peers and has at most its sockets set to -1. *)
Theorem announce_master_one_per_interface (mcast : alfred_addr)
    (ifaces : list interface) (e : environ) :
  let result := announce_master mcast ifaces e in
  fst (fst result) = 0
  /\ sends e (snd result)
       (repeat (announce_packet, sizeof_tlv) (length ifaces))
  /\ sends_on_wire e (snd result)
       (repeat (announce_packet, sizeof_tlv)
               (length (filter has_socket ifaces)))
  /\ all_sent (fun dest p n =>
                 dest = mcast /\ p = announce_packet /\ n = sizeof_tlv)
              e (snd result)
  /\ Forall2 sockets_only ifaces (snd (fst result))
  /\ map server_hash (snd (fst result)) = map server_hash ifaces.
Proof.
  unfold announce_master.
  destruct (announce_master_loop_events mcast ifaces e)
    as (evs & Ht & Hs & Hw & Hf & Hi).
  destruct (announce_master_loop mcast ifaces e) as [ifaces' e'].
  cbn [fst snd] in *.
  split; [reflexivity|].
  split; [exists evs; auto|].
  split; [exists evs; auto|].
  split; [exists evs; auto|].
  split; [exact Hi|].
  clear - Hi. induction Hi as [|i i' l l' Hso _ IH]; [reflexivity|].
  cbn [map]. rewrite IH.
  destruct (sockets_only_server_hash _ _ Hso) as [-> _]. reflexivity.
Qed.

Lemma passed_over_level (max_source_level : data_source_t) (type_filter : Z)
    (d : dataset) :
  passed_over max_source_level type_filter d = false ->
  source_level (data_source d) <= source_level max_source_level
  /\ (0 <= type_filter -> tlv_type (header (data d)) = type_filter).
Proof.
  unfold passed_over. intros H. apply orb_false_iff in H as [Hl Hf].
  rewrite Z.gtb_ltb in Hl. apply Z.ltb_ge in Hl. split; [exact Hl|].
  intros Hpos. apply andb_false_iff in Hf as [Hf|Hf].
  - rewrite Z.geb_leb in Hf. apply Z.leb_gt in Hf. lia.
  - apply negb_false_iff in Hf. apply Z.eqb_eq in Hf. exact Hf.
Qed.

Section PushSent.
Variable g : globals.
Variable dest : alfred_addr.
Variable max_source_level : data_source_t.
Variable type_filter tx_id : Z.

Let ok (dest' : alfred_addr) (p : packet) (n : Z) : Prop :=
  dest' = dest /\ pkt_tx_id p = tx_id
  /\ Forall (let_through g max_source_level type_filter) (pkt_records p).

Lemma send_alfred_packet_sent (iface : interface) (e : environ)
    (p : packet) (n : Z) :
  pkt_tx_id p = tx_id ->
  Forall (let_through g max_source_level type_filter) (pkt_records p) ->
  all_sent ok e (snd (send_alfred_packet iface e dest p n)).
Proof.
  intros Hid Hrec.
  destruct (send_alfred_packet_events iface e dest p n)
    as (evs & Ht & _ & _ & Hf).
  exists evs. split; [exact Ht|].
  eapply Forall_impl; [|exact Hf].
  intros [ | | ? p' n' | ? ? p' n' | ]; cbn; auto;
    intros (-> & -> & ->); repeat split; assumption.
Qed.

Lemma flush_sent (iface iface' : interface) (e e' : environ)
    (b b' : push_buffer) :
  Forall (let_through g max_source_level type_filter) (records b) ->
  flush iface e dest tx_id b = (b', iface', e') ->
  all_sent ok e e' /\ records b' = [].
Proof.
  intros Hb. unfold flush.
  pose proof (send_alfred_packet_sent iface e (push_packet tx_id b)
                (sizeof_push + total_length b) eq_refl Hb) as Hs.
  destruct (send_alfred_packet _ _ _ _ _) as [[r i1] e1]. cbn [snd] in Hs.
  intros H; inversion H; subst. auto.
Qed.

Lemma push_data_loop_sent (h : list dataset) :
  forall (iface iface' : interface) (e e' : environ) (b b' : push_buffer),
  (forall d, In d h -> In d (data_hash g)) ->
  Forall (let_through g max_source_level type_filter) (records b) ->
  push_data_loop h iface e dest max_source_level type_filter tx_id b
  = (b', iface', e') ->
  all_sent ok e e'
  /\ Forall (let_through g max_source_level type_filter) (records b').
Proof.
  induction h as [|d h IH]; intros iface iface' e e' b b' Hin Hb;
    cbn [push_data_loop].
  - intros H; inversion H; subst. auto using all_sent_refl.
  - assert (Hin' : forall d0, In d0 h -> In d0 (data_hash g))
      by (intros; apply Hin; right; assumption).
    destruct (passed_over max_source_level type_filter d) eqn:Hpass;
      [apply IH; assumption|].
    assert (Hd : let_through g max_source_level type_filter d)
      by (split; [apply Hin; left; reflexivity | exact Hpass]).
    destruct (too_big b d) eqn:Hbig.
    + destruct (total_length b =? 0); [apply IH; assumption|].
      destruct (flush iface e dest tx_id b) as [[b1 i1] e1] eqn:Hfl.
      apply flush_sent in Hfl as [Hs1 Hb1]; [|assumption].
      destruct (too_big b1 d) eqn:Hbig1; intros H;
        apply IH in H as [Hs2 Hb2]; auto.
      * eauto using all_sent_trans.
      * rewrite Hb1. constructor.
      * eauto using all_sent_trans.
      * cbn [records]. rewrite Hb1. repeat constructor; apply Hd.
    + cbv beta iota. rewrite Hbig.
      intros H. apply IH in H as [Hs2 Hb2]; auto.
      cbn [records]. apply Forall_app. split; [assumption|].
      repeat constructor; apply Hd.
Qed.

Lemma push_data_sent (iface : interface) (e : environ) :
  all_sent ok e
    (snd (push_data g iface e dest max_source_level type_filter tx_id)).
Proof.
  unfold push_data.
  destruct (push_data_loop _ _ _ _ _ _ _ _) as [[b1 i1] e1] eqn:Hloop.
  apply push_data_loop_sent in Hloop as [Hs1 Hb1]; [|auto|constructor].
  assert (Hfl : exists b2 i2 e2,
            (if total_length b1 =? 0 then (b1, i1, e1)
             else flush i1 e1 dest tx_id b1) = (b2, i2, e2)
            /\ all_sent ok e e2).
  { destruct (total_length b1 =? 0).
    - eauto.
    - destruct (flush i1 e1 dest tx_id b1) as [[b2 i2] e2] eqn:Hfl.
      exists b2, i2, e2. split; [reflexivity|].
      apply flush_sent in Hfl as [Hs2 _]; [|assumption].
      eauto using all_sent_trans. }
  destruct Hfl as (b2 & i2 & e2 & -> & Hs2).
  destruct (_ || _); [|exact Hs2].
  pose proof (send_alfred_packet_sent i2 e2
                (status_end_packet tx_id (seqno b2)) sizeof_status eq_refl
                (Forall_nil _)) as Hs3.
  destruct (send_alfred_packet _ _ _ _ _) as [[r3 i3] e3]. cbn [snd] in *.
  eauto using all_sent_trans.
Qed.
End PushSent.

Lemma push_data_known (g : globals) (iface : interface) (e : environ)
    (dest : alfred_addr) (max_source_level : data_source_t)
    (type_filter tx_id : Z) (ok : alfred_addr -> Prop) :
  ok dest ->
  all_sent (fun dest' p _ =>
              ok dest'
              /\ Forall (known_as g max_source_level) (pkt_records p))
    e (snd (push_data g iface e dest max_source_level type_filter tx_id))
  /\ sockets_only iface
       (snd (fst (push_data g iface e dest max_source_level type_filter
                            tx_id)))
  /\ fst (fst (push_data g iface e dest max_source_level type_filter tx_id))
     = 0.
Proof.
  intros Hok. split; [|split].
  - eapply all_sent_impl; [|apply push_data_sent].
    cbv beta. intros dest' p n (-> & _ & Hrec). split; [exact Hok|].
    eapply Forall_impl; [|exact Hrec].
    intros d [Hin Hpass]. split; [exact Hin|].
    apply (passed_over_level _ _ _ Hpass).
  - eapply send_phase_sockets_only. apply push_data_phase.
  - unfold push_data.
    destruct (push_data_loop _ _ _ _ _ _ _ _) as [[b1 i1] e1].
    destruct (if total_length b1 =? 0 then _ else _) as [[b2 i2] e2].
    destruct (_ || _); [|reflexivity].
    destruct (send_alfred_packet _ _ _ _ _) as [[r3 i3] e3]. reflexivity.
Qed.
End PeriodicProperties.

Lemma sockets_only_trans (i1 i2 i3 : interface) :
  sockets_only i1 i2 -> sockets_only i2 i3 -> sockets_only i1 i3.
Proof.
  intros [->|[H1 ->]] [->|[H2 ->]]; unfold sockets_only; auto.
Qed.

Section Triggers.
Context {P : Platform}.
Variable g : globals.

Lemma sync_servers_sent (servers : list server) :
  forall (iface iface' : interface) (e e' : environ) (ids ids' : list Z),
  sync_servers g servers iface e ids = (iface', e', ids') ->
  all_sent (fun dest p _ =>
              In dest (map address servers)
              /\ Forall (known_as g SOURCE_FIRST_HAND) (pkt_records p))
           e e'
  /\ sockets_only iface iface'
  /\ ids' = skipn (length servers) ids.
Proof.
  induction servers as [|srv rest IH]; intros iface iface' e e' ids ids';
    cbn [sync_servers].
  - intros H; inversion H; subst.
    split; [apply all_sent_refl|]. split; [left|]; reflexivity.
  - destruct (get_random_id_rest ids) as [Hrest _].
    destruct (get_random_id ids) as [tx_id ids1]. cbn [snd] in Hrest.
    subst ids1.
    destruct (push_data_known g iface e (address srv) SOURCE_FIRST_HAND
                NO_FILTER tx_id
                (fun dest => In dest (map address (srv :: rest))))
      as (Hs1 & Hi1 & _); [left; reflexivity|].
    destruct (push_data g iface e (address srv) SOURCE_FIRST_HAND NO_FILTER
                tx_id) as [[r i1] e1]. cbn [fst snd] in Hs1, Hi1.
    intros H. apply IH in H as (Hs2 & Hi2 & ->).
    split; [|split].
    + eapply all_sent_trans; [exact Hs1|].
      eapply all_sent_impl; [|exact Hs2].
      cbv beta. intros dest p _ [Hin Hrec]. split; [right|]; assumption.
    + exact (sockets_only_trans _ _ _ Hi1 Hi2).
    + apply skipn_tl.
Qed.

Lemma sync_data_loop_sent (ifaces : list interface) :
  forall (ifaces' : list interface) (e e' : environ) (ids ids' : list Z),
  sync_data_loop g ifaces e ids = (ifaces', e', ids') ->
  all_sent (fun dest p _ =>
              (exists iface srv,
                 In iface ifaces /\ In srv (server_hash iface)
                 /\ dest = address srv)
              /\ Forall (known_as g SOURCE_FIRST_HAND) (pkt_records p))
           e e'
  /\ Forall2 sockets_only ifaces ifaces'
  /\ ids' = skipn (length (flat_map server_hash ifaces)) ids.
Proof.
  induction ifaces as [|iface rest IH]; intros ifaces' e e' ids ids';
    cbn [sync_data_loop].
  - intros H; inversion H; subst.
    split; [apply all_sent_refl|]. split; [constructor | reflexivity].
  - destruct (sync_servers g (server_hash iface) iface e ids)
      as [[iface1 e1] ids1] eqn:Hsrv.
    apply sync_servers_sent in Hsrv as (Hs1 & Hi1 & ->).
    destruct (sync_data_loop g rest e1 _) as [[rest' e2] ids2] eqn:Hrest.
    apply IH in Hrest as (Hs2 & Hi2 & ->).
    intros H; inversion H; subst.
    split; [|split].
    + eapply all_sent_trans.
      * eapply all_sent_impl; [|exact Hs1].
        cbv beta. intros dest p _ [Hin Hrec]. split; [|exact Hrec].
        apply in_map_iff in Hin as (srv & <- & Hin).
        exists iface, srv. split; [left; reflexivity | auto].
      * eapply all_sent_impl; [|exact Hs2].
        cbv beta. intros dest p _ [(i & srv & Hi & Hsrv & ->) Hrec].
        split; [|exact Hrec]. exists i, srv. split; [right|]; auto.
    + constructor; assumption.
    + cbn [flat_map]. rewrite length_app, skipn_skipn.
      f_equal. apply Nat.add_comm.
Qed.

(** X14: [sync_data] pushes to the announced masters only, and only what
    the node has first hand.  It returns 0.  Every datagram it hands to
    [send_alfred_packet] or to [sendto] goes to the address stored for a
    master in the table of one of the interfaces, and carries only datasets
    of the store whose provenance is SOURCE_FIRST_HAND or better, so that
    data learnt from a sync is not synced on.  One random id is drawn for
    every master of every interface, and an interface has at most its
    sockets set to -1. *)
Theorem sync_data_reaches_known_masters (ifaces : list interface)
    (e : environ) (ids : list Z) :
  let '(r, ifaces', e', ids') := sync_data g ifaces e ids in
  r = 0
  /\ all_sent (fun dest p _ =>
                 (exists iface srv,
                    In iface ifaces /\ In srv (server_hash iface)
                    /\ dest = address srv)
                 /\ Forall (known_as g SOURCE_FIRST_HAND) (pkt_records p))
              e e'
  /\ Forall2 sockets_only ifaces ifaces'
  /\ ids' = skipn (length (flat_map server_hash ifaces)) ids.
Proof.
  unfold sync_data.
  destruct (sync_data_loop g ifaces e ids) as [[ifaces' e'] ids'] eqn:H.
  apply sync_data_loop_sent in H. split; [reflexivity | exact H].
Qed.

Lemma push_local_data_loop_sent (best : server) (ifaces : list interface) :
  forall (ifaces' : list interface) (e e' : environ) (ids ids' : list Z),
  push_local_data_loop g best ifaces e ids = (ifaces', e', ids') ->
  all_sent (fun dest p _ =>
              dest = address best
              /\ Forall (known_as g SOURCE_LOCAL) (pkt_records p))
           e e'
  /\ Forall2 sockets_only ifaces ifaces'
  /\ ids' = skipn (length ifaces) ids.
Proof.
  induction ifaces as [|iface rest IH]; intros ifaces' e e' ids ids';
    cbn [push_local_data_loop].
  - intros H; inversion H; subst.
    split; [apply all_sent_refl|]. split; [constructor | reflexivity].
  - destruct (get_random_id_rest ids) as [Hrest _].
    destruct (get_random_id ids) as [tx_id ids1]. cbn [snd] in Hrest.
    subst ids1.
    destruct (push_data_known g iface e (address best) SOURCE_LOCAL
                NO_FILTER tx_id (fun dest => dest = address best))
      as (Hs1 & Hi1 & _); [reflexivity|].
    destruct (push_data g iface e (address best) SOURCE_LOCAL NO_FILTER
                tx_id) as [[r i1] e1]. cbn [fst snd] in Hs1, Hi1.
    destruct (push_local_data_loop g best rest e1 (tl ids))
      as [[rest' e2] ids2] eqn:Hloop.
    apply IH in Hloop as (Hs2 & Hi2 & ->).
    intros H; inversion H; subst.
    split; [exact (all_sent_trans _ _ _ _ Hs1 Hs2)|].
    split; [constructor; assumption | apply skipn_tl].
Qed.

(** X15: [push_local_data] pushes the node's own data to the best server
    only.  Without a best server it returns -1 and does nothing.  With one
    it returns 0; every datagram it hands to [send_alfred_packet] or to
    [sendto] goes to the address of the best server and carries only
    datasets of the store whose provenance is SOURCE_LOCAL or better; one
    random id is drawn for every interface, and an interface has at most
    its sockets set to -1. *)
Theorem push_local_data_to_best_server (best_server : option server)
    (ifaces : list interface) (e : environ) (ids : list Z) :
  let '(r, ifaces', e', ids') :=
    push_local_data g best_server ifaces e ids in
  match best_server with
  | None => r = -1 /\ ifaces' = ifaces /\ e' = e /\ ids' = ids
  | Some best =>
      r = 0
      /\ all_sent (fun dest p _ =>
                     dest = address best
                     /\ Forall (known_as g SOURCE_LOCAL) (pkt_records p))
                  e e'
      /\ Forall2 sockets_only ifaces ifaces'
      /\ ids' = skipn (length ifaces) ids
  end.
Proof.
  unfold push_local_data. destruct best_server as [best|]; [|auto].
  destruct (push_local_data_loop g best ifaces e ids)
    as [[ifaces' e'] ids'] eqn:H.
  apply push_local_data_loop_sent in H. split; [reflexivity | exact H].
Qed.
End Triggers.

(** ** From the sender's buffer to the receiver's store *)

Lemma be16_value (z : Z) :
  0 <= z < 65536 -> (z / 256 mod 256) mod 256 * 256 + (z mod 256) mod 256 = z.
Proof.
  intros Hz. rewrite !Z.mod_mod by lia.
  assert (0 <= z / 256 < 256)
    by (split; [apply Z.div_pos; lia | apply Z.div_lt_upper_bound; lia]).
  rewrite (Z.mod_small (z / 256)) by assumption.
  pose proof (Z.div_mod z 256). lia.
Qed.

Lemma dataset_bytes_length (d : dataset) :
  record_ready d ->
  length (dataset_bytes d)
  = Z.to_nat (sizeof_data + tlv_length (header (data d))).
Proof.
  intros (Hs & _ & _ & Hl & payload & Hb & Hp).
  unfold dataset_bytes. rewrite Hb, !length_app, Hs.
  rewrite firstn_all2 by lia.
  cbn [length be16]. unfold sizeof_data, ETH_ALEN, sizeof_tlv. lia.
Qed.

Section RoundTrip.
Context {P : Platform}.

Lemma dataset_bytes_read (d : dataset) (rest : bytes) (payload : bytes) :
  record_ready d -> buf d = Some payload ->
  data_key (read_data (dataset_bytes d ++ rest)) = data_key (data d)
  /\ get_u8 (dataset_bytes d ++ rest) off_data_version
     = tlv_version (header (data d))
  /\ get_u16 (dataset_bytes d ++ rest) off_data_length
     = tlv_length (header (data d))
  /\ read_payload (dataset_bytes d ++ rest) (tlv_length (header (data d)))
     = payload
  /\ skipn (Z.to_nat (sizeof_data + tlv_length (header (data d))))
           (dataset_bytes d ++ rest) = rest.
Proof.
  intros Hready Hbuf.
  pose proof (dataset_bytes_length d Hready) as Hlen.
  destruct Hready as (Hs & Ht & Hv & Hl & payload' & Hb & Hp).
  rewrite Hbuf in Hb. injection Hb as <-.
  split; [|split; [|split; [|split]]].
  - unfold dataset_bytes, data_key, read_data.
    cbn [source header tlv_type].
    destruct (source (data d)) as [|s0 [|s1 [|s2 [|s3 [|s4 [|s5 [|]]]]]]];
      try discriminate.
    cbn [app]. change (Z.to_nat ETH_ALEN) with 6%nat. cbn [firstn].
    unfold get_u8, off_data_type. cbn [nth].
    rewrite Z.mod_small by assumption. reflexivity.
  - unfold dataset_bytes.
    destruct (source (data d)) as [|s0 [|s1 [|s2 [|s3 [|s4 [|s5 [|]]]]]]];
      try discriminate.
    cbn [app]. unfold get_u8, off_data_version. cbn [nth].
    apply Z.mod_small. assumption.
  - unfold dataset_bytes.
    destruct (source (data d)) as [|s0 [|s1 [|s2 [|s3 [|s4 [|s5 [|]]]]]]];
      try discriminate.
    cbn [app be16]. unfold get_u16, get_u8, off_data_length. cbn [nth].
    apply be16_value. assumption.
  - unfold dataset_bytes, read_payload. rewrite Hbuf.
    destruct (source (data d)) as [|s0 [|s1 [|s2 [|s3 [|s4 [|s5 [|]]]]]]];
      try discriminate.
    cbn [app be16]. unfold off_data_data. cbn [skipn].
    assert (Hn : Z.to_nat (tlv_length (header (data d))) = length payload)
      by lia.
    rewrite Hn, firstn_all, firstn_app, firstn_all, Nat.sub_diag.
    cbn [firstn]. apply app_nil_r.
  - rewrite <- Hlen. rewrite skipn_app, skipn_all, Nat.sub_diag.
    reflexivity.
Qed.

Lemma records_size_ready (ds : list dataset) :
  Forall record_ready ds -> Forall length_in_range ds.
Proof.
  apply Forall_impl. intros d (_ & _ & _ & Hl & _). exact Hl.
Qed.

Lemma carried_loop_record_bytes (ds : list dataset) :
  forall fuel : nat,
  Forall record_ready ds ->
  (Z.to_nat (records_size ds) <= fuel)%nat ->
  carried_loop fuel (flat_map dataset_bytes ds) (records_size ds)
  = record_positions ds.
Proof.
  induction ds as [|d ds IH]; intros fuel Hready Hfuel.
  - destruct fuel; reflexivity.
  - inversion Hready as [|? ? Hd Hds]; subst.
    pose proof (records_size_nonneg ds (records_size_ready ds Hds)) as Hnn.
    destruct Hd as (Hs & Ht & Hv & Hl & payload & Hb & Hp).
    assert (Hd : record_ready d)
      by (repeat split; try assumption; try lia; exists payload; auto).
    destruct (dataset_bytes_read d (flat_map dataset_bytes ds) payload Hd Hb)
      as (_ & _ & Hlen & _ & Hskip).
    cbn [records_size fold_right flat_map record_positions] in *.
    fold (records_size ds) in *. unfold record_size in *.
    assert (Hsz : sizeof_data = 10) by reflexivity.
    destruct fuel as [|fuel]; [lia|].
    cbn [carried_loop]. rewrite Hlen.
    destruct (_ <? sizeof_data) eqn:H1; [apply Z.ltb_lt in H1; lia|].
    destruct (_ >? _) eqn:H2;
      [rewrite Z.gtb_ltb in H2; apply Z.ltb_lt in H2; lia|].
    rewrite Hskip. f_equal.
    replace (tlv_length (header (data d)) + sizeof_data + records_size ds
             - (sizeof_data + tlv_length (header (data d))))
      with (records_size ds) by lia.
    apply IH; [assumption | lia].
Qed.

Lemma record_positions_app (l1 l2 : list dataset) :
  exists before,
    record_positions (l1 ++ l2) = before ++ record_positions l2.
Proof.
  induction l1 as [|d l1 [before IH]].
  - exists []. reflexivity.
  - cbn [app record_positions]. rewrite IH.
    eexists (_ :: before). reflexivity.
Qed.

Lemma record_positions_key (ds : list dataset) (r : bytes * Z) :
  Forall record_ready ds -> In r (record_positions ds) ->
  exists d, In d ds /\ record_key r = data_key (data d).
Proof.
  induction 1 as [|d ds Hd Hds IH]; cbn [record_positions]; [intros []|].
  intros [<-|Hin].
  - exists d. split; [left; reflexivity|].
    destruct Hd as (Hs & Ht & Hv & Hl & payload & Hb & Hp).
    assert (Hd : record_ready d)
      by (repeat split; try assumption; try lia; exists payload; auto).
    unfold record_key. cbn [fst].
    apply (dataset_bytes_read d _ payload Hd Hb).
  - destruct (IH Hin) as (d' & Hin' & Hk). exists d'. split; [right|]; auto.
Qed.

(** X16: what [push_data] writes, [finish_alfred_push_data] reads back.
    Take a PUSH_DATA datagram as [push_data] lays it out: the header, the
    transaction fields and the records of datasets with distinct keys, the
    length field covering them exactly.  A receiver that can allocate, whose
    stored datasets have a buffer as long as their length field and that
    holds no LOCAL entry under these keys merges all of it and returns 0,
    and then holds every dataset of the datagram under its key, with the
    payload, length and version that were sent, marked SOURCE_FIRST_HAND
    when the sender is the source of the dataset and SOURCE_SYNCED
    otherwise. *)
Theorem pushed_datagram_is_merged_as_sent (g : globals) (e : environ)
    (mac : ether_addr) (type_byte : Z) (p : packet) :
  pkt_length p = sizeof_push - sizeof_tlv + records_size (pkt_records p) ->
  pkt_length p < 65536 ->
  Forall record_ready (pkt_records p) ->
  NoDup (map (fun d => data_key (data d)) (pkt_records p)) ->
  allocations_succeed e ->
  Forall buffer_matches (data_hash g) ->
  (forall d x, In d (pkt_records p) ->
               hash_find (same_data (data d)) (data_hash g) = Some x ->
               data_source x <> SOURCE_LOCAL) ->
  exists g' e',
    finish_alfred_push_data g e mac (packet_bytes type_byte p) = (0, g', e')
    /\ forall d, In d (pkt_records p) ->
       exists x,
         hash_find (same_data (data d)) (data_hash g') = Some x
         /\ data_key (data x) = data_key (data d)
         /\ buf x = buf d
         /\ tlv_length (header (data x)) = tlv_length (header (data d))
         /\ tlv_version (header (data x)) = tlv_version (header (data d))
         /\ data_source x
            = if ether_addr_eqb mac (source (data d))
              then SOURCE_FIRST_HAND else SOURCE_SYNCED.
Proof.
  intros Hlen Hmax Hready Hnd Halloc _ Hlocal.
  pose proof (records_size_nonneg _ (records_size_ready _ Hready)) as Hnn.
  assert (Hfield : get_u16 (packet_bytes type_byte p) off_length
                   = pkt_length p).
  { unfold packet_bytes, get_u16, get_u8, off_length. cbn [app be16 nth].
    apply be16_value.
    unfold sizeof_push, sizeof_tlv, sizeof_transaction_mgmt in Hlen. lia. }
  assert (Harea : skipn off_push_data (packet_bytes type_byte p)
                  = flat_map dataset_bytes (pkt_records p)) by reflexivity.
  unfold finish_alfred_push_data. rewrite Hfield, Harea.
  destruct (pkt_length p <? sizeof_push - sizeof_tlv) eqn:Hshort;
    [apply Z.ltb_lt in Hshort; lia|].
  replace (pkt_length p - (sizeof_push - sizeof_tlv))
    with (records_size (pkt_records p)) by lia.
  rewrite finish_alfred_push_data_loop_merge_all by assumption.
  rewrite carried_loop_record_bytes by (assumption || lia).
  eexists _, _. split; [reflexivity|].
  intros d Hin.
  destruct (in_split _ _ Hin) as (l1 & l2 & Hsplit).
  rewrite Hsplit in Hnd, Hready |- *.
  destruct (record_positions_app l1 (d :: l2)) as [before ->].
  cbn [record_positions].
  set (r := (dataset_bytes d ++ flat_map dataset_bytes l2,
             tlv_length (header (data d)))).
  apply Forall_app in Hready as [_ Hready2].
  inversion Hready2 as [|? ? Hd Hready3]; subst.
  destruct Hd as (Hs & Ht & Hv & Hl & payload & Hb & Hp).
  assert (Hd : record_ready d)
    by (repeat split; try assumption; try lia; exists payload; auto).
  destruct (dataset_bytes_read d (flat_map dataset_bytes l2) payload Hd Hb)
    as (Hkey & Hver & _ & Hpay & _).
  assert (Hsame : forall h,
            hash_find (same_data (read_data (fst r))) h
            = hash_find (same_data (data d)) h)
    by (intros h; apply hash_find_same_key; exact Hkey).
  assert (Hno : no_local_entry (data_hash g) r).
  { intros x Hx. rewrite Hsame in Hx.
    apply (Hlocal d x); [|exact Hx].
    rewrite Hsplit. apply in_or_app. right. left. reflexivity. }
  assert (Hothers : forall r', In r' (record_positions l2) ->
                               record_key r' <> record_key r).
  { intros r' Hr'.
    destruct (record_positions_key l2 r' Hready3 Hr') as (d' & Hin' & ->).
    unfold record_key. cbn [fst r]. rewrite Hkey.
    rewrite map_app in Hnd. apply NoDup_app_remove_l in Hnd.
    cbn [map] in Hnd. inversion Hnd as [|? ? Hnotin _]; subst.
    intros Heq. apply Hnotin. rewrite <- Heq.
    apply in_map_iff. exists d'. auto. }
  destruct (merge_all_last mac before (record_positions l2) r g e Halloc Hno
              Hothers) as (x & Hfind & Hbuf & Hxlen & Hxver & Hsrc).
  exists x. rewrite <- Hsame. split; [exact Hfind|].
  split.
  { apply hash_find_same in Hfind. apply same_data_iff in Hfind.
    rewrite Hfind. exact Hkey. }
  cbn [fst snd r] in Hbuf, Hxlen, Hxver, Hsrc.
  rewrite Hpay in Hbuf. rewrite Hver in Hxver.
  split; [congruence|]. split; [exact Hxlen|]. split; [exact Hxver|].
  assert (Hsource : source (read_data (dataset_bytes d
                                       ++ flat_map dataset_bytes l2))
                    = source (data d)) by exact (f_equal fst Hkey).
  rewrite Hsrc, Hsource. reflexivity.
Qed.
End RoundTrip.

(** ** Buffers as long as their length field *)

Lemma hash_set_app_None {A : Type} (same : A -> bool) (h : list A)
    (x v : A) :
  hash_find same h = None -> same x = true ->
  hash_set same (h ++ [x]) v = h ++ [v].
Proof.
  unfold hash_find. induction h as [|y h IH]; cbn [find app hash_set].
  - intros _ ->. reflexivity.
  - destruct (same y); [discriminate|]. intros Hn Hx.
    rewrite IH by assumption. reflexivity.
Qed.

Lemma skipn_length_le (pos : bytes) (k : nat) (len : Z) :
  len <= Z.of_nat (length pos) ->
  len - Z.of_nat k <= Z.of_nat (length (skipn k pos)).
Proof. rewrite length_skipn. lia. Qed.

Section BuffersInOrder.
Context {P : Platform}.
Variable transaction_finished : transaction_head -> bool.

Lemma read_payload_length (pos : bytes) (n : Z) :
  0 <= n -> sizeof_data + n <= Z.of_nat (length pos) ->
  Z.of_nat (length (read_payload pos n)) = n.
Proof.
  intros Hn Hroom. unfold read_payload.
  rewrite length_firstn, length_skipn.
  unfold off_data_data, sizeof_data, ETH_ALEN, sizeof_tlv in *. lia.
Qed.

Lemma merge_record_matches (mac : ether_addr) (pos : bytes) (data_len : Z)
    (g : globals) (e : environ) :
  allocations_succeed e ->
  Forall buffer_matches (data_hash g) ->
  has_room (pos, data_len) ->
  Forall buffer_matches
         (data_hash (snd (fst (merge_record mac pos data_len g e)))).
Proof.
  intros Ha Hg [Hn Hroom]. cbn [fst snd] in Hn, Hroom.
  pose proof (read_payload_length pos data_len Hn Hroom) as Hlen.
  unfold merge_record, find_or_create, hash_add.
  destruct (hash_find (same_data (read_data pos)) (data_hash g))
    as [ds|] eqn:Hfind.
  - destruct (data_source_eqb (data_source ds) SOURCE_LOCAL);
      [exact Hg|].
    match goal with
    | |- context [malloc ?x] =>
        assert (Hx : allocations_succeed x)
          by (destruct (_ || _); auto using emit_allocations);
        destruct (malloc_succeeds x Hx) as (e3 & -> & _)
    end.
    cbn [negb fst snd data_hash set_data_hash].
    apply hash_set_Forall; [exact Hg|].
    eexists. split; [reflexivity | exact Hlen].
  - destruct (malloc_succeeds e Ha) as (e1 & -> & Ha1 & _). cbn [negb].
    destruct (malloc_succeeds e1 Ha1) as (e2 & -> & Ha2 & _).
    cbn [data_source data_source_eqb].
    match goal with
    | |- context [malloc ?x] =>
        assert (Hx : allocations_succeed x)
          by (destruct (_ || _); auto using emit_allocations);
        destruct (malloc_succeeds x Hx) as (e3 & -> & _)
    end.
    cbn [negb fst snd data_hash set_data_hash].
    rewrite hash_set_app_None;
      [|exact Hfind | apply same_data_iff; reflexivity].
    apply Forall_app. split; [exact Hg|].
    constructor; [|constructor].
    eexists. split; [reflexivity | exact Hlen].
Qed.

Lemma merge_all_matches (mac : ether_addr) (l : list (bytes * Z)) :
  forall (g : globals) (e : environ),
  allocations_succeed e ->
  Forall buffer_matches (data_hash g) ->
  Forall has_room l ->
  Forall buffer_matches (data_hash (fst (merge_all mac l g e))).
Proof.
  induction l as [|[pos n] l IH]; intros g e Ha Hg Hl; cbn [merge_all];
    [exact Hg|].
  inversion Hl as [|? ? Hr Hl']; subst.
  pose proof (merge_record_matches mac pos n g e Ha Hg Hr) as Hm.
  destruct (merge_record_succeeds mac pos n g e Ha)
    as (g1 & e1 & Heq & Ha1 & _).
  rewrite Heq in Hm |- *. cbn [fst snd] in Hm.
  apply IH; assumption.
Qed.

Lemma carried_has_room (push : bytes) :
  fragment_whole push -> Forall has_room (carried push).
Proof.
  intros Hw. apply Forall_forall. intros r Hin.
  unfold carried in Hin.
  destruct (get_u16 push off_length <? sizeof_push - sizeof_tlv) eqn:Hl;
    [destruct Hin|].
  apply Z.ltb_ge in Hl.
  apply carried_loop_within in Hin as (k & Hk & Hn & Hb).
  pose proof (get_u16_range (fst r) off_data_length) as Hr.
  split; [lia|].
  rewrite Hk, !length_skipn.
  unfold fragment_whole in Hw.
  unfold sizeof_push, sizeof_tlv, sizeof_transaction_mgmt, off_push_data,
    sizeof_data, ETH_ALEN in *.
  lia.
Qed.

Lemma deliver_matches (mac : ether_addr) (l : list bytes) (g : globals)
    (e : environ) :
  allocations_succeed e ->
  Forall buffer_matches (data_hash g) ->
  Forall fragment_whole l ->
  Forall buffer_matches (data_hash (fst (deliver l mac g e))).
Proof.
  intros Ha Hg Hl. rewrite deliver_merge_all by assumption.
  apply merge_all_matches; [assumption | assumption|].
  apply Forall_flat_map. eapply Forall_impl; [|exact Hl].
  intros push. apply carried_has_room.
Qed.

Lemma finish_alfred_transaction_in_order (g g' : globals) (e e' : environ)
    (head : transaction_head) (mac : ether_addr) (r : Z) :
  buffers_in_order g -> allocations_succeed e ->
  Forall fragment_whole (packet_list head) ->
  finish_alfred_transaction transaction_finished g e head mac = (r, g', e') ->
  buffers_in_order g'.
Proof.
  intros [Hg Ht] Ha Hl H.
  destruct (transaction_finished head) eqn:Hfin.
  - destruct (finish_alfred_transaction_done transaction_finished g e head mac
                Hfin) as (e2 & Heq & _).
    rewrite Heq in H. inversion H; subst. split.
    + cbn [data_hash set_transaction_hash]. apply deliver_matches; assumption.
    + cbn [transaction_hash set_transaction_hash].
      rewrite deliver_transaction_hash.
      apply hash_remove_Forall. exact Ht.
  - rewrite (finish_alfred_transaction_pending transaction_finished g e head
               mac Hfin) in H.
    inversion H; subst. split; assumption.
Qed.

Lemma find_or_add_transaction_in_order (g g1 : globals) (e e1 : environ)
    (mac : ether_addr) (tx_id : Z) (may_create : bool)
    (head : transaction_head) :
  buffers_in_order g -> allocations_succeed e ->
  find_or_add_transaction g e mac tx_id may_create = (Some head, g1, e1) ->
  buffers_in_order g1 /\ allocations_succeed e1
  /\ Forall fragment_whole (packet_list head)
  /\ hash_find (same_transaction mac tx_id) (transaction_hash g1) = Some head.
Proof.
  intros [Hg Ht] Ha H. unfold find_or_add_transaction in H.
  destruct (hash_find (same_transaction mac tx_id) (transaction_hash g))
    as [h|] eqn:Hfind.
  - inversion H; subst. repeat split; try assumption.
    apply find_some in Hfind as [Hin _].
    unfold fragments_whole in Ht. rewrite Forall_forall in Ht.
    apply Ht. exact Hin.
  - assert (Hadd : transaction_add g e mac tx_id = (Some head, g1, e1)).
    { destruct (opmode g); try discriminate.
      destruct may_create; [exact H | discriminate]. }
    destruct (transaction_add_succeeds g e mac tx_id Ha)
      as (head' & e' & Heq & Ha' & Hs & Hi & _ & _ & Hp).
    rewrite Heq in Hadd. inversion Hadd; subst.
    split; [split|].
    + exact Hg.
    + cbn [transaction_hash set_transaction_hash].
      apply Forall_app. split; [exact Ht|].
      constructor; [rewrite Hp; constructor | constructor].
    + split; [exact Ha'|]. split; [rewrite Hp; constructor|].
      cbn [transaction_hash set_transaction_hash].
      apply hash_find_app_None; [exact Hfind|].
      apply same_transaction_eq. auto.
Qed.

Lemma write_head_in_order (g : globals) (mac : ether_addr) (tx_id : Z)
    (head : transaction_head) :
  buffers_in_order g -> Forall fragment_whole (packet_list head) ->
  buffers_in_order (write_head g mac tx_id head).
Proof.
  intros [Hg Ht] Hl. split; [exact Hg|].
  cbn [write_head transaction_hash set_transaction_hash].
  apply hash_set_Forall; assumption.
Qed.

Lemma fragment_copy_whole (push : bytes) :
  fragment_whole push ->
  fragment_whole
    (firstn (Z.to_nat (get_u16 push off_length + sizeof_tlv)) push).
Proof.
  unfold fragment_whole. intros Hw.
  pose proof (get_u16_range push off_length) as Hr.
  rewrite get_u16_firstn
    by (assert (off_length = 2%nat) by reflexivity;
        unfold sizeof_tlv; lia).
  rewrite length_firstn. lia.
Qed.

Lemma process_alfred_push_data_in_order (g g' : globals) (iface : interface)
    (e e' : environ) (source : alfred_addr) (push : bytes) (r : Z) :
  buffers_in_order g -> allocations_succeed e -> fragment_whole push ->
  process_alfred_push_data transaction_finished g iface e source push
  = (r, g', e') ->
  buffers_in_order g'.
Proof.
  intros Hg Ha Hw H. unfold process_alfred_push_data in H.
  destruct (resolve_mac g iface source) as [mac|];
    [|inversion H; subst; exact Hg].
  destruct (_ <? _); [inversion H; subst; exact Hg|].
  destruct (find_or_add_transaction _ _ _ _ _) as [[[head|] g1] e1] eqn:Hf.
  - apply (find_or_add_transaction_in_order _ _ _ _ _ _ _ _ Hg Ha) in Hf
      as (Hg1 & Ha1 & Hl & _).
    pose proof (write_head_in_order g1 mac (get_u16 push off_tx_id)
                  (set_last_rx_time head (clock e1)) Hg1 Hl) as Hg2.
    destruct (existsb _ _); [inversion H; subst; exact Hg2|].
    destruct (malloc_succeeds e1 Ha1) as (e2 & Hm1 & Ha2 & _).
    rewrite Hm1 in H. cbn [negb] in H.
    destruct (malloc_succeeds e2 Ha2) as (e3 & Hm2 & Ha3 & _).
    rewrite Hm2 in H. cbn [negb] in H.
    assert (Hl2 : Forall fragment_whole
                    (packet_list (set_last_rx_time head (clock e1))
                     ++ [firstn (Z.to_nat (get_u16 push off_length
                                           + sizeof_tlv)) push])).
    { apply Forall_app. split; [exact Hl|].
      constructor; [apply fragment_copy_whole; exact Hw | constructor]. }
    destruct (finish_alfred_transaction _ _ e3 _ mac) as [[r4 g4] e4]
      eqn:Hfin.
    inversion H; subst.
    eapply finish_alfred_transaction_in_order; [| exact Ha3 | | exact Hfin].
    + apply write_head_in_order; [exact Hg2 | exact Hl2].
    + exact Hl2.
  - assert (Hsame : g1 = g).
    { unfold find_or_add_transaction in Hf.
      destruct (hash_find _ _); [discriminate|].
      destruct (opmode g); try (inversion Hf; reflexivity).
      destruct (transaction_add_succeeds g e mac (get_u16 push off_tx_id) Ha)
        as (head' & e'' & Heq & _).
      rewrite Heq in Hf. discriminate. }
    inversion H; subst. exact Hg.
Qed.

Lemma process_alfred_status_txend_in_order (g g' : globals)
    (iface : interface) (e e' : environ) (source : alfred_addr)
    (request : bytes) (r : Z) :
  buffers_in_order g -> allocations_succeed e ->
  process_alfred_status_txend transaction_finished g iface e source request
  = (r, g', e') ->
  buffers_in_order g'.
Proof.
  intros Hg Ha H. unfold process_alfred_status_txend in H.
  destruct (negb _); [inversion H; subst; exact Hg|].
  destruct (_ <? _); [inversion H; subst; exact Hg|].
  destruct (resolve_mac g iface source) as [mac|];
    [|inversion H; subst; exact Hg].
  destruct (find_or_add_transaction _ _ _ _ _) as [[[head|] g1] e1] eqn:Hf.
  - apply (find_or_add_transaction_in_order _ _ _ _ _ _ _ _ Hg Ha) in Hf
      as (Hg1 & Ha1 & Hl & _).
    destruct (finish_alfred_transaction _ _ e1 _ mac) as [[r3 g3] e3]
      eqn:Hfin.
    inversion H; subst.
    eapply finish_alfred_transaction_in_order; [| exact Ha1 | | exact Hfin].
    + apply write_head_in_order; [exact Hg1 | exact Hl].
    + exact Hl.
  - assert (Hsame : g1 = g).
    { unfold find_or_add_transaction in Hf.
      destruct (hash_find _ _); [discriminate|].
      destruct (opmode g); try (inversion Hf; reflexivity).
      destruct (negb (get_u16 request off_tx_seqno =? 0));
        [|inversion Hf; reflexivity].
      destruct (transaction_add_succeeds g e mac
                  (get_u16 request off_tx_id) Ha)
        as (head' & e'' & Heq & _).
      rewrite Heq in Hf. discriminate. }
    inversion H; subst. exact Hg.
Qed.

Lemma recv_alfred_packet_in_order (g g' : globals)
    (iface iface' : interface) (e e' : environ) (source : alfred_addr)
    (buf : bytes) (len r : Z) :
  buffers_in_order g -> allocations_succeed e ->
  len <= Z.of_nat (length buf) ->
  recv_alfred_packet transaction_finished g iface e source buf len
  = (r, g', iface', e') ->
  buffers_in_order g'.
Proof.
  intros Hg Ha Hlen H. unfold recv_alfred_packet in H.
  destruct (recv_dropped g iface source buf len) eqn:Hdrop;
    [inversion H; subst; exact Hg|].
  assert (Hw : fragment_whole buf).
  { unfold recv_dropped in Hdrop.
    repeat (apply orb_false_iff in Hdrop as [Hdrop ?]).
    match goal with
    | Hx : (len <? get_u16 buf off_length + sizeof_tlv) = false |- _ =>
        apply Z.ltb_ge in Hx; unfold fragment_whole; lia
    end. }
  destruct (packet_type_of _) as [[| | |]|].
  - destruct (process_alfred_push_data _ _ _ _ _ _) as [[r1 g1] e1] eqn:Hp.
    inversion H; subst.
    eapply process_alfred_push_data_in_order; eassumption.
  - destruct (process_alfred_announce_master _ _ _ _ _) as [[r1 i1] e1].
    inversion H; subst. exact Hg.
  - destruct (process_alfred_request _ _ _ _ _) as [[r1 i1] e1].
    inversion H; subst. exact Hg.
  - destruct (process_alfred_status_txend _ _ _ _ _ _) as [[r1 g1] e1]
      eqn:Hp.
    inversion H; subst.
    eapply process_alfred_status_txend_in_order; eassumption.
  - inversion H; subst. exact Hg.
Qed.

(** X17: while memory lasts, every stored buffer is as long as its length
    field.  Let every dataset of the store have a buffer of the length its
    header gives and every stored fragment hold the bytes its length field
    announces.  Then the same holds after any sequence of datagrams each of
    which finds memory for its allocations, [recvfrom] reporting no more
    bytes than it wrote: the copy that [push_data] later makes of
    [header.length] bytes of a buffer stays inside the buffer. *)
Theorem stored_buffers_match_their_length (l : list arrival) :
  forall (g : globals) (iface : interface),
  buffers_in_order g ->
  Forall arrival_in_order l ->
  buffers_in_order (fst (recv_packets transaction_finished l g iface)).
Proof.
  induction l as [|a l IH]; intros g iface Hg Hl; cbn [recv_packets fst];
    [exact Hg|].
  inversion Hl as [|? ? [Ha Hlen] Hl']; subst.
  destruct (recv_alfred_packet _ g iface _ _ _ _) as [[[r g1] i1] e1] eqn:Hr.
  apply IH; [|exact Hl'].
  eapply recv_alfred_packet_in_order; eassumption.
Qed.
End BuffersInOrder.

(** ** Merging a record again *)

Lemma hash_set_same {A : Type} (same : A -> bool) (h : list A) (v : A) :
  hash_find same h = Some v -> hash_set same h v = h.
Proof.
  unfold hash_find. induction h as [|y h IH]; cbn [find hash_set];
    [discriminate|].
  destruct (same y).
  - intros Hf. injection Hf as ->. reflexivity.
  - intros Hf. rewrite IH by assumption. reflexivity.
Qed.

Lemma set_data_hash_same (g : globals) : set_data_hash g (data_hash g) = g.
Proof. destruct g. reflexivity. Qed.

Section MergeAgain.
Context {P : Platform}.

Lemma merge_record_writes (mac : ether_addr) (pos : bytes) (data_len : Z)
    (g : globals) (e : environ) :
  allocations_succeed e ->
  exists g1 e1,
    merge_record mac pos data_len g e = (true, g1, e1)
    /\ allocations_succeed e1
    /\ clock e1 = clock e
    /\ ((g1 = g /\ e1 = e
         /\ exists ds,
              hash_find (same_data (read_data pos)) (data_hash g) = Some ds
              /\ data_source ds = SOURCE_LOCAL)
        \/ exists v,
             hash_find (same_data (read_data pos)) (data_hash g1) = Some v
             /\ buf v = Some (read_payload pos data_len)
             /\ tlv_length (header (data v)) = data_len
             /\ tlv_version (header (data v)) = get_u8 pos off_data_version
             /\ data_source v
                = (if ether_addr_eqb mac (source (read_data pos))
                   then SOURCE_FIRST_HAND else SOURCE_SYNCED)
             /\ last_seen v = clock e).
Proof.
  intros Ha. unfold merge_record, find_or_create, hash_add.
  destruct (hash_find (same_data (read_data pos)) (data_hash g))
    as [ds|] eqn:Hfind.
  - destruct (data_source_eqb (data_source ds) SOURCE_LOCAL) eqn:Hloc.
    { exists g, e. split; [reflexivity|]. split; [exact Ha|].
      split; [reflexivity|]. left. split; [reflexivity|].
      split; [reflexivity|]. exists ds. split; [reflexivity|].
      destruct (data_source ds); (reflexivity || discriminate). }
    match goal with
    | |- context [malloc ?x] =>
        assert (Hx : allocations_succeed x)
          by (destruct (_ || _); auto using emit_allocations);
        assert (Hcx : clock x = clock e)
          by (destruct (_ || _); reflexivity);
        destruct (malloc_succeeds x Hx) as (e3 & -> & Ha3 & _ & Hc3)
    end.
    cbn [negb]. eexists _, e3. split; [reflexivity|].
    split; [exact Ha3|]. split; [congruence|]. right.
    eexists. cbn [data_hash set_data_hash]. split.
    + apply (hash_set_find _ _ ds); [exact Hfind|].
      pose proof (hash_find_same _ _ _ Hfind) as Hs.
      unfold same_data in *. exact Hs.
    + cbn. repeat split; reflexivity.
  - destruct (malloc_succeeds e Ha) as (e1 & -> & Ha1 & _ & Hc1).
    cbn [negb].
    destruct (malloc_succeeds e1 Ha1) as (e2 & -> & Ha2 & _ & Hc2).
    cbn [data_source data_source_eqb].
    match goal with
    | |- context [malloc ?x] =>
        assert (Hx : allocations_succeed x)
          by (destruct (_ || _); auto using emit_allocations);
        assert (Hcx : clock x = clock e2)
          by (destruct (_ || _); reflexivity);
        destruct (malloc_succeeds x Hx) as (e3 & -> & Ha3 & _ & Hc3)
    end.
    cbn [negb]. eexists _, e3. split; [reflexivity|].
    split; [exact Ha3|]. split; [congruence|]. right.
    eexists. cbn [data_hash set_data_hash]. split.
    + rewrite hash_set_app_None;
        [|exact Hfind | apply same_data_iff; reflexivity].
      apply hash_find_app_None; [exact Hfind|].
      apply same_data_iff. reflexivity.
    + cbn. repeat split; try reflexivity. congruence.
Qed.

(** X18: merging a record a second time changes nothing but the time it
    was seen.  Take a store whose entries have a buffer as long as their
    length field and a record that lies within its buffer, and let memory
    be at hand.  The merge of the record succeeds; merged again in a later
    run, whatever the clock reads then, the record raises no "changed"
    signal and leaves the modes, the transaction table and every entry of
    the store as the first merge left them, but for [last_seen] of the
    record's entry, which is the time of the second run; an entry of
    provenance LOCAL is not touched at all. *)
Theorem merge_record_idempotent (mac : ether_addr) (pos : bytes)
    (data_len : Z) (g : globals) (e later : environ) :
  allocations_succeed e -> allocations_succeed later ->
  Forall buffer_matches (data_hash g) ->
  has_room (pos, data_len) ->
  exists g1 e1 g2 e2 v,
    merge_record mac pos data_len g e = (true, g1, e1)
    /\ merge_record mac pos data_len g1 later = (true, g2, e2)
    /\ trace e2 = trace later
    /\ opmode g2 = opmode g1
    /\ ipv4mode g2 = ipv4mode g1
    /\ transaction_hash g2 = transaction_hash g1
    /\ hash_find (same_data (read_data pos)) (data_hash g1) = Some v
    /\ data_hash g2
       = if data_source_eqb (data_source v) SOURCE_LOCAL
         then data_hash g1
         else hash_set (same_data (read_data pos)) (data_hash g1)
                       (seen_at v (clock later)).
Proof.
  intros Ha Hl _ _.
  destruct (merge_record_writes mac pos data_len g e Ha)
    as (g1 & e1 & Hm & Ha1 & Hc1 & Hcase).
  exists g1, e1.
  destruct Hcase as [(-> & -> & ds & Hfind & Hloc)
                    |(v & Hfind & Hbuf & Hlen & Hver & Hsrc & Hseen)].
  - exists g, later, ds. split; [exact Hm|].
    split; [apply (merge_record_local mac pos data_len g later ds Hfind Hloc)|].
    repeat split; try reflexivity; try assumption.
    rewrite Hloc. reflexivity.
  - assert (Hnl : data_source_eqb (data_source v) SOURCE_LOCAL = false)
      by (rewrite Hsrc; destruct (ether_addr_eqb _ _); reflexivity).
    destruct (malloc_succeeds later Hl) as (e2 & Hmal & _ & Ht2 & _).
    eexists _, e2, v. split; [exact Hm|]. split.
    + unfold merge_record, find_or_create.
      rewrite Hfind, Hnl, Hbuf, Hlen, Z.eqb_refl. cbn [orb negb memcmp_ne].
      rewrite read_payload_firstn, bytes_eqb_refl. cbn [negb].
      rewrite Hmal. cbn [negb]. reflexivity.
    + split; [exact Ht2|]. cbn [opmode ipv4mode transaction_hash data_hash
                               set_data_hash].
      repeat split; try assumption. rewrite Hnl. f_equal.
      change (tlv_version (header (read_data pos)))
        with (get_u8 pos off_data_version).
      rewrite <- Hver, <- Hsrc, <- Hbuf, <- Hlen.
      destruct v as [[src [t ver len]] b s ls]. reflexivity.
Qed.
End MergeAgain.

(** ** The turns of the record loop *)

Lemma carried_loop_count (fuel : nat) :
  forall (pos : bytes) (len : Z),
  0 <= len ->
  sizeof_data * Z.of_nat (length (carried_loop fuel pos len)) <= len.
Proof.
  induction fuel as [|fuel IH]; intros pos len Hlen; cbn [carried_loop].
  - cbn [length]. lia.
  - destruct (len <? sizeof_data) eqn:Hl; [cbn [length]; lia|].
    destruct (_ >? len) eqn:Hd; [cbn [length]; lia|].
    rewrite Z.gtb_ltb in Hd. apply Z.ltb_ge in Hd.
    pose proof (get_u16_range pos off_data_length) as Hr.
    cbn [length].
    specialize (IH (skipn (Z.to_nat (sizeof_data
                                     + get_u16 pos off_data_length)) pos)
                   (len - (sizeof_data + get_u16 pos off_data_length))).
    assert (Hs : sizeof_data = 10) by reflexivity.
    lia.
Qed.

Section Turns.
Context {P : Platform}.

(** X19: the record loop ends after at most a tenth of the record area in
    turns.  The records [finish_alfred_push_data] stops at take ten bytes
    each at least out of the [header.length - 4] bytes of the record area,
    so that one fragment yields at most 6553 merges; and the loop run for
    any number of turns from [header.length] on gives what the function
    gives. *)
Theorem record_loop_turns_bounded (g : globals) (e : environ)
    (mac : ether_addr) (push : bytes) (turns : nat) :
  sizeof_push - sizeof_tlv <= get_u16 push off_length ->
  (Z.to_nat (get_u16 push off_length) <= turns)%nat ->
  sizeof_data * Z.of_nat (length (carried push))
  <= get_u16 push off_length - (sizeof_push - sizeof_tlv)
  /\ Z.of_nat (length (carried push)) <= 6553
  /\ finish_alfred_push_data g e mac push
     = finish_alfred_push_data_loop turns mac (skipn off_push_data push)
         (get_u16 push off_length - (sizeof_push - sizeof_tlv)) g e.
Proof.
  intros Hlen Hturns.
  pose proof (get_u16_range push off_length) as Hr.
  assert (Hcount : sizeof_data * Z.of_nat (length (carried push))
                   <= get_u16 push off_length - (sizeof_push - sizeof_tlv)).
  { unfold carried.
    destruct (_ <? _) eqn:Hl; [apply Z.ltb_lt in Hl; lia|].
    apply carried_loop_count. lia. }
  split; [exact Hcount|]. split.
  - unfold sizeof_data, ETH_ALEN, sizeof_push, sizeof_tlv,
      sizeof_transaction_mgmt in Hcount. lia.
  - unfold finish_alfred_push_data.
    destruct (_ <? _) eqn:Hl; [apply Z.ltb_lt in Hl; lia|].
    apply finish_alfred_push_data_loop_fuel;
      unfold sizeof_push, sizeof_tlv, sizeof_transaction_mgmt in *; lia.
Qed.
End Turns.

(** ** Whom the node answers *)

Lemma quietly_all_sent (ok : alfred_addr -> packet -> Z -> Prop)
    (e e' : environ) :
  quietly e e' -> all_sent ok e e'.
Proof.
  intros (_ & _ & evs & Ht & Hl). exists evs. split; [exact Ht|].
  eapply Forall_impl; [|exact Hl].
  intros [ | | | | ]; cbn; tauto.
Qed.

Section Answers.
Context {P : Platform}.
Variable transaction_finished : transaction_head -> bool.

Lemma process_alfred_request_answer (g : globals) (iface : interface)
    (e : environ) (source : alfred_addr) (request : bytes) :
  all_sent (fun dest p _ =>
              dest = source
              /\ pkt_tx_id p = get_u16 request off_request_tx_id
              /\ Forall (fun d =>
                           known_as g SOURCE_SYNCED d
                           /\ tlv_type (header (data d))
                              = get_u8 request off_requested_type)
                        (pkt_records p))
           e (snd (process_alfred_request g iface e source request)).
Proof.
  unfold process_alfred_request.
  destruct (negb _); [apply all_sent_refl|].
  destruct (_ <? _); [apply all_sent_refl|].
  pose proof (push_data_sent g source SOURCE_SYNCED
                (get_u8 request off_requested_type)
                (get_u16 request off_request_tx_id) iface e) as Hs.
  destruct (push_data _ _ _ _ _ _ _) as [[r1 i1] e1]. cbn [snd] in *.
  eapply all_sent_impl; [|exact Hs].
  cbv beta. intros dest p _ (-> & Htx & Hrec).
  split; [reflexivity|]. split; [exact Htx|].
  eapply Forall_impl; [|exact Hrec].
  intros d [Hin Hpass].
  destruct (passed_over_level _ _ _ Hpass) as [Hlevel Hfilter].
  split; [split; assumption|].
  apply Hfilter. apply get_u8_range.
Qed.

(** X20: the node answers the requester, and no one else.  Whatever
    datagram [recv_alfred_packet] is given, every datagram it hands to
    [send_alfred_packet] or to [sendto] in return goes to the address the
    datagram came from, has the tx_id of the request, and carries only
    datasets of the store that have the requested type and a provenance of
    SOURCE_SYNCED or better; and a datagram that is a request leaves the
    store and the transaction table as they are. *)
Theorem answers_go_to_the_requester (g : globals) (iface : interface)
    (e : environ) (source : alfred_addr) (buf : bytes) (length : Z) :
  let '(_, g', _, e') :=
    recv_alfred_packet transaction_finished g iface e source buf length in
  all_sent (fun dest p _ =>
              dest = source
              /\ pkt_tx_id p = get_u16 buf off_request_tx_id
              /\ Forall (fun d =>
                           known_as g SOURCE_SYNCED d
                           /\ tlv_type (header (data d))
                              = get_u8 buf off_requested_type)
                        (pkt_records p))
           e e'
  /\ (packet_type_of (get_u8 buf off_type) = Some ALFRED_REQUEST -> g' = g).
Proof.
  destruct (recv_alfred_packet transaction_finished g iface e source buf
              length) as [[[r g'] iface'] e'] eqn:H.
  unfold recv_alfred_packet in H.
  destruct (recv_dropped g iface source buf length);
    [inversion H; subst; split; [apply all_sent_refl | reflexivity]|].
  destruct (packet_type_of (get_u8 buf off_type)) as [[| | |]|] eqn:Htype.
  - destruct (process_alfred_push_data _ g iface e source buf)
      as [[r1 g1] e1] eqn:Hp.
    apply process_alfred_push_data_quietly in Hp.
    inversion H; subst. split; [|discriminate].
    apply quietly_all_sent. exact Hp.
  - destruct (process_alfred_announce_master g iface e source buf)
      as [[r1 i1] e1] eqn:Hp.
    apply process_alfred_announce_master_quietly in Hp as [Hp _].
    inversion H; subst. split; [|discriminate].
    apply quietly_all_sent. exact Hp.
  - pose proof (process_alfred_request_answer g iface e source buf) as Hp.
    destruct (process_alfred_request g iface e source buf) as [[r1 i1] e1].
    cbn [snd] in Hp. inversion H; subst. split; [exact Hp | reflexivity].
  - destruct (process_alfred_status_txend _ g iface e source buf)
      as [[r1 g1] e1] eqn:Hp.
    apply process_alfred_status_txend_quietly in Hp.
    inversion H; subst. split; [|discriminate].
    apply quietly_all_sent. exact Hp.
  - inversion H; subst. split; [apply all_sent_refl | discriminate].
Qed.
End Answers.

(** ** The properties at work on concrete data *)

(** A master that knows nothing receives the push of peer A. *)
Lemma transaction_table_invariant_witness :
  let result :=
    recv_alfred_packet (P:=example_platform) transaction_complete
      (master_globals [] []) example_interface example_environ addr_a
      push_one 21 in
  table_ok (transaction_hash (snd (fst (fst result))))
  /\ Forall (fun h => 0 <= num_packet h <= 65536)
            (transaction_hash (snd (fst (fst result)))).
Proof.
  cbv zeta.
  apply (transaction_table_invariant (P:=example_platform)
           transaction_complete (master_globals [] [])
           (snd (fst (fst (recv_alfred_packet (P:=example_platform)
                             transaction_complete (master_globals [] [])
                             example_interface example_environ addr_a
                             push_one 21))))
           example_interface
           (snd (fst (recv_alfred_packet (P:=example_platform)
                        transaction_complete (master_globals [] [])
                        example_interface example_environ addr_a
                        push_one 21)))
           example_environ
           (snd (recv_alfred_packet (P:=example_platform)
                   transaction_complete (master_globals [] [])
                   example_interface example_environ addr_a push_one 21))
           addr_a push_one 21
           (fst (fst (fst (recv_alfred_packet (P:=example_platform)
                             transaction_complete (master_globals [] [])
                             example_interface example_environ addr_a
                             push_one 21))))).
  - split; constructor.
  - vm_compute. reflexivity.
Defined.

(** The push of peer A under the key of a local entry, on a store that
    holds this entry. *)
Lemma store_keys_stay_unique_witness :
  store_unique
    (data_hash
       (fst (recv_packets (P:=example_platform) transaction_complete
               [arrival_over_local] (master_globals [local_entry] [head_a7])
               example_interface))).
Proof.
  apply (store_keys_stay_unique (P:=example_platform) transaction_complete
           [arrival_over_local] (master_globals [local_entry] [head_a7])
           example_interface).
  vm_compute. constructor; [intros H; exact H | constructor].
Defined.

Lemma network_stores_no_local_entry_witness :
  In local_entry
     (data_hash
        (fst (recv_packets (P:=example_platform) transaction_complete
                [arrival_over_local] (master_globals [local_entry] [head_a7])
                example_interface)))
  /\ In local_entry (data_hash (master_globals [local_entry] [head_a7])).
Proof.
  assert (H : In local_entry
                (data_hash
                   (fst (recv_packets (P:=example_platform)
                           transaction_complete [arrival_over_local]
                           (master_globals [local_entry] [head_a7])
                           example_interface))))
    by (vm_compute; left; reflexivity).
  split; [exact H|].
  exact (network_stores_no_local_entry (P:=example_platform)
           transaction_complete [arrival_over_local]
           (master_globals [local_entry] [head_a7]) example_interface
           local_entry H eq_refl).
Defined.

(** A record of a key that the store does not hold raises the signal of
    its type. *)
Lemma changed_signal_tells_change_witness :
  exists g' e',
    merge_record (P:=example_platform) mac_a (record_bytes mac_a 9 0 [1; 2; 3])
      3 (master_globals [] []) example_environ = (true, g', e')
    /\ trace e' = [EvChanged 9].
Proof.
  destruct (changed_signal_tells_change (P:=example_platform) mac_a
              (record_bytes mac_a 9 0 [1; 2; 3]) 3 (master_globals [] [])
              example_environ)
    as (g' & e' & Hm & Ht).
  - reflexivity.
  - intros d Hd. vm_compute in Hd. discriminate Hd.
  - exists g', e'. split; [exact Hm | exact Ht].
Defined.


(** Two bytes behind the announced length change nothing. *)
Lemma merge_reads_announced_bytes_only_witness :
  finish_alfred_push_data (P:=example_platform) (master_globals [] [])
    example_environ mac_a push_one
  = finish_alfred_push_data (P:=example_platform) (master_globals [] [])
      example_environ mac_a push_one_padded.
Proof.
  apply (merge_reads_announced_bytes_only (P:=example_platform)
           (master_globals [] []) example_environ mac_a push_one
           push_one_padded).
  vm_compute. reflexivity.
Defined.

(** Peer A announces itself to a node that does not know it. *)
Lemma announce_refreshes_sender_witness :
  exists iface' e' srv',
    process_alfred_announce_master (P:=example_platform)
      (master_globals [] []) example_interface example_environ addr_a
      announce_bytes = (0, iface', e')
    /\ hash_find (same_server mac_a) (server_hash iface') = Some srv'
    /\ srv_last_seen srv' = 100
    /\ address srv' = addr_a.
Proof.
  destruct (announce_refreshes_sender (P:=example_platform)
              (master_globals [] []) example_interface example_environ
              addr_a announce_bytes mac_a)
    as (iface' & e' & srv' & Hp & _ & _ & _ & Hf & _ & Hseen & Haddr & _).
  - reflexivity.
  - reflexivity.
  - reflexivity.
  - exists iface', e', srv'. repeat split; try assumption.
    exact (proj1 Haddr).
Defined.

(** The push of peer A completes transaction 7 on a master; nothing is
    sent. *)
Lemma only_requests_are_answered_witness :
  quietly example_environ
    (snd (recv_alfred_packet (P:=example_platform) transaction_complete
            (master_globals [] [head_a7]) example_interface example_environ
            addr_a push_one 21)).
Proof.
  apply (only_requests_are_answered (P:=example_platform)
           transaction_complete (master_globals [] [head_a7])
           (snd (fst (fst (recv_alfred_packet (P:=example_platform)
                             transaction_complete
                             (master_globals [] [head_a7])
                             example_interface example_environ addr_a
                             push_one 21))))
           example_interface
           (snd (fst (recv_alfred_packet (P:=example_platform)
                        transaction_complete (master_globals [] [head_a7])
                        example_interface example_environ addr_a
                        push_one 21)))
           example_environ
           (snd (recv_alfred_packet (P:=example_platform)
                   transaction_complete (master_globals [] [head_a7])
                   example_interface example_environ addr_a push_one 21))
           addr_a push_one 21
           (fst (fst (fst (recv_alfred_packet (P:=example_platform)
                             transaction_complete
                             (master_globals [] [head_a7])
                             example_interface example_environ addr_a
                             push_one 21))))).
  - vm_compute. reflexivity.
  - vm_compute. discriminate.
Defined.

(** The terminator of transaction 7 arrives after its one fragment: the
    record leaves the table. *)
Lemma txend_record_after_witness :
  exists head : transaction_head,
    txend_packets head = 1
    /\ packet_list head = [push_one]
    /\ hash_find (same_transaction mac_a 7)
         (transaction_hash
            (snd (fst (process_alfred_status_txend (P:=example_platform)
                         transaction_complete
                         (master_globals [] [head_with_fragment])
                         example_interface example_environ addr_a
                         (txend_bytes 7 1)))))
       = if transaction_complete head then None else Some head.
Proof.
  destruct (txend_record_after (P:=example_platform) transaction_complete
              (master_globals [] [head_with_fragment])
              (snd (fst (process_alfred_status_txend (P:=example_platform)
                           transaction_complete
                           (master_globals [] [head_with_fragment])
                           example_interface example_environ addr_a
                           (txend_bytes 7 1))))
              example_interface example_environ
              (snd (process_alfred_status_txend (P:=example_platform)
                      transaction_complete
                      (master_globals [] [head_with_fragment])
                      example_interface example_environ addr_a
                      (txend_bytes 7 1)))
              addr_a (txend_bytes 7 1) mac_a)
    as (head & _ & _ & Htx & _ & Hold & Hlook).
  - split.
    + vm_compute. constructor; [intros H; exact H | constructor].
    + constructor; [|constructor]. split; [reflexivity|]. split.
      * vm_compute. constructor; [intros H; exact H | constructor].
      * constructor; [|constructor]. vm_compute. discriminate.
  - reflexivity.
  - vm_compute. reflexivity.
  - exists head. split; [exact Htx|]. split; [exact (proj1 Hold)|].
    exact Hlook.
Defined.

(** A master that knows nothing receives the first fragment of a
    transaction. *)
Lemma push_record_after_witness :
  exists head : transaction_head,
    num_packet head = 1
    /\ hash_find (same_transaction mac_a 7)
         (transaction_hash
            (snd (fst (process_alfred_push_data (P:=example_platform)
                         transaction_complete (master_globals [] [])
                         example_interface example_environ addr_a
                         push_one))))
       = if transaction_complete head then None else Some head.
Proof.
  destruct (push_record_after (P:=example_platform) transaction_complete
              (master_globals [] [])
              (snd (fst (process_alfred_push_data (P:=example_platform)
                           transaction_complete (master_globals [] [])
                           example_interface example_environ addr_a
                           push_one)))
              example_interface example_environ
              (snd (process_alfred_push_data (P:=example_platform)
                      transaction_complete (master_globals [] [])
                      example_interface example_environ addr_a push_one))
              addr_a push_one mac_a)
    as (head & _ & _ & _ & Hnew & Hlook).
  - split; constructor.
  - reflexivity.
  - exact I.
  - vm_compute. reflexivity.
  - exists head. split; [exact (proj1 (proj2 Hnew)) | exact Hlook].
Defined.

(** Node A answers a request for type 10 with its one dataset. *)
Lemma push_data_carries_every_dataset_once_witness :
  exists l,
    sends example_environ
      (snd (push_data (P:=example_platform) (slave_globals [entry_a10] [])
              example_interface example_environ addr_a SOURCE_SYNCED 10 7))
      l
    /\ carried_records l = [entry_a10]
    /\ Forall (datagram_exact (P:=example_platform)) l.
Proof.
  apply (push_data_carries_every_dataset_once (P:=example_platform) addr_a
           SOURCE_SYNCED 10 7).
  - vm_compute. discriminate.
  - vm_compute. reflexivity.
  - constructor; [|constructor]. vm_compute. split; [discriminate|reflexivity].
  - constructor; [|constructor]. exists [1; 2; 3]. split; reflexivity.
Defined.

(** The datagram of node A reaches node B, which holds a dataset of its
    own. *)
Lemma pushed_datagram_is_merged_as_sent_witness :
  exists g' e',
    finish_alfred_push_data (P:=example_platform)
      (slave_globals [local_entry] []) example_environ mac_a
      (packet_bytes (P:=example_platform) 0 packet_of_a10)
    = (0, g', e')
    /\ exists x,
         hash_find (same_data (data entry_a10)) (data_hash g') = Some x
         /\ buf x = Some [1; 2; 3]
         /\ data_source x = SOURCE_FIRST_HAND.
Proof.
  destruct (pushed_datagram_is_merged_as_sent (P:=example_platform)
              (slave_globals [local_entry] []) example_environ mac_a 0
              packet_of_a10)
    as (g' & e' & Hfin & Hall).
  - reflexivity.
  - reflexivity.
  - constructor; [|constructor].
    split; [reflexivity|].
    split; [vm_compute; split; [discriminate | reflexivity]|].
    split; [vm_compute; split; [discriminate | reflexivity]|].
    split; [vm_compute; split; [discriminate | reflexivity]|].
    exists [1; 2; 3]. split; reflexivity.
  - vm_compute. constructor; [intros H; exact H | constructor].
  - reflexivity.
  - constructor; [|constructor]. exists [104; 105]. split; reflexivity.
  - intros d x [<-|[]] Hx. vm_compute in Hx. discriminate Hx.
  - exists g', e'. split; [exact Hfin|].
    destruct (Hall entry_a10 (or_introl eq_refl))
      as (x & Hx & _ & Hbuf & _ & _ & Hsrc).
    exists x. split; [exact Hx|]. split; [exact Hbuf | exact Hsrc].
Defined.

(** The push of peer A completes transaction 7 and its dataset is stored. *)
Lemma stored_buffers_match_their_length_witness :
  buffers_in_order
    (fst (recv_packets (P:=example_platform) transaction_complete
            [arrival_one] (master_globals [local_entry] [head_a7])
            example_interface)).
Proof.
  apply (stored_buffers_match_their_length (P:=example_platform)
           transaction_complete [arrival_one]
           (master_globals [local_entry] [head_a7]) example_interface).
  - split.
    + constructor; [|constructor].
      exists [104; 105]. split; reflexivity.
    + constructor; [constructor | constructor].
  - constructor; [|constructor].
    split; [reflexivity|]. vm_compute. discriminate.
Defined.

(** Peer A's record is merged into the store of node B and merged again
    later. *)
Lemma merge_record_idempotent_witness :
  exists g1 e1 g2 e2 v,
    merge_record (P:=example_platform) mac_a
      (record_bytes mac_a 9 0 [1; 2; 3]) 3 (master_globals [local_entry] [])
      example_environ = (true, g1, e1)
    /\ merge_record (P:=example_platform) mac_a
         (record_bytes mac_a 9 0 [1; 2; 3]) 3 g1 environ_later
       = (true, g2, e2)
    /\ trace e2 = trace environ_later
    /\ hash_find (same_data (read_data (P:=example_platform)
                               (record_bytes mac_a 9 0 [1; 2; 3])))
                 (data_hash g1) = Some v
    /\ data_hash g2
       = if data_source_eqb (data_source v) SOURCE_LOCAL
         then data_hash g1
         else hash_set
                (same_data (read_data (P:=example_platform)
                               (record_bytes mac_a 9 0 [1; 2; 3])))
                (data_hash g1) (seen_at v 250).
Proof.
  destruct (merge_record_idempotent (P:=example_platform) mac_a
              (record_bytes mac_a 9 0 [1; 2; 3]) 3
              (master_globals [local_entry] []) example_environ
              environ_later)
    as (g1 & e1 & g2 & e2 & v & H1 & H2 & Ht & _ & _ & _ & Hf & Hd).
  - reflexivity.
  - reflexivity.
  - constructor; [|constructor]. exists [104; 105]. split; reflexivity.
  - split; [vm_compute; discriminate | vm_compute; discriminate].
  - exists g1, e1, g2, e2, v. repeat split; assumption.
Defined.

Lemma record_loop_turns_bounded_witness :
  Z.of_nat (length (carried push_one)) <= 6553
  /\ finish_alfred_push_data (P:=example_platform) (master_globals [] [])
       example_environ mac_a push_one
     = finish_alfred_push_data_loop (P:=example_platform) 40 mac_a
         (skipn off_push_data push_one)
         (get_u16 push_one off_length - (sizeof_push - sizeof_tlv))
         (master_globals [] []) example_environ.
Proof.
  destruct (record_loop_turns_bounded (P:=example_platform)
              (master_globals [] []) example_environ mac_a push_one 40)
    as (_ & Hcount & Hloop).
  - vm_compute. discriminate.
  - vm_compute. repeat constructor.
  - split; [exact Hcount | exact Hloop].
Defined.

(** A request leaves the globals of the node that answers it alone. *)
Lemma answers_go_to_the_requester_witness :
  snd (fst (fst (recv_alfred_packet (P:=example_platform)
                   transaction_complete (slave_globals [entry_a10] [])
                   example_interface example_environ addr_a
                   request_type42 7)))
  = slave_globals [entry_a10] [].
Proof.
  pose proof (answers_go_to_the_requester (P:=example_platform)
                transaction_complete (slave_globals [entry_a10] [])
                example_interface example_environ addr_a request_type42 7)
    as H.
  destruct (recv_alfred_packet (P:=example_platform) transaction_complete
              (slave_globals [entry_a10] []) example_interface
              example_environ addr_a request_type42 7)
    as [[[r g'] i'] e'].
  destruct H as [_ Hg]. cbn [fst snd]. apply Hg. reflexivity.
Defined.
